(** * nonvalid: the validation engine of [nonvalid.js], embedded in Rocq

    The development follows [createInstance] of the library: the instance
    state ([values], [funnel], [path], [errorPath], [validatorDepth],
    [safeDepth], [safeMap], [started], [finished]) is threaded explicitly
    through a state-and-exception monad, schema callbacks are programs over
    the instance's public interface, and every function of the source keeps
    its name. *)

From Stdlib Require Import List String Ascii ZArith NArith Bool Lia PeanoNat.
From Stdlib Require Import DecimalString Decimal DecimalN Sorted.
Import ListNotations.
Local Open Scope string_scope.
Local Open Scope list_scope.
Set Warnings "-register-all".

(** ** JavaScript values *)

Module JS.

(** Primitive values.  Finite numbers are kept as integers; the three
  non-finite numbers are separate constructors.  Symbols are identified by
  a number: two symbols are the same symbol iff their numbers agree. *)
Inductive prim : Type :=
| PUndef
| PNull
| PBool (b : bool)
| PNum (z : Z)
| PNaN
| PInf (negative : bool)
| PStr (s : string)
| PSym (id : nat)
| PBigInt (z : Z).

(** Property keys are strings or symbols. *)
Inductive key : Type :=
| KStr (s : string)
| KSym (id : nat).

(** Values.  A function value is known by its identity only; arrays may
  have holes ([None]); an object is a plain one, as an object literal or
  [JSON.parse] makes it: it lists its own properties, all of them
  enumerable data properties, in creation order, and its prototype is
  [Object.prototype]; [VWrap u] is the Proxy that [wrapIfSafe] builds around
  [u].  [VObjectPrototype] is the object [Object.prototype] itself, and
  [VNative name] the built-in function that it holds under [name]
  ([VNative "constructor"] is [Object]). *)
Inductive value : Type :=
| VPrim (p : prim)
| VFun (id : nat)
| VArr (items : list (option value))
| VObj (props : list (key * value))
| VWrap (u : value)
| VNative (name : string)
| VObjectPrototype.

Definition undefined : value := VPrim PUndef.
Definition jtrue : value := VPrim (PBool true).
Definition jfalse : value := VPrim (PBool false).

(** Entries pushed on [path]: array indices are numbers, object keys are
  strings or symbols. *)
Inductive pkey : Type :=
| PIdx (n : nat)
| PKey (k : key).

Definition key_eqb (a b : key) : bool :=
match a, b with
| KStr s, KStr t => String.eqb s t
| KSym i, KSym j => Nat.eqb i j
| _, _ => false
end.

Lemma key_eqb_spec a b : reflect (a = b) (key_eqb a b).
Proof.
destruct a as [s|i], b as [t|j]; simpl; try (constructor; discriminate).
- destruct (String.eqb_spec s t); constructor; congruence.
- destruct (Nat.eqb_spec i j); constructor; congruence.
Qed.

(** [a === b] for a primitive [b]. [NaN] equals nothing. *)
Definition prim_strict_eq (a b : prim) : bool :=
match a, b with
| PUndef, PUndef => true
| PNull, PNull => true
| PBool x, PBool y => Bool.eqb x y
| PNum x, PNum y => Z.eqb x y
| PInf x, PInf y => Bool.eqb x y
| PStr x, PStr y => String.eqb x y
| PSym x, PSym y => Nat.eqb x y
| PBigInt x, PBigInt y => Z.eqb x y
| _, _ => false
end.

(** [v !== p] for a primitive [p]: anything that is not a primitive is a
  different value. *)
Definition strict_neq_prim (v : value) (p : prim) : bool :=
match v with
| VPrim q => negb (prim_strict_eq q p)
| _ => true
end.

(** ToBoolean. *)
Definition truthy (v : value) : bool :=
match v with
| VPrim PUndef | VPrim PNull | VPrim PNaN => false
| VPrim (PBool b) => b
| VPrim (PNum z) => negb (Z.eqb z 0)
| VPrim (PStr s) => negb (String.eqb s "")
| VPrim (PBigInt z) => negb (Z.eqb z 0)
| _ => true
end.

(** [a || b] *)
Definition or_else (a b : value) : value := if truthy a then a else b.

(** *** Own property keys and their order

  A string is a canonical numeric string when it is the decimal numeral of
  a natural number, and an array index when that number is below
  [2^32 - 1].  [Object.entries] lists the array indices first, in ascending
  order, then the other strings in creation order, the numerals from
  [2^32 - 1] on among them, and [Object.getOwnPropertySymbols] lists symbols
  in creation order. *)
Definition canonical_index (s : string) : option N :=
match NilZero.uint_of_string s with
| Some d =>
    let n := N.of_uint d in
    if String.eqb (NilZero.string_of_uint (N.to_uint n)) s then Some n else None
| None => None
end.

Definition array_index (s : string) : option N :=
match canonical_index s with
| Some n => if (n <? 4294967295)%N then Some n else None
| None => None
end.

Definition index_string (n : nat) : string :=
NilZero.string_of_uint (N.to_uint (N.of_nat n)).

Section Entries.
Context {A : Type}.

Fixpoint insert_index (e : N * (key * A)) (l : list (N * (key * A))) :=
  match l with
  | [] => [e]
  | x :: r => if N.leb (fst e) (fst x) then e :: l else x :: insert_index e r
  end.

Fixpoint index_entries (l : list (key * A)) : list (N * (key * A)) :=
  match l with
  | [] => []
  | (KStr s, a) :: r =>
      match array_index s with
      | Some n => insert_index (n, (KStr s, a)) (index_entries r)
      | None => index_entries r
      end
  | _ :: r => index_entries r
  end.

Definition is_plain_string (e : key * A) : bool :=
  match fst e with
  | KStr s => match array_index s with Some _ => false | None => true end
  | KSym _ => false
  end.

Definition is_symbol_key (e : key * A) : bool :=
  match fst e with KSym _ => true | KStr _ => false end.

(** [Object.entries(object)] *)
Definition Object_entries (l : list (key * A)) : list (key * A) :=
  map snd (index_entries l) ++ filter is_plain_string l.

(** [Object.getOwnPropertySymbols(object).map(key => [key, object[key]])] *)
Definition symbol_entries (l : list (key * A)) : list (key * A) :=
  filter is_symbol_key l.

(** [allEntries] of the source, on the property list of an object. *)
Definition allEntries (l : list (key * A)) : list (key * A) :=
  Object_entries l ++ symbol_entries l.

Fixpoint lookup (k : key) (l : list (key * A)) : option A :=
  match l with
  | [] => None
  | (k', a) :: r => if key_eqb k' k then Some a else lookup k r
  end.

(** [hasProperty(object, property)] on a property list *)
Definition has_key (k : key) (l : list (key * A)) : bool :=
  match lookup k l with Some _ => true | None => false end.
End Entries.

(** *** Reading a property of an object

  [Object.prototype] has eleven methods and the accessor [__proto__], none
  of them enumerable, and no property under a symbol. *)
Definition Object_prototype_methods : list string :=
  ["constructor"; "__defineGetter__"; "__defineSetter__"; "hasOwnProperty";
   "__lookupGetter__"; "__lookupSetter__"; "isPrototypeOf";
   "propertyIsEnumerable"; "toString"; "valueOf"; "toLocaleString"].

(** [Object.prototype[k]], read through an object whose prototype is
  [proto]: the accessor [__proto__] answers with it. *)
Definition inherited (proto : value) (k : key) : value :=
match k with
| KStr s =>
    if existsb (String.eqb s) Object_prototype_methods then VNative s
    else if String.eqb s "__proto__" then proto
    else undefined
| KSym _ => undefined
end.

(** [object[k]] for a plain object and for [Object.prototype]: the own
  property, else what the prototype chain gives, else [undefined]. *)
Definition object_get (object : value) (k : key) : value :=
match object with
| VObj props =>
    match lookup k props with
    | Some x => x
    | None => inherited VObjectPrototype k
    end
| VObjectPrototype => inherited (VPrim PNull) k
| _ => undefined
end.

End JS.

Import JS.

(** ** The built-in matchers ([matchers] of the source) *)

Module matchers.
Definition number (v : value) : bool :=
  match v with VPrim (PNum _) => true | _ => false end.
Definition string (v : value) : bool :=
  match v with VPrim (PStr _) => true | _ => false end.
Definition boolean (v : value) : bool :=
  match v with VPrim (PBool _) => true | _ => false end.
Definition null (v : value) : bool :=
  match v with VPrim PNull => true | _ => false end.
Definition undefined (v : value) : bool :=
  match v with VPrim PUndef => true | _ => false end.
Definition defined (v : value) : bool := negb (undefined v).
Definition bigint (v : value) : bool :=
  match v with VPrim (PBigInt _) => true | _ => false end.
Definition symbol (v : value) : bool :=
  match v with VPrim (PSym _) => true | _ => false end.
Definition function (v : value) : bool :=
  match v with VFun _ | VNative _ => true | _ => false end.
Definition array (v : value) : bool :=
  match v with VArr _ => true | _ => false end.
(** [typeof v === 'object' && v !== null && !Array.isArray(v)]: plain
    objects, [Object.prototype], and the Proxy objects of safe navigation. *)
Definition object (v : value) : bool :=
  match v with VObj _ | VWrap _ | VObjectPrototype => true | _ => false end.
Definition get (v : value) : value := v.
End matchers.

(** ** The reserved symbols ([symbols] and [symbolList]) *)

Module symbols.
Definition other : nat := 0.
Definition error : nat := 1.
Definition end_ : nat := 2.
End symbols.

Definition symbolList : list nat := [symbols.other; symbols.error; symbols.end_].

Definition in_symbolList (id : nat) : bool := existsb (Nat.eqb id) symbolList.

(** [key.toString()] of a reserved symbol, as used in the error messages. *)
Definition symbol_toString (id : nat) : string :=
  if Nat.eqb id symbols.other then "Symbol(nonvalid.other)"
  else if Nat.eqb id symbols.error then "Symbol(nonvalid.error)"
  else "Symbol(nonvalid.end)".

(** ** Instance state *)

Record state : Type := mkState {
  values : list value;
  funnel : list value;
  path : list pkey;
  errorPath : option (list pkey);
  validatorDepth : Z;
  safeDepth : Z;
  safeMap : list (nat * value);
  started : bool;
  finished : bool;
  (** supply of the fresh symbols created by [Symbol('nonvalid.safe')];
      it belongs to the runtime, no reset touches it *)
  symbolSupply : nat;
  (** ghost: the engine never reads it.  [exec] records here, at every step
      of a callback's program, the heights of [values], [funnel] and
      [path] *)
  observed : list (nat * nat * nat)
}.

Definition basicReset (final : bool) (st : state) : state :=
  mkState (values st) (funnel st) (path st) (errorPath st)
          (validatorDepth st) (safeDepth st) [] false final (symbolSupply st) (observed st).

Definition reset (final : bool) (st : state) : state :=
  basicReset final
    (mkState [] [] [] None 0%Z 0%Z (safeMap st) (started st) (finished st)
             (symbolSupply st) (observed st)).

(** The state of a fresh instance: [reset(false)] at creation.  Symbols below
    [first_symbol] are the ones the program under validation already has. *)
Definition createInstance (first_symbol : nat) : state :=
  mkState [] [] [] None 0%Z 0%Z [] false false first_symbol [].

(** ** Computations: state passing with exceptions *)

Inductive exn : Type := Err (msg : string).

Inductive result (A : Type) : Type :=
| Ok (a : A)
| Exn (e : exn).
Arguments Ok {A} a.
Arguments Exn {A} e.

Definition M (A : Type) : Type := state -> result A * state.

Definition ret {A} (a : A) : M A := fun st => (Ok a, st).
Definition throw {A} (e : exn) : M A := fun st => (Exn e, st).
Definition bind {A B} (m : M A) (f : A -> M B) : M B :=
  fun st => match m st with
            | (Ok a, st') => f a st'
            | (Exn e, st') => (Exn e, st')
            end.
Definition gets {A} (f : state -> A) : M A := fun st => (Ok (f st), st).
Definition modify (f : state -> state) : M unit := fun st => (Ok tt, f st).

Declare Scope js_scope.
Delimit Scope js_scope with js.
Notation "x <- m ;; k" := (bind m (fun x => k))
  (at level 61, m at next level, right associativity) : js_scope.
Notation "m ;;; k" := (bind m (fun _ => k))
  (at level 61, right associativity) : js_scope.
Local Open Scope js_scope.

Definition when (b : bool) (m : M unit) : M unit := if b then m else ret tt.

(** [resetAndThrow] *)
Definition resetAndThrow {A} (error : string) : M A :=
  modify (reset true) ;;; throw (Err error).

Definition set_values (f : list value -> list value) (st : state) : state :=
  mkState (f (values st)) (funnel st) (path st) (errorPath st)
          (validatorDepth st) (safeDepth st) (safeMap st) (started st)
          (finished st) (symbolSupply st) (observed st).
Definition set_funnel (f : list value -> list value) (st : state) : state :=
  mkState (values st) (f (funnel st)) (path st) (errorPath st)
          (validatorDepth st) (safeDepth st) (safeMap st) (started st)
          (finished st) (symbolSupply st) (observed st).
Definition set_path (f : list pkey -> list pkey) (st : state) : state :=
  mkState (values st) (funnel st) (f (path st)) (errorPath st)
          (validatorDepth st) (safeDepth st) (safeMap st) (started st)
          (finished st) (symbolSupply st) (observed st).
Definition set_errorPath (e : option (list pkey)) (st : state) : state :=
  mkState (values st) (funnel st) (path st) e
          (validatorDepth st) (safeDepth st) (safeMap st) (started st)
          (finished st) (symbolSupply st) (observed st).
Definition set_validatorDepth (f : Z -> Z) (st : state) : state :=
  mkState (values st) (funnel st) (path st) (errorPath st)
          (f (validatorDepth st)) (safeDepth st) (safeMap st) (started st)
          (finished st) (symbolSupply st) (observed st).
Definition set_safeDepth (f : Z -> Z) (st : state) : state :=
  mkState (values st) (funnel st) (path st) (errorPath st)
          (validatorDepth st) (f (safeDepth st)) (safeMap st) (started st)
          (finished st) (symbolSupply st) (observed st).
Definition set_started (b : bool) (st : state) : state :=
  mkState (values st) (funnel st) (path st) (errorPath st)
          (validatorDepth st) (safeDepth st) (safeMap st) b
          (finished st) (symbolSupply st) (observed st).
Definition register_safe (u : value) (st : state) : state :=
  mkState (values st) (funnel st) (path st) (errorPath st)
          (validatorDepth st) (safeDepth st)
          (safeMap st ++ [(symbolSupply st, u)]) (started st)
          (finished st) (S (symbolSupply st)) (observed st).

Definition observe (st : state) : state :=
  mkState (values st) (funnel st) (path st) (errorPath st)
          (validatorDepth st) (safeDepth st) (safeMap st) (started st)
          (finished st) (symbolSupply st)
          (observed st ++ [(List.length (values st), List.length (funnel st),
                            List.length (path st))]).

(** [array.push(x)] and [array.pop()] on the stacks, which grow at the end. *)
Definition push {A} (x : A) (l : list A) : list A := l ++ [x].
Definition pop {A} (l : list A) : list A := removelast l.

(** [currentValue]: the last element of [values], [undefined] if empty *)
Definition currentValue (st : state) : value := last (values st) undefined.

(** [currentKey]: the last element of [path], if any *)
Definition currentKey (st : state) : option pkey :=
  match path st with [] => None | p => Some (last p (PIdx 0)) end.

(** ** Safe navigation: the Proxy of [wrapIfSafe] *)

Definition string_of_Z (z : Z) : string := NilZero.string_of_int (Z.to_int z).

(** A number as a string ([Number::toString]): the digits are those of the
    shortest decimal that reads back as the number, the nearest to it when
    several of that length do; the decimal is written in full when it has at
    most 21 digits, and in exponent notation from [1e+21] on.

    The decimal [y] reads back as the number [x] when [x] is the number
    nearest to [y], or one of the two nearest and the one whose significand
    is even.  A significand has 53 bits, so the numbers around [x] are [2^e]
    apart, [e] being the excess of the bits of [x] over 53, and half that
    just below a power of two. *)
Definition reads_back (x y : Z) : bool :=
  let e := Z.max 0 (Z.log2 x + 1 - 53) in
  let m := (x / 2 ^ e)%Z in
  let above := (2 ^ e)%Z in
  let below := if ((m =? 2 ^ 52) && (0 <? e))%Z then (2 ^ (e - 1))%Z else (2 ^ e)%Z in
  if Z.even m
  then ((2 * x - below <=? 2 * y) && (2 * y <=? 2 * x + above))%Z
  else ((2 * x - below <? 2 * y) && (2 * y <? 2 * x + above))%Z.

(** The shortest decimal that reads back as [x], of [k] significant digits
    or more out of the [n] digits of [x]. *)
Fixpoint shortest (fuel : nat) (k n : nat) (x : Z) : Z :=
  match fuel with
  | O => x
  | S fuel' =>
      let p := (10 ^ Z.of_nat (n - k))%Z in
      let y1 := (x / p * p)%Z in
      let y2 := (y1 + p)%Z in
      match reads_back x y1, reads_back x y2 with
      | true, true =>
          if (x - y1 <? y2 - x)%Z then y1
          else if (y2 - x <? x - y1)%Z then y2
          else if Z.even (x / p) then y1 else y2
      | true, false => y1
      | false, true => y2
      | false, false => shortest fuel' (S k) n x
      end
  end.

Fixpoint strip_zeros (s : string) : string :=
  match s with
  | EmptyString => EmptyString
  | String c r =>
      let r' := strip_zeros r in
      if Ascii.eqb c "0" && String.eqb r' "" then "" else String c r'
  end.

Definition positive_toString (x : Z) : string :=
  let n := String.length (string_of_Z x) in
  let digits := string_of_Z (shortest n 1 n x) in
  if Nat.leb (String.length digits) 21 then digits
  else
    let exponent := string_of_Z (Z.of_nat (String.length digits - 1)) in
    match strip_zeros digits with
    | String d EmptyString => String d ("e+" ++ exponent)
    | String d r => String d ("." ++ r ++ "e+" ++ exponent)
    | EmptyString => digits
    end.

Definition Number_toString (z : Z) : string :=
  match z with
  | Z0 => "0"
  | Zpos _ => positive_toString z
  | Zneg _ => "-" ++ positive_toString (- z)
  end.

(** ToPropertyKey on the values that may reach [hasProperty] in the getter. *)
Definition to_key (p : value) : option key :=
  match p with
  | VPrim (PStr s) => Some (KStr s)
  | VPrim (PSym id) => Some (KSym id)
  | VPrim (PNum z) => Some (KStr (Number_toString z))
  | _ => None
  end.

(** The own property [k] of an object or an array, if it has one.  The
    elements of an array are its properties under the canonical numerals of
    their positions, of which an array has fewer than [2^32 - 1].  A Proxy of
    safe navigation reports no own property to the program. *)
Definition own_get (v : value) (k : key) : option value :=
  match v with
  | VObj props => lookup k props
  | VArr items =>
      match k with
      | KStr s =>
          if String.eqb s "length"
          then Some (VPrim (PNum (Z.of_nat (List.length items))))
          else match canonical_index s with
               | Some n => match nth_error items (N.to_nat n) with
                           | Some (Some x) => Some x
                           | _ => None
                           end
               | None => None
               end
      | KSym _ => None
      end
  | VObjectPrototype =>
      match k with
      | KStr s =>
          if existsb (String.eqb s) Object_prototype_methods then Some (VNative s)
          else if String.eqb s "__proto__" then Some (VPrim PNull)
          else None
      | KSym _ => None
      end
  | _ => None
  end.

(** [hasProperty(value, p)] *)
Definition hasProperty (v p : value) : bool :=
  match to_key p with
  | Some k => match own_get v k with Some _ => true | None => false end
  | None => false
  end.

(** [value[p]] when [hasProperty(value, p)] *)
Definition get_own (v p : value) : value :=
  match to_key p with
  | Some k => match own_get v k with Some x => x | None => undefined end
  | None => undefined
  end.

Definition is_digit (c : ascii) : bool :=
  let n := nat_of_ascii c in Nat.leb 48 n && Nat.leb n 57.

Fixpoint all_digits (s : string) : bool :=
  match s with
  | EmptyString => true
  | String c r => is_digit c && all_digits r
  end.

(** [p.match(/^\d+$/)] *)
Definition matches_digits (p : value) : bool :=
  match p with
  | VPrim (PStr s) => negb (String.eqb s "") && all_digits s
  | _ => false
  end.

Fixpoint safe_lookup (id : nat) (m : list (nat * value)) : option value :=
  match m with
  | [] => None
  | (i, v) :: r => if Nat.eqb i id then Some v else safe_lookup id r
  end.

(** The property as a value: a string or a symbol. *)
Definition key_value (property : key) : value :=
  match property with
  | KStr s => VPrim (PStr s)
  | KSym id => VPrim (PSym id)
  end.

(** [p] of the getter: the property, or the value registered for it in
    [safeMap]. *)
Definition resolve_property (property : key) (st : state) : value :=
  match property with
  | KSym id => match safe_lookup id (safeMap st) with
               | Some v => v
               | None => key_value property
               end
  | KStr _ => key_value property
  end.

(** [valid] of the getter *)
Definition valid (value p : value) : bool :=
  ((matchers.object value &&
      (matchers.symbol p || matchers.string p || matchers.number p))
   || (matchers.array value &&
      ((matchers.string p && matches_digits p) || matchers.number p)))
  && hasProperty value p.

(** The [get] trap of the Proxy around [value], for a [property] other than
    the private unwrap symbol and [Symbol.toPrimitive]. *)
Definition getter (value : value) (property : key) : M JS.value :=
  fun st =>
    let p := resolve_property property st in
    (Ok (VWrap (if valid value p then get_own value p else undefined)), st).

(** The [get] trap for [Symbol.toPrimitive], followed by the call of the
    function it returns: a fresh symbol is registered in [safeMap]. *)
Definition toPrimitive (value : value) : M nat :=
  fun st => (Ok (symbolSupply st), register_safe value st).

(** [wrapIfSafe] *)
Definition wrapIfSafe (value : value) : M JS.value :=
  fun st => (Ok (if (0 <? safeDepth st)%Z then VWrap value else value), st).

(** [v[privateSymbols.unwrap]] and [hasProperty(v, privateSymbols.unwrap)]:
    only the Proxy answers to the private symbol. *)
Definition unwrap (v : value) : value :=
  match v with VWrap u => u | _ => undefined end.
Definition has_unwrap (v : value) : bool :=
  match v with VWrap _ => true | _ => false end.

(** [value[key]] in [inspectObject], for a [value] that passed
    [matchers.object]: the [get] trap of a Proxy, or the property of an
    object, own or inherited. *)
Definition member (value : value) (k : key) : M JS.value :=
  match value with
  | VWrap u => getter u k
  | _ => ret (object_get value k)
  end.

(** [value[index]] in [inspectArray] *)
Definition element (value : value) (index : nat) : JS.value :=
  match value with
  | VArr items => match nth_error items index with
                  | Some (Some x) => x
                  | _ => undefined
                  end
  | _ => undefined
  end.

(** [allEntries(value)] for a [value] that passed [matchers.object] *)
Definition value_entries (value : value) : list (key * JS.value) :=
  match value with
  | VObj props => allEntries props
  | _ => []
  end.

Definition array_length (value : value) : nat :=
  match value with VArr items => List.length items | _ => 0 end.

(** ** The engine

    The functions of [createInstance], in the order of the source.  A schema
    member is handed around as a [node]: the member as a JavaScript value,
    for the checks of [validateObjectSchema] and [validateArraySchema], and
    [inspect] applied to it. *)

Record node : Type := mkNode {
  node_value : value;
  node_inspect : value -> M value
}.

Definition CANTPROCEED : string := "Cannot proceed with validation after an error".

(** [run] *)
Definition run (callback : value -> option pkey -> M value) (value : value)
  : M JS.value :=
  fun st =>
    let st1 := set_values (push value) st in
    match callback value (currentKey st1) st1 with
    | (Exn e, st2) => (Exn e, if finished st2 then st2 else reset true st2)
    | (Ok r, st2) =>
        let error := or_else r jfalse in
        if finished st2 then (Exn (Err CANTPROCEED), st2)
        else (Ok error, set_values pop st2)
    end.

(** A [for]-[of] loop whose body may [return]: [Some r] leaves the
    enclosing function with [r], [None] goes on. *)
Fixpoint for_of {A} (l : list A) (body : A -> M (option value))
  : M (option value) :=
  match l with
  | [] => ret None
  | x :: r =>
      o <- body x ;;
      match o with
      | Some e => ret (Some e)
      | None => for_of r body
      end
  end.

Definition node_value_opt (o : option node) : value :=
  match o with Some n => node_value n | None => undefined end.

Definition reserved (k : key) : bool :=
  match k with KSym id => in_symbolList id | KStr _ => false end.

Definition misplaced_in_object (e : key * node) : bool :=
  match fst e with
  | KSym id => negb (Nat.eqb id symbols.other) && negb (Nat.eqb id symbols.error)
               && in_symbolList id
  | KStr _ => false
  end.

(** [validateObjectSchema] *)
Definition validateObjectSchema (schema : list (key * node))
  : M (option node * value) :=
  let catchOther := lookup (KSym symbols.other) schema in
  when (negb (matchers.undefined (node_value_opt catchOther))
        && negb (matchers.function (node_value_opt catchOther)))
       (resetAndThrow "The catch-other callback must be a function") ;;;
  let shapeError := node_value_opt (lookup (KSym symbols.error) schema) in
  when (matchers.defined shapeError
        && (matchers.function shapeError || negb (truthy shapeError)))
       (resetAndThrow "The shape error must be a non-function truthy value") ;;;
  match find misplaced_in_object (symbol_entries schema) with
  | Some (KSym id, _) =>
      resetAndThrow (symbol_toString id ++ " is not expected in an object schema")
  | _ =>
      ret (if matchers.undefined (node_value_opt catchOther) then None
           else catchOther,
           shapeError)
  end.

(** [inspectKey] *)
Definition inspectKey (schema : node) (value : value) (k : pkey) : M JS.value :=
  modify (set_path (push k)) ;;;
  error <- node_inspect schema value ;;
  modify (set_path pop) ;;;
  ret error.

(** [inspectObject] *)
Definition inspectObject (schema : list (key * node)) (value : value)
  : M JS.value :=
  cs <- validateObjectSchema schema ;;
  let '(catchOther, shapeError) := cs in
  if negb (matchers.object value) then ret (or_else shapeError jtrue)
  else
    r1 <- for_of (allEntries schema) (fun '(k, subschema) =>
            if reserved k then ret None
            else
              subvalue <- member value k ;;
              error <- inspectKey subschema subvalue (PKey k) ;;
              ret (if truthy error then Some error else None)) ;;
    match r1 with
    | Some error => ret error
    | None =>
        r2 <- for_of (value_entries value) (fun '(k, subvalue) =>
                if negb (has_key k schema) then
                  match catchOther with
                  | None => ret (Some jtrue)
                  | Some c =>
                      error <- inspectKey c subvalue (PKey k) ;;
                      ret (if truthy error then Some error else None)
                  end
                else ret None) ;;
        match r2 with
        | Some error => ret error
        | None => ret jfalse
        end
    end.

Definition is_end (o : option node) : bool :=
  match o with
  | Some n => match node_value n with
              | VPrim (PSym id) => Nat.eqb id symbols.end_
              | _ => false
              end
  | None => false
  end.

Definition misplaced_in_array (o : option node) : bool :=
  match node_value_opt o with
  | VPrim (PSym id) => negb (Nat.eqb id symbols.end_) && in_symbolList id
  | _ => false
  end.

(** The [while] loop of [validateArraySchema]: the first index that is a hole
    or holds the end marker. *)
Fixpoint find_endIndex (schema : list (option node)) : nat :=
  match schema with
  | Some n :: r => if is_end (Some n) then 0 else S (find_endIndex r)
  | _ => 0
  end.

(** The last loop of [validateArraySchema], over the elements after the end
    marker. *)
Fixpoint after_end (rest : list (option node)) (functional truthy_ : option node)
  : M (option node * option node) :=
  match rest with
  | [] => ret (functional, truthy_)
  | o :: r =>
      match o with
      | None => resetAndThrow "Encountered multiple end-of-array markers"
      | Some n =>
          if is_end o then resetAndThrow "Encountered multiple end-of-array markers"
          else if matchers.function (node_value n) then
            match functional with
            | Some _ => resetAndThrow "Encountered multiple catch-other callbacks"
            | None => after_end r (Some n) truthy_
            end
          else if truthy (node_value n) then
            match truthy_ with
            | Some _ => resetAndThrow "Encountered multiple shape error values"
            | None => after_end r functional (Some n)
            end
          else resetAndThrow "Shape error must be a truthy value"
      end
  end.

(** [validateArraySchema] *)
Definition validateArraySchema (schema : list (option node))
  : M (nat * option node * value) :=
  match find misplaced_in_array schema with
  | Some o =>
      match node_value_opt o with
      | VPrim (PSym id) =>
          resetAndThrow (symbol_toString id ++ " is not expected in an array schema")
      | _ => ret tt
      end
  | None => ret tt
  end ;;;
  let endIndex := find_endIndex schema in
  when (Nat.ltb (endIndex + 3) (List.length schema))
       (resetAndThrow "Found more than 2 elements after the end-of-array marker") ;;;
  ft <- after_end (skipn (endIndex + 1) schema) None None ;;
  ret (endIndex, fst ft, node_value_opt (snd ft)).

(** [schema[index]] for an index before the end marker *)
Definition schema_at (schema : list (option node)) (index : nat) : node :=
  match nth_error schema index with
  | Some (Some n) => n
  | _ => mkNode undefined (fun _ => ret jfalse)
  end.

(** [inspectArray] *)
Definition inspectArray (schema : list (option node)) (value : value)
  : M JS.value :=
  vs <- validateArraySchema schema ;;
  let '(maxIndex, catchOther, shapeError) := vs in
  if negb (matchers.array value) then ret (or_else shapeError jtrue)
  else
    r1 <- for_of (seq 0 maxIndex) (fun index =>
            error <- inspectKey (schema_at schema index) (element value index)
                                (PIdx index) ;;
            ret (if truthy error then Some error else None)) ;;
    match r1 with
    | Some error => ret error
    | None =>
        r2 <- for_of (seq maxIndex (array_length value - maxIndex)) (fun index =>
                match catchOther with
                | None => ret (Some jtrue)
                | Some c =>
                    error <- inspectKey c (element value index) (PIdx index) ;;
                    ret (if truthy error then Some error else None)
                end) ;;
        match r2 with
        | Some error => ret error
        | None => ret jfalse
        end
    end.

(** [inspectDeeper] *)
Definition inspectDeeper (inspector : value -> M value) (value : value)
  : M JS.value :=
  modify (set_funnel (push value)) ;;;
  error <- inspector value ;;
  modify (set_funnel pop) ;;;
  ret error.

(** [inspect], given [doInspect] applied to the schema *)
Definition inspect (doInspect : value -> M value) (value : value) : M JS.value :=
  error <- doInspect value ;;
  (if truthy error then
     fun st => match errorPath st with
               | None => (Ok tt, set_errorPath (Some (path st)) st)
               | Some _ => (Ok tt, st)
               end
   else modify (set_errorPath None)) ;;;
  ret error.

(** [validator]: [nv(value, schema)] when [value] is given, [nv(schema)]
    otherwise; [schema] comes as [inspect] applied to it. *)
Definition validator (value : option JS.value) (schema : JS.value -> M JS.value)
  : M JS.value :=
  depth <- gets validatorDepth ;;
  when (Z.eqb depth 0)
       (fin <- gets finished ;;
        when fin (resetAndThrow "To validate another value, use nonvalid.instance()") ;;;
        modify (set_started true)) ;;;
  modify (set_validatorDepth Z.succ) ;;;
  value <- match value with
           | Some v => ret v
           | None =>
               vs <- gets values ;;
               when (Nat.eqb (List.length vs) 0)
                    (resetAndThrow "Validator called with no value outside of any context") ;;;
               gets currentValue
           end ;;
  error <- schema value ;;
  modify (set_validatorDepth Z.pred) ;;;
  depth <- gets validatorDepth ;;
  when (Z.eqb depth 0) (modify (basicReset true)) ;;;
  ret error.

(** [validator.root] *)
Definition root : M value :=
  f <- gets funnel ;;
  when (Nat.eqb (List.length f) 0)
       (resetAndThrow "root() called outside of any object or array") ;;;
  wrapIfSafe (nth 0 f undefined).

(** [validator.up]; [funnel[funnel.length - 1 - levels]] is [undefined] when
    the index falls outside the array. *)
Definition up (levels : Z) : M value :=
  f <- gets funnel ;;
  when (Z.of_nat (List.length f) <=? levels)%Z
       (resetAndThrow "up() call navigates above any object or array") ;;;
  let i := (Z.of_nat (List.length f) - 1 - levels)%Z in
  wrapIfSafe (if (i <? Z.of_nat (List.length f))%Z
              then nth (Z.to_nat i) f undefined else undefined).

(** [validator.value] *)
Definition value_ : M value :=
  vs <- gets values ;;
  when (Nat.eqb (List.length vs) 0)
       (resetAndThrow "value() called outside of any context") ;;;
  v <- gets currentValue ;;
  wrapIfSafe v.

(** [validator.key] *)
Definition key_ : M key :=
  result <- gets currentKey ;;
  match result with
  | None => resetAndThrow "key() called outside of any context"
  | Some (PIdx _) => resetAndThrow "key() can be called for objects only"
  | Some (PKey k) => ret k
  end.

(** [validator.index] *)
Definition index : M nat :=
  result <- gets currentKey ;;
  match result with
  | None => resetAndThrow "index() called outside of any context"
  | Some (PKey _) => resetAndThrow "index() can be called for arrays only"
  | Some (PIdx n) => ret n
  end.

(** [validator.path()], without a root name *)
Definition path_ : M (list pkey) :=
  fun st =>
    if finished st then (Exn (Err "path() called after validation"), st)
    else if negb (started st) then (Exn (Err "path() called before validation"), st)
    else (Ok (path st), st).

(** [validator.errorPath()], without a root name *)
Definition errorPath_ : M (option (list pkey)) :=
  fun st =>
    if negb (finished st)
    then (Exn (Err "errorPath() called before validation is completed"), st)
    else (Ok (errorPath st), st).

(** The arguments of a matcher call.  [OneArg v call] carries, next to the
    argument [v], what calling [v()] does; it is looked at only when [v] is a
    function. *)
Inductive args (P : Type) : Type :=
| NoArgs
| OneArg (v : value) (call : P)
| ManyArgs.
Arguments NoArgs {P}.
Arguments OneArg {P} v call.
Arguments ManyArgs {P}.

(** [a !== b] for a function [b] *)
Definition differs_from_function (a b : value) : bool :=
  match a, b with
  | VFun i, VFun j => negb (Nat.eqb i j)
  | VNative s, VNative t => negb (String.eqb s t)
  | _, _ => true
  end.

Definition UNRETURNED : string :=
  "Callback didn’t perform traversal or didn’t return its result".

(** [enhanceMatcher(matcher, name)] applied to arguments *)
Definition enhanceMatcher (matcher : value -> M value) (name : string)
  (a : args (M value)) : M value :=
  match a with
  | ManyArgs =>
      throw (Err "Matchers are supposed to be run with exactly one or no arguments")
  | OneArg value call =>
      fun st =>
        if Nat.ltb 0 (List.length (values st)) && matchers.function value
           && differs_from_function (currentValue st) value
        then
          match call (set_safeDepth Z.succ st) with
          | (Exn e, st') => (Exn e, set_safeDepth Z.pred st')
          | (Ok v, st') =>
              let st2 := set_safeDepth Z.pred st' in
              if negb (matchers.object v) || negb (has_unwrap v)
              then resetAndThrow UNRETURNED st2
              else matcher (unwrap v) st2
          end
        else matcher value st
  | NoArgs =>
      vs <- gets values ;;
      if Nat.eqb (List.length vs) 0
      then throw (Err (name ++ "() called without arguments outside of any context"))
      else v <- gets currentValue ;; matcher v
  end.

(** ** Schemas and callbacks

    A schema is a function (a callback), an object, an array (possibly with
    holes), or any other, primitive, value.  The body of a callback is a
    program over the interface of the instance: it may call the validator,
    the navigation methods and the matchers, throw, and catch what it called;
    every call hands its result to the rest of the program.  A program
    reads: values are immutable here, so that no callback modifies the value
    it is handed or a container it navigates to, as a JavaScript callback
    could through the references it holds. *)
Inductive schema : Type :=
| SFun (id : nat) (body : value -> option pkey -> prog)
| SObj (props : list (key * schema))
| SArr (items : list (option schema))
| SLit (p : prim)
with prog : Type :=
| Ret (v : value)
| Throw (e : exn)
| Nv1 (s : schema) (k : value -> prog)
| Nv2 (v : value) (s : schema) (k : value -> prog)
| TryCatch (body : prog) (handler : exn -> prog) (k : value -> prog)
| Root (k : value -> prog)
| Up (levels : Z) (k : value -> prog)
| Value (k : value -> prog)
| Key (k : key -> prog)
| Index (k : nat -> prog)
| Path (k : list pkey -> prog)
| ErrorPath (k : option (list pkey) -> prog)
| Matcher (matcher : value -> prog) (name : string) (a : args prog)
          (k : value -> prog)
| ProxyGet (u : value) (property : key) (k : value -> prog)
| ProxyToPrimitive (u : value) (k : nat -> prog).

(** The schema as a JavaScript value. *)
Fixpoint schema_value (s : schema) : value :=
  match s with
  | SFun id _ => VFun id
  | SObj props => VObj (map (fun '(k, sub) => (k, schema_value sub)) props)
  | SArr items =>
      VArr (map (fun o => match o with
                          | Some sub => Some (schema_value sub)
                          | None => None
                          end) items)
  | SLit p => VPrim p
  end.

(** [doInspect], and the execution of a callback's program. *)
Fixpoint doInspect (schema : schema) (value : value) {struct schema} : M JS.value :=
  match schema with
  | SFun _ body => run (fun v k => exec (body v k)) value
  | SObj props =>
      inspectDeeper
        (inspectObject
           (map (fun '(k, sub) =>
                   (k, mkNode (schema_value sub) (inspect (doInspect sub))))
                props))
        value
  | SArr items =>
      inspectDeeper
        (inspectArray
           (map (fun o => match o with
                          | Some sub =>
                              Some (mkNode (schema_value sub) (inspect (doInspect sub)))
                          | None => None
                          end)
                items))
        value
  | SLit p => ret (VPrim (PBool (strict_neq_prim value p)))
  end
with exec (p : prog) {struct p} : M JS.value :=
  fun st0 =>
  (match p with
  | Ret v => ret v
  | Throw e => throw e
  | Nv1 s k => r <- validator None (inspect (doInspect s)) ;; exec (k r)
  | Nv2 v s k => r <- validator (Some v) (inspect (doInspect s)) ;; exec (k r)
  | TryCatch body handler k =>
      fun st =>
        match exec body st with
        | (Ok v, st') => exec (k v) st'
        | (Exn e, st') => (v <- exec (handler e) ;; exec (k v)) st'
        end
  | Root k => r <- root ;; exec (k r)
  | Up levels k => r <- up levels ;; exec (k r)
  | Value k => r <- value_ ;; exec (k r)
  | Key k => r <- key_ ;; exec (k r)
  | Index k => r <- index ;; exec (k r)
  | Path k => r <- path_ ;; exec (k r)
  | ErrorPath k => r <- errorPath_ ;; exec (k r)
  | Matcher matcher name a k =>
      r <- enhanceMatcher (fun v => exec (matcher v)) name
             match a with
             | NoArgs => NoArgs
             | OneArg v call => OneArg v (exec call)
             | ManyArgs => ManyArgs
             end ;;
      exec (k r)
  | ProxyGet u property k => r <- getter u property ;; exec (k r)
  | ProxyToPrimitive u k => r <- toPrimitive u ;; exec (k r)
  end) (observe st0).

(** [inspect(schema, value)] and the two ways of calling the instance. *)
Definition inspect_schema (s : schema) : value -> M value := inspect (doInspect s).
Definition nv (value : JS.value) (s : schema) : M JS.value :=
  validator (Some value) (inspect_schema s).
Definition nv1 (s : schema) : M JS.value := validator None (inspect_schema s).

(** [target[property]] written in a callback, for a property given by its
    name: the [get] trap when [target] is a Proxy of safe navigation, a
    [TypeError] on [undefined] and [null], the property of an object, own or
    inherited, and an element or the [length] of an array. *)
Definition js_get (target : value) (property : key) (k : value -> prog) : prog :=
  match target with
  | VWrap u => ProxyGet u property k
  | VPrim PUndef | VPrim PNull =>
      Throw (Err "TypeError: Cannot read properties of undefined or null")
  | VObj _ | VObjectPrototype => k (object_get target property)
  | _ => k (match own_get target property with Some x => x | None => undefined end)
  end.

(** The built-in matchers as callables of the instance. *)
Definition builtin (m : value -> bool) : value -> prog :=
  fun v => Ret (VPrim (PBool (m v))).
Definition get_matcher : value -> prog := fun v => Ret (matchers.get v).

(** * Properties *)

Ltac unfold_monad :=
  unfold when, resetAndThrow in *; unfold bind, ret, throw, modify, gets in *.

Ltac break_match :=
  match goal with
  | |- context [match ?x with _ => _ end] => destruct x eqn:?
  end.

(** ** Reasoning about computations

    [post m st Q]: running [m] from [st] ends in an outcome and a state that
    satisfy [Q]. *)

Section Post.
Context {A : Type}.

Definition post (m : M A) (st : state) (Q : result A -> state -> Prop) : Prop :=
  Q (fst (m st)) (snd (m st)).

Lemma post_intro (m : M A) st (Q : result A -> state -> Prop) :
  (forall o st', m st = (o, st') -> Q o st') -> post m st Q.
Proof. intros H. unfold post. apply H. now destruct (m st). Qed.

Lemma post_elim (m : M A) st (Q : result A -> state -> Prop) o st' :
  post m st Q -> m st = (o, st') -> Q o st'.
Proof. unfold post. intros H E. now rewrite E in H. Qed.

Lemma post_weaken (m : M A) st (Q Q' : result A -> state -> Prop) :
  post m st Q -> (forall o st', Q o st' -> Q' o st') -> post m st Q'.
Proof. unfold post. auto. Qed.

Lemma post_ret (a : A) st (Q : result A -> state -> Prop) :
  Q (Ok a) st -> post (ret a) st Q.
Proof. auto. Qed.

Lemma post_throw e st (Q : result A -> state -> Prop) :
  Q (Exn e) st -> post (throw e) st Q.
Proof. auto. Qed.

Lemma post_resetAndThrow msg st (Q : result A -> state -> Prop) :
  Q (Exn (Err msg)) (reset true st) -> post (resetAndThrow msg) st Q.
Proof. auto. Qed.

Lemma post_gets (f : state -> A) st (Q : result A -> state -> Prop) :
  Q (Ok (f st)) st -> post (gets f) st Q.
Proof. auto. Qed.
End Post.

Lemma post_bind {A B} (m : M A) (f : A -> M B) st (Q : result B -> state -> Prop) :
  post m st (fun o st1 => match o with
                          | Ok a => post (f a) st1 Q
                          | Exn e => Q (Exn e) st1
                          end) ->
  post (bind m f) st Q.
Proof. unfold post, bind. destruct (m st) as [[a|e] st1]; auto. Qed.

Lemma post_modify (f : state -> state) st (Q : result unit -> state -> Prop) :
  Q (Ok tt) (f st) -> post (modify f) st Q.
Proof. auto. Qed.

Lemma post_when (b : bool) (m : M unit) st (Q : result unit -> state -> Prop) :
  (if b then post m st Q else Q (Ok tt) st) -> post (when b m) st Q.
Proof. destruct b; auto. Qed.

Ltac wp_step :=
  lazymatch goal with
  | |- post (bind _ _) _ _ => apply post_bind
  | |- post (ret _) _ _ => apply post_ret
  | |- post (throw _) _ _ => apply post_throw
  | |- post (resetAndThrow _) _ _ => apply post_resetAndThrow
  | |- post (gets _) _ _ => apply post_gets
  | |- post (modify _) _ _ => apply post_modify
  | |- post (when _ _) _ _ => apply post_when
  end.
Ltac wp := repeat wp_step.

(** A call of the instance at depth 0 of a session that is not finished. *)
Lemma validator_top (v : value) (sch : value -> M value) st :
  validatorDepth st = 0%Z -> finished st = false ->
  validator (Some v) sch st =
  match sch v (set_validatorDepth Z.succ (set_started true st)) with
  | (Ok error, st2) =>
      if Z.eqb (Z.pred (validatorDepth st2)) 0
      then (Ok error, basicReset true (set_validatorDepth Z.pred st2))
      else (Ok error, set_validatorDepth Z.pred st2)
  | (Exn e, st2) => (Exn e, st2)
  end.
Proof.
  intros Hd Hf. unfold validator, when. unfold_monad. cbv beta. rewrite Hd. cbn [Z.eqb].
  cbv beta iota zeta. rewrite Hf. cbv beta iota zeta.
  destruct (sch v _) as [[error|e] st2]; [|reflexivity].
  cbn [validatorDepth set_validatorDepth].
  now destruct (Z.eqb (Z.pred (validatorDepth st2)) 0).
Qed.

Lemma inspect_exn (d : value -> M value) v st e st' :
  d v st = (Exn e, st') -> inspect d v st = (Exn e, st').
Proof. intros H. unfold inspect, bind. now rewrite H. Qed.

(** ** Literals *)

Lemma strict_neq_prim_NaN (v : value) : strict_neq_prim v PNaN = true.
Proof. destruct v as [p| | | | | |]; try reflexivity; destruct p; reflexivity. Qed.

(** C10: against the literal schema [NaN] every value, [NaN] included, is in
    error: [doInspect] answers [true] in any state, and so does a top-level
    call on a fresh instance. *)
Theorem C10_nan_literal_rejects_every_value (v : value) :
  (forall st, doInspect (SLit PNaN) v st = (Ok jtrue, st)) /\
  (forall n, fst (nv v (SLit PNaN) (createInstance n)) = Ok jtrue) /\
  fst (nv (VPrim PNaN) (SLit PNaN) (createInstance 0)) = Ok jtrue.
Proof.
  split; [|split].
  - intros st. simpl. unfold ret. now rewrite strict_neq_prim_NaN.
  - intros n. unfold nv, validator, inspect_schema, inspect. simpl.
    unfold_monad. simpl. now rewrite strict_neq_prim_NaN.
  - reflexivity.
Qed.

(** ** The example of the specification *)

Definition dragon_value : value :=
  VObj [(KStr "type", VPrim (PStr "dragon"));
        (KStr "position", VArr [Some (VPrim (PNum 1)); Some (VPrim (PStr "x"))])].

(** [{ type: v => v !== 'dragon', position: [() => false, () => false] }] *)
Definition dragon_schema : schema :=
  SObj [(KStr "type",
         SFun 0 (fun v _ => Ret (VPrim (PBool (strict_neq_prim v (PStr "dragon"))))));
        (KStr "position",
         SArr [Some (SFun 1 (fun _ _ => Ret jfalse));
               Some (SFun 2 (fun _ _ => Ret jfalse))])].

(** C4, as stated, fails: the call does not return a truthy error whose
    path is [['position', 1]]. *)
Lemma C4_dragon_counterexample :
  ~ (exists r st',
        nv dragon_value dragon_schema (createInstance 0) = (Ok r, st') /\
        truthy r = true /\
        fst (errorPath_ st') = Ok (Some [PKey (KStr "position"); PIdx 1])).
Proof.
  intros (r & st' & H & Ht & _).
  vm_compute in H. injection H as <- _. discriminate Ht.
Qed.

(** C4, amended: the value of the example is valid for the schema of the
    example; the call returns [false] and [errorPath()] is then [null]. *)
Theorem C4_dragon_is_valid :
  fst (nv dragon_value dragon_schema (createInstance 0)) = Ok jfalse /\
  fst (errorPath_ (snd (nv dragon_value dragon_schema (createInstance 0))))
  = Ok None.
Proof. split; reflexivity. Qed.

(** ** Malformed array schemas *)

Section ArraySchema.

(** The elements of an array schema as values; a hole is [None]. *)
Definition item_values (items : list (option schema)) : list (option value) :=
  map (option_map schema_value) items.

(** The end-of-regular marker: [nv.end], or a hole standing for it. *)
Definition is_marker (o : option value) : bool :=
  match o with
  | None => true
  | Some (VPrim (PSym id)) => Nat.eqb id symbols.end_
  | Some _ => false
  end.
Definition is_callback (o : option value) : bool :=
  match o with Some v => matchers.function v | None => false end.
Definition is_override (o : option value) : bool :=
  match o with
  | Some v => negb (is_marker o) && negb (matchers.function v) && truthy v
  | None => false
  end.
Definition is_falsy_override (o : option value) : bool :=
  match o with
  | Some v => negb (is_marker o) && negb (matchers.function v) && negb (truthy v)
  | None => false
  end.

(** The number of regular elements: those before the first marker. *)
Fixpoint regular_length (l : list (option value)) : nat :=
  match l with
  | o :: r => if is_marker o then 0 else S (regular_length r)
  | [] => 0
  end.

Definition after_marker (l : list (option value)) : list (option value) :=
  skipn (regular_length l + 1) l.

Definition count (f : option value -> bool) (l : list (option value)) : nat :=
  List.length (filter f l).

(** The malformations of an array schema: after the marker, more than one
    callback, more than one override value, another marker, a falsy
    override, or more than two elements. *)
Definition malformed (items : list (option schema)) : bool :=
  let rest := after_marker (item_values items) in
  Nat.ltb 1 (count is_callback rest)
  || Nat.ltb 1 (count is_override rest)
  || Nat.ltb 0 (count is_marker rest)
  || Nat.ltb 0 (count is_falsy_override rest)
  || Nat.ltb 2 (List.length rest).

Definition node_values (nodes : list (option node)) : list (option value) :=
  map (option_map node_value) nodes.

Definition taken (o : option node) : nat :=
  match o with Some _ => 1 | None => 0 end.

Lemma is_end_marker (n : node) :
  is_end (Some n) = is_marker (Some (node_value n)).
Proof. simpl. destruct (node_value n) as [[]| | | | | |]; reflexivity. Qed.

Lemma find_endIndex_regular nodes :
  find_endIndex nodes = regular_length (node_values nodes).
Proof.
  induction nodes as [|[n|] r IH]; [reflexivity| |reflexivity].
  cbn [find_endIndex node_values map regular_length option_map].
  rewrite is_end_marker. fold (node_values r).
  destruct (is_marker (Some (node_value n))); [reflexivity | now rewrite IH].
Qed.

Lemma node_values_skipn k nodes :
  node_values (skipn k nodes) = skipn k (node_values nodes).
Proof. unfold node_values. now rewrite skipn_map. Qed.

Definition counts_ok (rest : list (option value)) (f t : option node) : Prop :=
  count is_marker rest = 0 /\
  count is_falsy_override rest = 0 /\
  count is_callback rest + taken f <= 1 /\
  count is_override rest + taken t <= 1.

(** When the loop over the elements after the marker goes through, they
    hold no marker and no falsy value, and, together with what the loop
    had found before, at most one callback and one override; when it does
    not, the session has been reset. *)
Lemma after_end_post rest : forall f t st,
  post (after_end rest f t) st (fun o st' =>
    match o with
    | Ok _ => st' = st /\ counts_ok (node_values rest) f t
    | Exn _ => st' = reset true st
    end).
Proof.
  unfold counts_ok, count.
  induction rest as [|o rest IH]; intros f t st; cbn [after_end].
  - wp. split; [reflexivity|]. simpl. destruct f, t; simpl; lia.
  - destruct o as [n|]; [|now wp].
    rewrite is_end_marker.
    cbn [node_values map option_map filter]. fold (node_values rest).
    destruct (is_marker (Some (node_value n))) eqn:Em; [now wp|].
    unfold is_callback at 1, is_override at 1, is_falsy_override at 1.
    rewrite Em. cbn [negb andb].
    destruct (matchers.function (node_value n)) eqn:Ef; cbn [negb andb].
    + destruct f; [now wp|].
      eapply post_weaken; [apply IH|].
      intros [r|e] st'; simpl; intuition lia.
    + destruct (truthy (node_value n)) eqn:Et; cbn [negb andb]; [|now wp].
      destruct t; [now wp|].
      eapply post_weaken; [apply IH|].
      intros [r|e] st'; simpl; intuition lia.
Qed.

Lemma validateArraySchema_post nodes st :
  post (validateArraySchema nodes) st (fun o st' =>
    match o with
    | Ok r =>
        st' = st /\ fst (fst r) = find_endIndex nodes /\
        List.length nodes <= find_endIndex nodes + 3 /\
        counts_ok (after_marker (node_values nodes)) None None
    | Exn _ => st' = reset true st
    end).
Proof.
  unfold validateArraySchema.
  assert (Hrest : post
    (when (Nat.ltb (find_endIndex nodes + 3) (List.length nodes))
       (resetAndThrow "Found more than 2 elements after the end-of-array marker") ;;;
     ft <- after_end (skipn (find_endIndex nodes + 1) nodes) None None ;;
     ret (find_endIndex nodes, fst ft, node_value_opt (snd ft))) st
    (fun o st' =>
       match o with
       | Ok r =>
           st' = st /\ fst (fst r) = find_endIndex nodes /\
           List.length nodes <= find_endIndex nodes + 3 /\
           counts_ok (after_marker (node_values nodes)) None None
       | Exn _ => st' = reset true st
       end)).
  { wp. destruct (Nat.ltb _ _) eqn:El; [now wp|].
    apply Nat.ltb_ge in El. wp.
    eapply post_weaken; [apply after_end_post|].
    intros [ft|e] st' H; [|exact H]. destruct H as [-> H]. wp.
    repeat split; auto.
    all: unfold after_marker; rewrite <- find_endIndex_regular, <- node_values_skipn;
      apply H. }
  apply post_bind.
  destruct (find misplaced_in_array nodes) as [o|]; [|apply post_ret; exact Hrest].
  destruct (node_value_opt o) as [p| | | | | |]; try (apply post_ret; exact Hrest).
  destruct p; try (apply post_ret; exact Hrest). now wp.
Qed.

Lemma validateArraySchema_malformed nodes st :
  (let rest := after_marker (node_values nodes) in
   Nat.ltb 1 (count is_callback rest)
   || Nat.ltb 1 (count is_override rest)
   || Nat.ltb 0 (count is_marker rest)
   || Nat.ltb 0 (count is_falsy_override rest)
   || Nat.ltb 2 (List.length rest)) = true ->
  exists e, validateArraySchema nodes st = (Exn e, reset true st).
Proof.
  intros Hm.
  destruct (validateArraySchema nodes st) as [[r|e] st'] eqn:E;
    apply (post_elim _ _ _ _ _ (validateArraySchema_post nodes st)) in E.
  - exfalso. destruct E as (_ & _ & Hl & H1 & H2 & H3 & H4).
    assert (Hl' : List.length (after_marker (node_values nodes)) <= 2).
    { unfold after_marker. rewrite length_skipn. unfold node_values.
      rewrite length_map, <- find_endIndex_regular. 
      fold (node_values nodes). lia. }
    cbv zeta in Hm. simpl in H3, H4.
    repeat rewrite orb_true_iff in Hm. rewrite !Nat.ltb_lt in Hm. lia.
  - exists e. now rewrite E.
Qed.

(** The nodes that [doInspect] hands to [inspectArray]. *)
Definition array_nodes (items : list (option schema)) : list (option node) :=
  map (fun o => match o with
                | Some sub =>
                    Some (mkNode (schema_value sub) (inspect (doInspect sub)))
                | None => None
                end) items.

Lemma node_values_array_nodes items :
  node_values (array_nodes items) = item_values items.
Proof.
  unfold node_values, array_nodes, item_values. rewrite map_map.
  apply map_ext. now intros [sub|].
Qed.

Lemma inspectArray_malformed items v st :
  malformed items = true ->
  exists e, inspectArray (array_nodes items) v st = (Exn e, reset true st).
Proof.
  intros Hm. unfold malformed in Hm. rewrite <- node_values_array_nodes in Hm.
  destruct (validateArraySchema_malformed _ st Hm) as [e He].
  exists e. unfold inspectArray, bind. now rewrite He.
Qed.

End ArraySchema.

(** C7: a malformed array schema (after the end-of-regular marker: a second
    callback, a second override, a second marker, a falsy override, or more
    than two elements) makes the validation of any value, array or not,
    raise an exception that resets the session, instead of returning a
    result. *)
Theorem C7_malformed_array_schema_throws (items : list (option schema)) (v : value) :
  malformed items = true ->
  (forall st, exists e,
      doInspect (SArr items) v st = (Exn e, reset true (set_funnel (push v) st))) /\
  (forall n, exists e st1,
      nv v (SArr items) (createInstance n) = (Exn e, reset true st1)).
Proof.
  intros Hm. split.
  - intros st.
    destruct (inspectArray_malformed items v (set_funnel (push v) st) Hm) as [e He].
    exists e. change (doInspect (SArr items) v)
      with (inspectDeeper (inspectArray (array_nodes items)) v).
    unfold inspectDeeper, bind, modify. now rewrite He.
  - intros n.
    pose (st1 := set_funnel (push v)
                   (set_validatorDepth Z.succ (set_started true (createInstance n)))).
    destruct (inspectArray_malformed items v st1 Hm) as [e He].
    exists e, st1. unfold nv. rewrite validator_top by reflexivity.
    unfold inspect_schema. erewrite inspect_exn; [reflexivity|].
    change (doInspect (SArr items) v)
      with (inspectDeeper (inspectArray (array_nodes items)) v).
    unfold inspectDeeper, bind, modify. fold st1. now rewrite He.
Qed.

(** C7 applies to [[nv.end, f, g]] with two callbacks [f] and [g]. *)
Lemma C7_malformed_array_schema_witness :
  malformed [Some (SLit (PSym symbols.end_));
             Some (SFun 0 (fun _ _ => Ret jfalse));
             Some (SFun 1 (fun _ _ => Ret jfalse))] = true /\
  exists e st1,
    nv (VPrim PNull)
       (SArr [Some (SLit (PSym symbols.end_));
              Some (SFun 0 (fun _ _ => Ret jfalse));
              Some (SFun 1 (fun _ _ => Ret jfalse))])
       (createInstance 0) = (Exn e, reset true st1).
Proof.
  split; [reflexivity|].
  apply (C7_malformed_array_schema_throws _ (VPrim PNull)); reflexivity.
Defined.

(** ** Matchers called with a function *)

(** C6, as stated, fails outside of validation: on a fresh instance
    [nv.function(() => 123)] does not call its argument and raises nothing,
    it applies the predicate to the function itself. *)
Lemma C6_outside_validation_counterexample :
  fst (exec (Matcher (builtin matchers.function) "function"
               (OneArg (VFun 7) (Ret (VPrim (PNum 123)))) Ret)
            (createInstance 0))
  = Ok jtrue /\
  enhanceMatcher (fun v => ret (VPrim (PBool (matchers.function v)))) "function"
    (OneArg (VFun 7) (ret (VPrim (PNum 123)))) (createInstance 0)
  = (Ok jtrue, createInstance 0) /\
  ~ (exists e st',
        enhanceMatcher (fun v => ret (VPrim (PBool (matchers.function v))))
          "function" (OneArg (VFun 7) (ret (VPrim (PNum 123)))) (createInstance 0)
        = (Exn e, st')).
Proof.
  split; [reflexivity|]. split; [reflexivity|].
  intros (e & st' & H). discriminate H.
Qed.

(** C6, amended: while a value is under validation ([values] is not empty),
    a matcher called with a function [f] other than the current value runs
    [f] with [safeDepth] incremented, decrements [safeDepth] again whatever
    [f] did, and then applies the predicate to what the returned Proxy
    wraps; when [f] returned anything but such a Proxy, it resets the
    session and throws. *)
Theorem C6_matcher_called_with_function
  (matcher : value -> M value) (name : string) (id : nat) (f : M value) (st : state) :
  values st <> [] ->
  currentValue st <> VFun id ->
  enhanceMatcher matcher name (OneArg (VFun id) f) st =
  match f (set_safeDepth Z.succ st) with
  | (Ok (VWrap u), st') => matcher u (set_safeDepth Z.pred st')
  | (Ok _, st') => (Exn (Err UNRETURNED), reset true (set_safeDepth Z.pred st'))
  | (Exn e, st') => (Exn e, set_safeDepth Z.pred st')
  end.
Proof.
  intros Hv Hc. unfold enhanceMatcher.
  assert (E1 : Nat.ltb 0 (List.length (values st)) = true).
  { destruct (values st); [congruence | reflexivity]. }
  assert (E2 : differs_from_function (currentValue st) (VFun id) = true).
  { unfold differs_from_function. destruct (currentValue st); try reflexivity.
    destruct (Nat.eqb_spec id0 id); [congruence | reflexivity]. }
  rewrite E1, E2. cbn [matchers.function andb].
  destruct (f (set_safeDepth Z.succ st)) as [[v|e] st']; [|reflexivity].
  destruct v; reflexivity.
Qed.

(** C6 on an instance validating [1]: [f] returning the wrapped [2] gives
    the predicate applied to [2]. *)
Lemma C6_matcher_called_with_function_witness :
  enhanceMatcher (fun v => ret (matchers.get v)) "get"
    (OneArg (VFun 7) (ret (VWrap (VPrim (PNum 2)))))
    (set_values (push (VPrim (PNum 1))) (createInstance 0))
  = (Ok (VPrim (PNum 2)), set_values (push (VPrim (PNum 1))) (createInstance 0)).
Proof.
  rewrite (C6_matcher_called_with_function _ "get" 7
             (ret (VWrap (VPrim (PNum 2))))
             (set_values (push (VPrim (PNum 1))) (createInstance 0))).
  - reflexivity.
  - discriminate.
  - discriminate.
Defined.

(** ** Safe navigation *)

(** [root().a.b.c] *)
Definition root_a_b_c : prog :=
  Root (fun r =>
  js_get r (KStr "a") (fun a =>
  js_get a (KStr "b") (fun b =>
  js_get b (KStr "c") Ret))).

(** [{ x: () => nv.get(() => nv.root().a.b.c) === undefined && 'undefined' }] *)
Definition probe_a_b_c : schema :=
  SObj [(KStr "x",
         SFun 0 (fun _ _ =>
           Matcher get_matcher "get" (OneArg (VFun 1) root_a_b_c) (fun r =>
           Ret (if matchers.undefined r then VPrim (PStr "undefined") else jfalse))))].

(** C5: the [get] trap of a Proxy of safe navigation never raises and
    returns a Proxy; when the wrapped value lacks the member, the new Proxy
    wraps [undefined], and so does every member of that one.
    [get(() => root().a.b.c)] on [{}] is [undefined].  In safe mode [up]
    still throws when it is asked to go above the outermost container. *)
Theorem C5_safe_navigation_never_raises_on_missing_member :
  (forall u property st,
      exists x, getter u property st = (Ok (VWrap x), st) /\
                (hasProperty u (resolve_property property st) = false ->
                 x = undefined)) /\
  (forall property st,
      getter undefined property st = (Ok (VWrap undefined), st)) /\
  unwrap (VWrap undefined) = undefined /\
  (forall n, fst (nv (VObj []) probe_a_b_c (createInstance n))
             = Ok (VPrim (PStr "undefined"))) /\
  (forall levels st,
      (0 < safeDepth st)%Z ->
      (Z.of_nat (List.length (funnel st)) <= levels)%Z ->
      up levels st
      = (Exn (Err "up() call navigates above any object or array"), reset true st)).
Proof.
  split; [|split; [|split; [reflexivity|split; [reflexivity|]]]].
  - intros u property st. unfold getter. eexists. split; [reflexivity|].
    intros H. unfold valid. rewrite H. now rewrite andb_false_r.
  - intros property st. unfold getter, valid.
    replace (hasProperty undefined (resolve_property property st)) with false.
    + now rewrite andb_false_r.
    + unfold hasProperty. now destruct (to_key _).
  - intros levels st _ H. unfold up. unfold_monad.
    apply Z.leb_le in H. now rewrite H.
Qed.

(** C5 in safe mode, directly under the top-level value: [up(0)] throws. *)
Lemma C5_safe_navigation_witness :
  up 0 (set_safeDepth Z.succ (createInstance 0))
  = (Exn (Err "up() call navigates above any object or array"),
     reset true (set_safeDepth Z.succ (createInstance 0))).
Proof.
  apply (proj2 (proj2 (proj2 (proj2
           C5_safe_navigation_never_raises_on_missing_member)))).
  - reflexivity.
  - simpl. lia.
Defined.

(** ** Induction over schemas and callback programs *)

Section SchemaProgInduction.
Variables (Ps : schema -> Prop) (Pp : prog -> Prop).

Definition item_holds (o : option schema) : Prop :=
  match o with Some s => Ps s | None => True end.
Definition args_hold (a : args prog) : Prop :=
  match a with OneArg _ call => Pp call | _ => True end.

Hypothesis HFun : forall id body, (forall v k, Pp (body v k)) -> Ps (SFun id body).
Hypothesis HObj : forall props, Forall (fun e => Ps (snd e)) props -> Ps (SObj props).
Hypothesis HArr : forall items, Forall item_holds items -> Ps (SArr items).
Hypothesis HLit : forall p, Ps (SLit p).
Hypothesis HRet : forall v, Pp (Ret v).
Hypothesis HThrow : forall e, Pp (Throw e).
Hypothesis HNv1 : forall s k, Ps s -> (forall r, Pp (k r)) -> Pp (Nv1 s k).
Hypothesis HNv2 : forall v s k, Ps s -> (forall r, Pp (k r)) -> Pp (Nv2 v s k).
Hypothesis HTry : forall body handler k,
  Pp body -> (forall e, Pp (handler e)) -> (forall v, Pp (k v)) ->
  Pp (TryCatch body handler k).
Hypothesis HRoot : forall k, (forall r, Pp (k r)) -> Pp (Root k).
Hypothesis HUp : forall levels k, (forall r, Pp (k r)) -> Pp (Up levels k).
Hypothesis HValue : forall k, (forall r, Pp (k r)) -> Pp (Value k).
Hypothesis HKey : forall k, (forall r, Pp (k r)) -> Pp (Key k).
Hypothesis HIndex : forall k, (forall r, Pp (k r)) -> Pp (Index k).
Hypothesis HPath : forall k, (forall r, Pp (k r)) -> Pp (Path k).
Hypothesis HErrorPath : forall k, (forall r, Pp (k r)) -> Pp (ErrorPath k).
Hypothesis HMatcher : forall matcher name a k,
  (forall v, Pp (matcher v)) -> args_hold a -> (forall r, Pp (k r)) ->
  Pp (Matcher matcher name a k).
Hypothesis HProxyGet : forall u property k,
  (forall r, Pp (k r)) -> Pp (ProxyGet u property k).
Hypothesis HProxyToPrimitive : forall u k,
  (forall r, Pp (k r)) -> Pp (ProxyToPrimitive u k).

Fixpoint schema_holds (s : schema) : Ps s
with prog_holds (p : prog) : Pp p.
Proof.
  - destruct s as [id body|props|items|p].
    + apply HFun. intros v k. apply prog_holds.
    + apply HObj. induction props as [|[k sub] r IH]; constructor.
      * apply schema_holds.
      * exact IH.
    + apply HArr. induction items as [|[sub|] r IH]; constructor.
      * apply schema_holds.
      * exact IH.
      * exact I.
      * exact IH.
    + apply HLit.
  - destruct p.
    + apply HRet.
    + apply HThrow.
    + apply HNv1; [apply schema_holds | intros; apply prog_holds].
    + apply HNv2; [apply schema_holds | intros; apply prog_holds].
    + apply HTry; [apply prog_holds | intros; apply prog_holds ..].
    + apply HRoot; intros; apply prog_holds.
    + apply HUp; intros; apply prog_holds.
    + apply HValue; intros; apply prog_holds.
    + apply HKey; intros; apply prog_holds.
    + apply HIndex; intros; apply prog_holds.
    + apply HPath; intros; apply prog_holds.
    + apply HErrorPath; intros; apply prog_holds.
    + apply HMatcher; [intros; apply prog_holds | | intros; apply prog_holds].
      destruct a; simpl; [exact I | apply prog_holds | exact I].
    + apply HProxyGet; intros; apply prog_holds.
    + apply HProxyToPrimitive; intros; apply prog_holds.
Qed.

Lemma schema_prog_ind : (forall s, Ps s) /\ (forall p, Pp p).
Proof. split; [exact schema_holds | exact prog_holds]. Qed.
End SchemaProgInduction.

(** ** The session invariants *)

(** Every observation made during a callback: [funnel] and [path] have the
    same height. *)
Definition balanced (o : nat * nat * nat) : Prop := snd (fst o) = snd o.
Definition LogOk (st : state) : Prop := Forall balanced (observed st).

(** A session in progress, where a schema is about to be inspected or a
    callback runs. *)
Definition Running (st : state) : Prop :=
  finished st = false /\ (1 <= validatorDepth st)%Z /\
  List.length (funnel st) = List.length (path st) /\ LogOk st.

(** A session in progress, inside [inspectObject] or [inspectArray]: the
    container is on [funnel], the key of a member is not yet on [path]. *)
Definition Inside (st : state) : Prop :=
  finished st = false /\ (1 <= validatorDepth st)%Z /\
  List.length (funnel st) = S (List.length (path st)) /\ LogOk st.

(** A session that an exception has ended. *)
Definition Aborted (st : state) : Prop :=
  finished st = true /\ values st = [] /\ funnel st = [] /\ path st = [] /\
  validatorDepth st = 0%Z /\ errorPath st = None /\ LogOk st.

(** The stacks and the depth are those of [st]. *)
Definition same (st st' : state) : Prop :=
  values st' = values st /\ funnel st' = funnel st /\ path st' = path st /\
  validatorDepth st' = validatorDepth st.

Definition verdict (r : value) : Prop := r = jfalse \/ truthy r = true.

(** What the engine guarantees for a computation started in a state that
    satisfies [Pre]: a normal return hands back a verdict, with the stacks as
    they were; an exception leaves the session aborted. *)
Definition engine_post (Pre : state -> Prop) (st : state)
  (o : result value) (st' : state) : Prop :=
  match o with
  | Ok r => Pre st' /\ same st st' /\ verdict r
  | Exn _ => Aborted st'
  end.

Definition inspector_ok (d : value -> M value) : Prop :=
  forall v st, Running st -> post (d v) st (engine_post Running st).

(** What a callback's program guarantees. *)
Definition callback_post {A} (st : state) (o : result A) (st' : state) : Prop :=
  (Running st' /\ same st st') \/ Aborted st'.

Definition program_ok {A} (m : M A) : Prop :=
  (forall st, Running st -> post m st (callback_post st)) /\
  (forall st, Aborted st -> post m st (fun _ st' => Aborted st')).

Lemma same_refl st : same st st.
Proof. repeat split. Qed.

Lemma same_trans st1 st2 st3 : same st1 st2 -> same st2 st3 -> same st1 st3.
Proof. unfold same. intuition congruence. Qed.

Lemma reset_Aborted st : LogOk st -> Aborted (reset true st).
Proof. intros H. repeat split. exact H. Qed.

Lemma Running_LogOk st : Running st -> LogOk st.
Proof. now intros (_ & _ & _ & H). Qed.
Lemma Inside_LogOk st : Inside st -> LogOk st.
Proof. now intros (_ & _ & _ & H). Qed.
Lemma Aborted_LogOk st : Aborted st -> LogOk st.
Proof. now intros (_ & _ & _ & _ & _ & _ & H). Qed.

Lemma verdict_or_else r : verdict (or_else r jfalse).
Proof. unfold verdict, or_else. destruct (truthy r) eqn:E; auto. Qed.

Lemma verdict_or_true r : verdict (or_else r jtrue).
Proof. unfold verdict, or_else. destruct (truthy r) eqn:E; auto. Qed.

Lemma pop_push {A} (x : A) l : pop (push x l) = l.
Proof. unfold pop, push. apply removelast_last. Qed.

Lemma length_push {A} (x : A) l : List.length (push x l) = S (List.length l).
Proof. unfold push. rewrite length_app. simpl. lia. Qed.

(** [run]: a callback whose program keeps the invariants is inspected within
    the guarantees of the engine. *)
Lemma run_ok (callback : value -> option pkey -> M value) :
  (forall v k, program_ok (callback v k)) -> inspector_ok (run callback).
Proof.
  intros Hc v st HR. apply post_intro. intros o st' E. unfold run in E.
  set (st1 := set_values (push v) st) in *.
  assert (HR1 : Running st1) by exact HR.
  pose proof (proj1 (Hc v (currentKey st1)) st1 HR1) as Hp.
  destruct (callback v (currentKey st1) st1) as [[r|e] st2] eqn:Ec;
    unfold post in Hp; rewrite Ec in Hp; cbn [fst snd] in Hp.
  - destruct (finished st2) eqn:Ef.
    + injection E as <- <-. destruct Hp as [[(Hf & _) _]|Ha]; [congruence|exact Ha].
    + injection E as <- <-.
      destruct Hp as [[HR2 (Hv & Hfu & Hpa & Hd)]|Ha];
        [|destruct Ha as (Hf & _); congruence].
      split; [exact HR2|]. split; [|apply verdict_or_else].
      repeat split; cbn; try assumption.
      rewrite Hv. apply (pop_push v (values st)).
  - destruct (finished st2) eqn:Ef; injection E as <- <-.
    + destruct Hp as [[(Hf & _) _]|Ha]; [congruence|exact Ha].
    + destruct Hp as [[HR2 _]|Ha]; [|destruct Ha as (Hf & _); congruence].
      apply reset_Aborted. now apply Running_LogOk.
Qed.

(** [inspect] keeps the guarantees of [doInspect]: it touches [errorPath]
    only. *)
Lemma inspect_ok (d : value -> M value) : inspector_ok d -> inspector_ok (inspect d).
Proof.
  intros Hd v st HR. unfold inspect. wp.
  eapply post_weaken; [apply (Hd v st HR)|].
  intros [r|e] st1 H; [|exact H]. destruct H as (HR1 & Hs & Hv).
  apply post_bind. destruct (truthy r).
  - apply post_intro. intros o st' E.
    destruct (errorPath st1); injection E as <- <-; apply post_ret;
      (split; [exact HR1 | split; [exact Hs | exact Hv]]).
  - wp. split; [exact HR1 | split; [exact Hs | exact Hv]].
Qed.

(** [inspectKey] brings a member under inspection with its key on [path],
    and takes the key off again. *)
Lemma inspectKey_ok (n : node) v k st :
  inspector_ok (node_inspect n) -> Inside st ->
  post (inspectKey n v k) st (engine_post Inside st).
Proof.
  intros Hn (Hf & Hd & Hl & Hlog). unfold inspectKey. wp.
  assert (HR : Running (set_path (push k) st)).
  { repeat split; try assumption. cbn. rewrite length_push. exact Hl. }
  eapply post_weaken; [apply (Hn v _ HR)|].
  intros [r|e] st1 H; [|exact H]. destruct H as (HR1 & Hs & Hv). wp.
  destruct HR1 as (Hf1 & Hd1 & Hl1 & Hlog1).
  destruct Hs as (Hsv & Hsf & Hsp & Hsd). cbn in Hsp, Hsv, Hsf, Hsd.
  repeat split; cbn; try assumption.
  - rewrite Hsp, pop_push, Hsf. exact Hl.
  - rewrite Hsp. apply pop_push.
Qed.

(** Loops: an invariant of the body is an invariant of the loop, and what
    leaves the loop early is what the body returned. *)
Lemma for_of_post {A} (l : list A) (body : A -> M (option value))
  (Inv Abort : state -> Prop) (R : value -> Prop) :
  (forall x st, In x l -> Inv st ->
     post (body x) st (fun o st' =>
       match o with
       | Ok r => Inv st' /\ (forall e, r = Some e -> R e)
       | Exn _ => Abort st'
       end)) ->
  forall st, Inv st ->
    post (for_of l body) st (fun o st' =>
      match o with
      | Ok r => Inv st' /\ (forall e, r = Some e -> R e)
      | Exn _ => Abort st'
      end).
Proof.
  induction l as [|x l IH]; intros Hb st HI; cbn [for_of].
  - wp. split; [exact HI | discriminate].
  - wp. eapply post_weaken; [apply (Hb x st (or_introl eq_refl) HI)|].
    intros [[e|]|e] st1 H; [| |exact H].
    + wp. exact H.
    + apply IH; [|apply H]. intros y st2 Hy. apply Hb. now right.
Qed.

Lemma In_insert_index {A} (e x : N * (key * A)) l :
  In x (insert_index e l) -> x = e \/ In x l.
Proof.
  induction l as [|y l IH]; simpl.
  - intuition.
  - destruct (N.leb (fst e) (fst y)); simpl; intuition.
Qed.

Lemma In_index_entries {A} (x : N * (key * A)) l :
  In x (index_entries l) -> In (snd x) l.
Proof.
  induction l as [|[[s|i] a] l IH]; simpl; [tauto| |auto].
  destruct (array_index s); [|auto].
  intros H. apply In_insert_index in H. destruct H as [->|H]; auto.
Qed.

Lemma In_allEntries {A} (e : key * A) l : In e (allEntries l) -> In e l.
Proof.
  unfold allEntries, Object_entries, symbol_entries. rewrite !in_app_iff.
  intros [[H|H]|H].
  - apply in_map_iff in H. destruct H as (x & <- & H). now apply In_index_entries.
  - now apply filter_In in H.
  - now apply filter_In in H.
Qed.

Lemma lookup_In {A} k (l : list (key * A)) a :
  lookup k l = Some a -> exists k', In (k', a) l.
Proof.
  induction l as [|[k' b] l IH]; simpl; [discriminate|].
  destruct (key_eqb k' k).
  - intros [= <-]. eauto.
  - intros H. destruct (IH H) as [k2 H2]. eauto.
Qed.

Lemma validateObjectSchema_post schema st :
  post (validateObjectSchema schema) st (fun o st' =>
    match o with
    | Ok r => st' = st /\
              match fst r with
              | Some c => exists k, In (k, c) schema
              | None => True
              end
    | Exn _ => st' = reset true st
    end).
Proof.
  unfold validateObjectSchema. wp.
  destruct (_ && _); [now wp|]. wp.
  destruct (_ && _); [now wp|]. wp.
  destruct (find _ _) as [[[s|id] n]|]; wp; try reflexivity.
  all: split; [reflexivity|]; cbn [fst].
  all: destruct (matchers.undefined _); [exact I|].
  all: destruct (lookup _ schema) as [c|] eqn:E; [|exact I].
  all: eapply lookup_In; eassumption.
Qed.

Lemma member_post v k st :
  post (member v k) st (fun o st' => st' = st /\ exists x, o = Ok x).
Proof. destruct v; cbn; unfold post; cbn; eauto. Qed.

Definition nodes_ok (schema : list (key * node)) : Prop :=
  forall k n, In (k, n) schema -> inspector_ok (node_inspect n).

Lemma inspectObject_ok schema v st :
  nodes_ok schema -> Inside st ->
  post (inspectObject schema v) st (engine_post Inside st).
Proof.
  intros Hn HI. unfold inspectObject. wp.
  eapply post_weaken; [apply validateObjectSchema_post|].
  intros [[catchOther shapeError]|e] st1 H.
  2:{ subst. apply reset_Aborted. now apply Inside_LogOk. }
  destruct H as [-> Hc]. cbn [fst] in Hc.
  destruct (negb (matchers.object v)).
  { wp. split; [exact HI|]. split; [apply same_refl | apply verdict_or_true]. }
  pose (Inv := fun st' => Inside st' /\ same st st').
  assert (H0 : Inv st) by (split; [exact HI | apply same_refl]).
  wp. eapply post_weaken.
  { apply (for_of_post _ _ Inv Aborted (fun e => truthy e = true)); [|exact H0].
    intros [k sub] st1 Hin [HI1 Hs1].
    destruct (reserved k); [wp; split; [now split | discriminate]|].
    wp. eapply post_weaken; [apply member_post|].
    intros o st2 [-> [x ->]]. wp.
    eapply post_weaken.
    { apply inspectKey_ok; [|exact HI1].
      apply (Hn k). now apply In_allEntries. }
    intros [r|e] st2 H; [|exact H]. destruct H as (HI2 & Hs2 & Hv). wp.
    split; [split; [exact HI2 | eapply same_trans; eassumption]|].
    intros e. destruct (truthy r) eqn:Et; [|discriminate]. now intros [= <-]. }
  intros [[e|]|e] st1 H; [| |exact H].
  { destruct H as [[HI1 Hs1] He]. wp.
    split; [exact HI1|]. split; [exact Hs1|]. right. now apply He. }
  destruct H as [H1 _]. wp. eapply post_weaken.
  { apply (for_of_post _ _ Inv Aborted (fun e => truthy e = true)); [|exact H1].
    intros [k subvalue] st2 Hin [HI2 Hs2].
    destruct (negb (has_key k schema)); [|wp; split; [now split | discriminate]].
    destruct catchOther as [c|].
    - wp. eapply post_weaken.
      { apply inspectKey_ok; [|exact HI2]. destruct Hc as [k' Hc]. now apply (Hn k'). }
      intros [r|e] st3 H; [|exact H]. destruct H as (HI3 & Hs3 & Hv). wp.
      split; [split; [exact HI3 | eapply same_trans; eassumption]|].
      intros e. destruct (truthy r) eqn:Et; [|discriminate]. now intros [= <-].
    - wp. split; [now split|]. now intros e [= <-]. }
  intros [[e|]|e] st2 H; [| |exact H].
  - destruct H as [[HI2 Hs2] He]. wp.
    split; [exact HI2|]. split; [exact Hs2|]. right. now apply He.
  - destruct H as [[HI2 Hs2] _]. wp.
    split; [exact HI2|]. split; [exact Hs2|]. now left.
Qed.

Lemma after_end_catch rest : forall f t st r st',
  after_end rest f t st = (Ok r, st') ->
  forall c, fst r = Some c -> f = Some c \/ In (Some c) rest.
Proof.
  induction rest as [|o rest IH]; intros f t st r st' H c Hc; cbn [after_end] in H.
  - injection H as <- _. now left.
  - destruct o as [n|]; [|discriminate H].
    destruct (is_end (Some n)); [discriminate H|].
    destruct (matchers.function (node_value n)).
    + destruct f; [discriminate H|].
      destruct (IH _ _ _ _ _ H c Hc) as [[= ->]|Hin]; right; simpl; auto.
    + destruct (truthy (node_value n)); [|discriminate H].
      destruct t; [discriminate H|].
      destruct (IH _ _ _ _ _ H c Hc) as [->|Hin]; [now left | right; simpl; auto].
Qed.

Lemma In_skipn {A} (x : A) k l : In x (skipn k l) -> In x l.
Proof.
  intros H. rewrite <- (firstn_skipn k l). apply in_or_app. now right.
Qed.

Lemma validateArraySchema_catch nodes st r st' :
  validateArraySchema nodes st = (Ok r, st') ->
  forall c, snd (fst r) = Some c -> In (Some c) nodes.
Proof.
  unfold validateArraySchema. intros H c Hc.
  unfold bind at 1 in H.
  destruct (match find misplaced_in_array nodes with _ => _ end st)
    as [[[]|e] st1]; [|discriminate H].
  cbv zeta in H. unfold bind at 1 in H.
  destruct (when _ _ st1) as [[[]|e] st2]; [|discriminate H].
  unfold bind in H.
  destruct (after_end _ None None st2) as [[ft|e] st3] eqn:Ea; [|discriminate H].
  injection H as <- _. cbn [fst snd] in Hc.
  destruct (after_end_catch _ _ _ _ _ _ Ea c Hc) as [Hn|Hin]; [discriminate Hn|].
  eapply In_skipn; eassumption.
Qed.

Definition items_ok (schema : list (option node)) : Prop :=
  forall n, In (Some n) schema -> inspector_ok (node_inspect n).

Lemma schema_at_ok schema index :
  items_ok schema -> inspector_ok (node_inspect (schema_at schema index)).
Proof.
  intros H. unfold schema_at.
  destruct (nth_error schema index) as [[n|]|] eqn:E.
  - apply H. eapply nth_error_In; eassumption.
  - intros v st HR. cbn. wp. repeat split; try apply HR. now left.
  - intros v st HR. cbn. wp. repeat split; try apply HR. now left.
Qed.

Lemma inspectArray_ok schema v st :
  items_ok schema -> Inside st ->
  post (inspectArray schema v) st (engine_post Inside st).
Proof.
  intros Hn HI. unfold inspectArray. apply post_bind.
  apply post_intro. intros o st1 E.
  pose proof (post_elim _ _ _ _ _ (validateArraySchema_post schema st) E) as H.
  destruct o as [[[maxIndex catchOther] shapeError]|e].
  2:{ subst. apply reset_Aborted. now apply Inside_LogOk. }
  destruct H as [-> _].
  assert (Hc : forall c, catchOther = Some c -> inspector_ok (node_inspect c)).
  { intros c ->. apply Hn. eapply validateArraySchema_catch; [exact E | reflexivity]. }
  destruct (negb (matchers.array v)).
  { wp. split; [exact HI|]. split; [apply same_refl | apply verdict_or_true]. }
  pose (Inv := fun st' => Inside st' /\ same st st').
  assert (H0 : Inv st) by (split; [exact HI | apply same_refl]).
  wp. eapply post_weaken.
  { apply (for_of_post _ _ Inv Aborted (fun e => truthy e = true)); [|exact H0].
    intros index st1 Hin [HI1 Hs1]. wp. eapply post_weaken.
    { apply inspectKey_ok; [|exact HI1]. now apply schema_at_ok. }
    intros [r|e] st2 H; [|exact H]. destruct H as (HI2 & Hs2 & Hv). wp.
    split; [split; [exact HI2 | eapply same_trans; eassumption]|].
    intros e. destruct (truthy r) eqn:Et; [|discriminate]. now intros [= <-]. }
  intros [[e|]|e] st1 H; [| |exact H].
  { destruct H as [[HI1 Hs1] He]. wp.
    split; [exact HI1|]. split; [exact Hs1|]. right. now apply He. }
  destruct H as [H1 _]. wp. eapply post_weaken.
  { apply (for_of_post _ _ Inv Aborted (fun e => truthy e = true)); [|exact H1].
    intros index st2 Hin [HI2 Hs2].
    destruct catchOther as [c|].
    - wp. eapply post_weaken.
      { apply inspectKey_ok; [|exact HI2]. now apply Hc. }
      intros [r|e] st3 H; [|exact H]. destruct H as (HI3 & Hs3 & Hv). wp.
      split; [split; [exact HI3 | eapply same_trans; eassumption]|].
      intros e. destruct (truthy r) eqn:Et; [|discriminate]. now intros [= <-].
    - wp. split; [now split|]. now intros e [= <-]. }
  intros [[e|]|e] st2 H; [| |exact H].
  - destruct H as [[HI2 Hs2] He]. wp.
    split; [exact HI2|]. split; [exact Hs2|]. right. now apply He.
  - destruct H as [[HI2 Hs2] _]. wp.
    split; [exact HI2|]. split; [exact Hs2|]. now left.
Qed.

(** [inspectDeeper] puts the container on [funnel] for the time of its
    inspection. *)
Lemma inspectDeeper_ok (inspector : value -> M value) :
  (forall v st, Inside st -> post (inspector v) st (engine_post Inside st)) ->
  inspector_ok (inspectDeeper inspector).
Proof.
  intros Hi v st (Hf & Hd & Hl & Hlog). unfold inspectDeeper. wp.
  assert (HI : Inside (set_funnel (push v) st)).
  { repeat split; try assumption. cbn. rewrite length_push. now rewrite Hl. }
  eapply post_weaken; [apply (Hi v _ HI)|].
  intros [r|e] st1 H; [|exact H]. destruct H as (HI1 & Hs & Hv). wp.
  destruct HI1 as (Hf1 & Hd1 & Hl1 & Hlog1).
  destruct Hs as (Hsv & Hsf & Hsp & Hsd). cbn in Hsp, Hsv, Hsf, Hsd.
  repeat split; cbn; try assumption.
  - rewrite Hsf, pop_push, Hsp. exact Hl.
  - rewrite Hsf. apply pop_push.
Qed.

(** A call of the instance from a callback: the depth is back to what it
    was; on an aborted session the call throws. *)
Lemma validator_ok (value : option value) (sch : JS.value -> M JS.value) :
  inspector_ok sch ->
  (forall st, Running st ->
     post (validator value sch) st (engine_post Running st)) /\
  (forall st, Aborted st ->
     post (validator value sch) st (fun _ st' => Aborted st')).
Proof.
  intros Hs. split.
  - intros st HR. pose proof HR as (Hf & Hd & Hl & Hlog).
    unfold validator. wp.
    destruct (Z.eqb_spec (validatorDepth st) 0) as [E|_]; [lia|]. wp.
    set (st1 := set_validatorDepth Z.succ st).
    assert (HR1 : Running st1).
    { repeat split; try assumption. cbn. lia. }
    assert (Hgo : forall v, post (error <- sch v ;;
                                  modify (set_validatorDepth Z.pred) ;;;
                                  depth <- gets validatorDepth ;;
                                  when (Z.eqb depth 0) (modify (basicReset true)) ;;;
                                  ret error) st1 (engine_post Running st)).
    { intros v. wp. eapply post_weaken; [apply (Hs v st1 HR1)|].
      intros [r|e] st2 H; [|exact H]. destruct H as (HR2 & Hs2 & Hv). wp.
      destruct HR2 as (Hf2 & Hd2 & Hl2 & Hlog2).
      destruct Hs2 as (Hsv & Hsf & Hsp & Hsd). cbn in Hsv, Hsf, Hsp, Hsd.
      cbn [validatorDepth set_validatorDepth].
      destruct (Z.eqb_spec (Z.pred (validatorDepth st2)) 0) as [E|_]; [lia|].
      repeat split; cbn; try assumption; lia. }
    destruct value as [v|].
    + wp_step. apply Hgo.
    + do 4 wp_step. destruct (Nat.eqb _ 0).
      * wp_step. apply reset_Aborted. exact Hlog.
      * wp_step. apply Hgo.
  - intros st HA. pose proof HA as (Hf & Hv & Hfu & Hp & Hd & He & Hlog).
    unfold validator. wp. rewrite Hd. cbn [Z.eqb]. wp. rewrite Hf. wp.
    apply reset_Aborted. exact Hlog.
Qed.

(** *** The interface of the instance, as seen from a callback *)

Lemma program_ok_bind {A B} (m : M A) (f : A -> M B) :
  program_ok m -> (forall a, program_ok (f a)) -> program_ok (bind m f).
Proof.
  intros [Hm1 Hm2] Hf. split; intros st H; wp.
  - eapply post_weaken; [apply (Hm1 st H)|].
    intros [a|e] st1 [[HR Hs]|HA].
    + eapply post_weaken; [apply (proj1 (Hf a) st1 HR)|].
      intros o st2 [[HR2 Hs2]|HA2]; [left | now right].
      split; [exact HR2 | eapply same_trans; eassumption].
    + eapply post_weaken; [apply (proj2 (Hf a) st1 HA)|].
      intros o st2 HA2. now right.
    + left. now split.
    + now right.
  - eapply post_weaken; [apply (Hm2 st H)|].
    intros [a|e] st1 HA; [|exact HA]. apply (proj2 (Hf a) st1 HA).
Qed.

Lemma program_ok_ret {A} (a : A) : program_ok (ret a).
Proof. split; intros st H; wp; [left; split; [exact H | apply same_refl] | exact H]. Qed.

Lemma program_ok_throw {A} e : program_ok (throw (A := A) e).
Proof. split; intros st H; wp; [left; split; [exact H | apply same_refl] | exact H]. Qed.

Lemma program_ok_resetAndThrow {A} msg : program_ok (resetAndThrow (A := A) msg).
Proof.
  split; intros st H; wp.
  - right. apply reset_Aborted. now apply Running_LogOk.
  - apply reset_Aborted. now apply Aborted_LogOk.
Qed.

Lemma program_ok_gets {A} (f : state -> A) : program_ok (gets f).
Proof. split; intros st H; wp; [left; split; [exact H | apply same_refl] | exact H]. Qed.

Lemma program_ok_when b (m : M unit) : program_ok m -> program_ok (when b m).
Proof. intros H. destruct b; [exact H | apply program_ok_ret]. Qed.

Lemma program_ok_wrapIfSafe v : program_ok (wrapIfSafe v).
Proof.
  split; intros st H; unfold post, wrapIfSafe; cbn;
    [left; split; [exact H | apply same_refl] | exact H].
Qed.

Lemma program_ok_root : program_ok root.
Proof.
  unfold root. apply program_ok_bind; [apply program_ok_gets|]. intros f.
  apply program_ok_bind; [|intros _; apply program_ok_wrapIfSafe].
  apply program_ok_when, program_ok_resetAndThrow.
Qed.

Lemma program_ok_up levels : program_ok (up levels).
Proof.
  unfold up. apply program_ok_bind; [apply program_ok_gets|]. intros f.
  apply program_ok_bind; [|intros _; apply program_ok_wrapIfSafe].
  apply program_ok_when, program_ok_resetAndThrow.
Qed.

Lemma program_ok_value : program_ok value_.
Proof.
  unfold value_. apply program_ok_bind; [apply program_ok_gets|]. intros vs.
  apply program_ok_bind; [apply program_ok_when, program_ok_resetAndThrow|].
  intros _. apply program_ok_bind; [apply program_ok_gets|]. intros v.
  apply program_ok_wrapIfSafe.
Qed.

Lemma program_ok_key : program_ok key_.
Proof.
  unfold key_. apply program_ok_bind; [apply program_ok_gets|].
  intros [[n|k]|]; try apply program_ok_resetAndThrow. apply program_ok_ret.
Qed.

Lemma program_ok_index : program_ok index.
Proof.
  unfold index. apply program_ok_bind; [apply program_ok_gets|].
  intros [[n|k]|]; try apply program_ok_resetAndThrow. apply program_ok_ret.
Qed.

Lemma program_ok_path : program_ok path_.
Proof.
  split; intros st H; apply post_intro; intros o st' E; unfold path_ in E;
    (destruct (finished st); [|destruct (negb (started st))]); injection E as <- <-;
    solve [left; split; [exact H | apply same_refl] | exact H].
Qed.

Lemma program_ok_errorPath : program_ok errorPath_.
Proof.
  split; intros st H; apply post_intro; intros o st' E; unfold errorPath_ in E;
    destruct (negb (finished st)); injection E as <- <-;
    solve [left; split; [exact H | apply same_refl] | exact H].
Qed.

Lemma program_ok_getter u property : program_ok (getter u property).
Proof.
  split; intros st H; unfold post, getter; cbn;
    [left; split; [exact H | apply same_refl] | exact H].
Qed.

Lemma program_ok_toPrimitive u : program_ok (toPrimitive u).
Proof.
  split; intros st H; unfold post, toPrimitive; cbn [fst snd].
  - left. split; [|repeat split].
    destruct H as (? & ? & ? & ?). repeat split; assumption.
  - destruct H as (? & ? & ? & ? & ? & ? & ?). repeat split; assumption.
Qed.

Lemma program_ok_validator value sch :
  inspector_ok sch -> program_ok (validator value sch).
Proof.
  intros Hs. destruct (validator_ok value sch Hs) as [H1 H2]. split; [|exact H2].
  intros st HR. eapply post_weaken; [apply (H1 st HR)|].
  intros [r|e] st' H; [left | now right]. now destruct H as (? & ? & _).
Qed.

Lemma program_ok_tryCatch (body : M value) (handler : exn -> M value)
  (k : value -> M value) :
  program_ok body -> (forall e, program_ok (handler e)) ->
  (forall v, program_ok (k v)) ->
  program_ok (fun st => match body st with
                        | (Ok v, st') => k v st'
                        | (Exn e, st') => (v <- handler e ;; k v) st'
                        end).
Proof.
  intros [Hb1 Hb2] Hh Hk.
  assert (Hhk : forall e, program_ok (v <- handler e ;; k v)).
  { intros e. apply program_ok_bind; [apply Hh | apply Hk]. }
  split; intros st H; apply post_intro; intros o st' E.
  - pose proof (Hb1 st H) as Hp. unfold post in Hp.
    destruct (body st) as [[v|e] st1]; cbn [fst snd] in Hp.
    + destruct Hp as [[HR Hs]|HA].
      * destruct (post_elim _ _ _ _ _ (proj1 (Hk v) st1 HR) E) as [[HR2 Hs2]|HA2];
          [left | now right].
        split; [exact HR2 | eapply same_trans; eassumption].
      * right. exact (post_elim _ _ _ _ _ (proj2 (Hk v) st1 HA) E).
    + destruct Hp as [[HR Hs]|HA].
      * destruct (post_elim _ _ _ _ _ (proj1 (Hhk e) st1 HR) E) as [[HR2 Hs2]|HA2];
          [left | now right].
        split; [exact HR2 | eapply same_trans; eassumption].
      * right. exact (post_elim _ _ _ _ _ (proj2 (Hhk e) st1 HA) E).
  - pose proof (Hb2 st H) as Hp. unfold post in Hp.
    destruct (body st) as [[v|e] st1]; cbn [fst snd] in Hp.
    + exact (post_elim _ _ _ _ _ (proj2 (Hk v) st1 Hp) E).
    + exact (post_elim _ _ _ _ _ (proj2 (Hhk e) st1 Hp) E).
Qed.

Lemma Running_safeDepth f st : Running st -> Running (set_safeDepth f st).
Proof. intros (? & ? & ? & ?). repeat split; assumption. Qed.

Lemma Aborted_safeDepth f st : Aborted st -> Aborted (set_safeDepth f st).
Proof. intros (? & ? & ? & ? & ? & ? & ?). repeat split; assumption. Qed.

Lemma callback_post_safeDepth {A} f g st (o o' : result A) st' :
  callback_post (set_safeDepth f st) o st' ->
  callback_post st o' (set_safeDepth g st').
Proof.
  intros [[HR Hs]|HA]; [left | right; now apply Aborted_safeDepth].
  split; [now apply Running_safeDepth | exact Hs].
Qed.

Lemma callback_post_LogOk {A} st (o : result A) st' :
  callback_post st o st' -> LogOk st'.
Proof. intros [[HR _]|HA]; [now apply Running_LogOk | now apply Aborted_LogOk]. Qed.

Lemma callback_post_then {A B} (m : M B) st (o : result A) st1 :
  program_ok m -> callback_post st o st1 -> post m st1 (callback_post st).
Proof.
  intros [H1 H2] [[HR Hs]|HA].
  - eapply post_weaken; [apply (H1 st1 HR)|].
    intros o' st2 [[HR2 Hs2]|HA2]; [left | now right].
    split; [exact HR2 | eapply same_trans; eassumption].
  - eapply post_weaken; [apply (H2 st1 HA)|]. intros o' st2 HA2. now right.
Qed.

Lemma program_ok_enhanceMatcher (matcher : value -> M value) name
  (a : args (M value)) :
  (forall v, program_ok (matcher v)) ->
  match a with OneArg _ call => program_ok call | _ => True end ->
  program_ok (enhanceMatcher matcher name a).
Proof.
  intros Hm Ha. destruct a as [|value call|]; cbn [enhanceMatcher].
  - apply program_ok_bind; [apply program_ok_gets|]. intros vs.
    destruct (Nat.eqb _ 0); [apply program_ok_throw|].
    apply program_ok_bind; [apply program_ok_gets | apply Hm].
  - split; intros st H; apply post_intro; intros o st' E.
    + destruct (_ && _ && _).
      2:{ exact (post_elim _ _ _ _ _ (proj1 (Hm value) st H) E). }
      pose proof (proj1 Ha _ (Running_safeDepth Z.succ st H)) as Hp.
      unfold post in Hp.
      destruct (call (set_safeDepth Z.succ st)) as [[v|e] st1]; cbn [fst snd] in Hp.
      * apply (callback_post_safeDepth _ Z.pred _ _ (Ok v)) in Hp.
        destruct (negb (matchers.object v) || negb (has_unwrap v)).
        -- injection E as <- <-. right. apply reset_Aborted.
           eapply callback_post_LogOk. exact Hp.
        -- exact (post_elim _ _ _ _ _ (callback_post_then _ _ _ _ (Hm _) Hp) E).
      * injection E as <- <-.
        exact (callback_post_safeDepth _ Z.pred _ _ (Exn e) _ Hp).
    + destruct (_ && _ && _).
      2:{ exact (post_elim _ _ _ _ _ (proj2 (Hm value) st H) E). }
      pose proof (proj2 Ha _ (Aborted_safeDepth Z.succ st H)) as Hp.
      unfold post in Hp.
      destruct (call (set_safeDepth Z.succ st)) as [[v|e] st1]; cbn [fst snd] in Hp.
      * apply (Aborted_safeDepth Z.pred) in Hp.
        destruct (negb (matchers.object v) || negb (has_unwrap v)).
        -- injection E as <- <-. apply reset_Aborted. now apply Aborted_LogOk.
        -- exact (post_elim _ _ _ _ _ (proj2 (Hm _) _ Hp) E).
      * injection E as <- <-. now apply Aborted_safeDepth.
  - apply program_ok_throw.
Qed.

Lemma LogOk_observe st :
  LogOk st -> List.length (funnel st) = List.length (path st) -> LogOk (observe st).
Proof.
  intros H E. unfold LogOk, observe. cbn. apply Forall_app. split; [exact H|].
  constructor; [exact E | constructor].
Qed.

Lemma program_ok_observe {A} (m : M A) :
  program_ok m -> program_ok (fun st => m (observe st)).
Proof.
  intros [H1 H2]. split; intros st H.
  - assert (HR : Running (observe st)).
    { destruct H as (? & ? & ? & ?). repeat split; try assumption.
      now apply LogOk_observe. }
    apply (H1 _ HR).
  - assert (HA : Aborted (observe st)).
    { destruct H as (? & Hv & Hf & Hp & ? & ? & ?). repeat split; try assumption.
      apply LogOk_observe; [assumption|]. now rewrite Hf, Hp. }
    apply (H2 _ HA).
Qed.

Definition object_nodes (props : list (key * schema)) : list (key * node) :=
  map (fun '(k, sub) => (k, mkNode (schema_value sub) (inspect (doInspect sub))))
      props.

(** The engine keeps the invariants of the session: inspecting a value
    against any schema, and running any callback's program. *)
Theorem engine_ok :
  (forall s, inspector_ok (doInspect s)) /\ (forall p, program_ok (exec p)).
Proof.
  apply schema_prog_ind.
  - intros id body H v st HR. apply (run_ok _ H v st HR).
  - intros props H.
    change (inspector_ok (inspectDeeper (inspectObject (object_nodes props)))).
    apply inspectDeeper_ok. intros v st HI. apply inspectObject_ok; [|exact HI].
    intros k n Hin. apply in_map_iff in Hin. destruct Hin as ([k' sub] & [= <- <-] & Hin).
    apply inspect_ok. rewrite Forall_forall in H. apply (H _ Hin).
  - intros items H.
    change (inspector_ok (inspectDeeper (inspectArray (array_nodes items)))).
    apply inspectDeeper_ok. intros v st HI. apply inspectArray_ok; [|exact HI].
    intros n Hin. apply in_map_iff in Hin. destruct Hin as ([sub|] & [= <-] & Hin).
    apply inspect_ok. rewrite Forall_forall in H. apply (H _ Hin).
  - intros p v st HR. cbn. wp. split; [exact HR|]. split; [apply same_refl|].
    unfold verdict. destruct (strict_neq_prim v p); auto.
  - intros v. apply (program_ok_observe (ret v)), program_ok_ret.
  - intros e. apply (program_ok_observe (throw e)), program_ok_throw.
  - intros s k Hs Hk.
    apply (program_ok_observe (r <- validator None (inspect (doInspect s)) ;; exec (k r))).
    apply program_ok_bind; [|exact Hk]. apply program_ok_validator, inspect_ok, Hs.
  - intros v s k Hs Hk.
    apply (program_ok_observe
             (r <- validator (Some v) (inspect (doInspect s)) ;; exec (k r))).
    apply program_ok_bind; [|exact Hk]. apply program_ok_validator, inspect_ok, Hs.
  - intros body handler k Hb Hh Hk.
    apply (program_ok_observe
             (fun st => match exec body st with
                        | (Ok v, st') => exec (k v) st'
                        | (Exn e, st') => (v <- exec (handler e) ;; exec (k v)) st'
                        end)).
    now apply program_ok_tryCatch.
  - intros k Hk. apply (program_ok_observe (r <- root ;; exec (k r))).
    apply program_ok_bind; [apply program_ok_root | exact Hk].
  - intros levels k Hk. apply (program_ok_observe (r <- up levels ;; exec (k r))).
    apply program_ok_bind; [apply program_ok_up | exact Hk].
  - intros k Hk. apply (program_ok_observe (r <- value_ ;; exec (k r))).
    apply program_ok_bind; [apply program_ok_value | exact Hk].
  - intros k Hk. apply (program_ok_observe (r <- key_ ;; exec (k r))).
    apply program_ok_bind; [apply program_ok_key | exact Hk].
  - intros k Hk. apply (program_ok_observe (r <- index ;; exec (k r))).
    apply program_ok_bind; [apply program_ok_index | exact Hk].
  - intros k Hk. apply (program_ok_observe (r <- path_ ;; exec (k r))).
    apply program_ok_bind; [apply program_ok_path | exact Hk].
  - intros k Hk. apply (program_ok_observe (r <- errorPath_ ;; exec (k r))).
    apply program_ok_bind; [apply program_ok_errorPath | exact Hk].
  - intros matcher name a k Hm Ha Hk.
    apply (program_ok_observe
             (r <- enhanceMatcher (fun v => exec (matcher v)) name
                     match a with
                     | NoArgs => NoArgs
                     | OneArg v call => OneArg v (exec call)
                     | ManyArgs => ManyArgs
                     end ;;
              exec (k r))).
    apply program_ok_bind; [|exact Hk].
    apply program_ok_enhanceMatcher; [exact Hm|]. destruct a; auto.
  - intros u property k Hk.
    apply (program_ok_observe (r <- getter u property ;; exec (k r))).
    apply program_ok_bind; [apply program_ok_getter | exact Hk].
  - intros u k Hk.
    apply (program_ok_observe (r <- toPrimitive u ;; exec (k r))).
    apply program_ok_bind; [apply program_ok_toPrimitive | exact Hk].
Qed.

(** ** A top-level call on a fresh instance *)

Definition entered (n : nat) : state :=
  set_validatorDepth Z.succ (set_started true (createInstance n)).

Lemma entered_Running n : Running (entered n).
Proof. repeat split; cbn; try lia. constructor. Qed.

Lemma nv_fresh v s n :
  nv v s (createInstance n) =
  match inspect_schema s v (entered n) with
  | (Ok error, st2) => (Ok error, basicReset true (set_validatorDepth Z.pred st2))
  | (Exn e, st2) => (Exn e, st2)
  end.
Proof.
  unfold nv. rewrite validator_top by reflexivity. fold (entered n).
  pose proof (inspect_ok _ (proj1 engine_ok s) v _ (entered_Running n)) as H.
  unfold post, inspect_schema in *.
  destruct (inspect (doInspect s) v (entered n)) as [[r|e] st2]; [|reflexivity].
  cbn [fst snd] in H. destruct H as (_ & (_ & _ & _ & Hd) & _).
  rewrite Hd. reflexivity.
Qed.

(** What [inspect] does to the latched path: a truthy result latches the
    current path unless one is latched already, any other result clears the
    latch. *)
Lemma inspect_latch (d : value -> M value) v st r st1 :
  d v st = (Ok r, st1) ->
  inspect d v st =
  (Ok r, if truthy r
         then match errorPath st1 with
              | None => set_errorPath (Some (path st1)) st1
              | Some _ => st1
              end
         else set_errorPath None st1).
Proof.
  intros H. unfold inspect. unfold_monad. rewrite H.
  destruct (truthy r); [|reflexivity]. now destruct (errorPath st1).
Qed.

(** A top-level call on a fresh instance ends with the session finished; it
    returns a verdict, with a path latched exactly when the verdict is an
    error, or throws, with no path latched; every observation made on the
    way is balanced. *)
Lemma top_level v s n :
  post (nv v s) (createInstance n) (fun o st' =>
    finished st' = true /\ LogOk st' /\
    match o with
    | Ok r => (r = jfalse /\ errorPath st' = None) \/
              (truthy r = true /\ exists p, errorPath st' = Some p)
    | Exn _ => errorPath st' = None
    end).
Proof.
  unfold post. rewrite nv_fresh. unfold inspect_schema.
  pose proof (proj1 engine_ok s v _ (entered_Running n)) as H. unfold post in H.
  destruct (doInspect s v (entered n)) as [[r|e] st1] eqn:E; cbn [fst snd] in H.
  - rewrite (inspect_latch _ _ _ _ _ E). cbn [fst snd].
    destruct H as (HR & _ & Hv). split; [reflexivity|].
    split.
    { destruct (truthy r); [destruct (errorPath st1)|]; cbn; apply HR. }
    destruct Hv as [->|Ht].
    + left. split; reflexivity.
    + right. split; [exact Ht|]. rewrite Ht.
      destruct (errorPath st1) as [p|] eqn:Ep; cbn; eauto.
  - rewrite (inspect_exn _ _ _ _ _ E). cbn [fst snd].
    destruct H as (Hf & _ & _ & _ & _ & He & Hlog). auto.
Qed.

(** ** A session that has ended *)

Definition REUSE : string := "To validate another value, use nonvalid.instance()".

(** A session that has ended: by a result, or by an exception. *)
Definition Ended (st : state) : Prop :=
  finished st = true /\ values st = [] /\ funnel st = [] /\ path st = [] /\
  validatorDepth st = 0%Z.

Lemma Aborted_Ended st : Aborted st -> Ended st.
Proof. intros (H1 & H2 & H3 & H4 & H5 & _). repeat split; assumption. Qed.

Lemma reset_Ended st : Ended (reset true st).
Proof. repeat split. Qed.

(** The top-level call leaves the session ended. *)
Lemma top_level_Ended v s n : Ended (snd (nv v s (createInstance n))).
Proof.
  rewrite nv_fresh. unfold inspect_schema.
  pose proof (inspect_ok _ (proj1 engine_ok s) v _ (entered_Running n)) as H.
  unfold post in H.
  destruct (inspect (doInspect s) v (entered n)) as [[r|e] st2]; cbn [fst snd] in *.
  - destruct H as (_ & (Hv & Hf & Hp & Hd) & _).
    repeat split; cbn; try assumption. rewrite Hd. reflexivity.
  - now apply Aborted_Ended.
Qed.

(** Both ways of calling the instance, on a session that has ended. *)
Lemma validator_Ended value sch st :
  Ended st -> validator value sch st = (Exn (Err REUSE), reset true st).
Proof.
  intros (Hf & _ & _ & _ & Hd). unfold validator. unfold_monad. cbv beta.
  rewrite Hd. cbn [Z.eqb]. cbv beta iota zeta. rewrite Hf. reflexivity.
Qed.

(** ** The error path *)


(** ** Exceptions *)

(** [() => { try { nv({ value: () => { throw new Error('custom'); } }); }
    catch (e) {} return false; }] *)
Definition swallowing : schema :=
  SFun 0 (fun _ _ =>
    TryCatch (Nv1 (SObj [(KStr "value", SFun 1 (fun _ _ => Throw (Err "custom")))]) Ret)
             (fun _ => Ret undefined)
             (fun _ => Ret jfalse)).

(** [{ a: [{ b: () => { throw new Error('custom'); } }] }] *)
Definition throwing_deep : schema :=
  SObj [(KStr "a", SArr [Some (SObj [(KStr "b", SFun 0 (fun _ _ => Throw (Err "custom")))])])].
Definition deep_value : value :=
  VObj [(KStr "a", VArr [Some (VObj [(KStr "b", VPrim (PNum 1))])])].

(** [() => { try { nv({ value: () => { throw new Error('custom'); } }); }
    catch (e) {} return nv(1, 1); }] *)
Definition revalidating : schema :=
  SFun 0 (fun _ _ =>
    TryCatch (Nv1 (SObj [(KStr "value", SFun 1 (fun _ _ => Throw (Err "custom")))]) Ret)
             (fun _ => Ret undefined)
             (fun _ => Nv2 (VPrim (PNum 1)) (SLit (PNum 1)) Ret)).

(** C8, as stated, fails: a callback that swallows the exception of its
    inner validation and calls the instance again does not get 'Cannot
    proceed with validation after an error'; the call throws 'To validate
    another value, use nonvalid.instance()', and that is what the top-level
    call throws. *)
Lemma C8_revalidation_counterexample :
  fst (nv (VObj [(KStr "value", VPrim (PNum 123))]) revalidating (createInstance 0))
  = Exn (Err REUSE) /\
  REUSE <> CANTPROCEED.
Proof. split; [reflexivity | discriminate]. Qed.

(** C8, amended: an exception thrown by a callback leaves [run] as it is,
    with the session finished; whatever a schema throws while a session is in
    progress leaves the session finished, and the top-level call throws it
    unchanged.  On the session so ended, a callback that returns normally
    makes [run] throw 'Cannot proceed with validation after an error', and a
    call of the instance, with a value or without, throws 'To validate
    another value, use nonvalid.instance()'. *)
Theorem C8_exceptions_end_the_session :
  (forall id body v st e st2,
      exec (body v (currentKey (set_values (push v) st))) (set_values (push v) st)
      = (Exn e, st2) ->
      doInspect (SFun id body) v st
      = (Exn e, if finished st2 then st2 else reset true st2) /\
      finished (if finished st2 then st2 else reset true st2) = true) /\
  (forall s v st e st',
      Running st -> doInspect s v st = (Exn e, st') -> finished st' = true) /\
  (forall s v n e st',
      doInspect s v (entered n) = (Exn e, st') ->
      nv v s (createInstance n) = (Exn e, st') /\ finished st' = true) /\
  (forall (callback : value -> option pkey -> M value) v st r st2,
      callback v (currentKey (set_values (push v) st)) (set_values (push v) st)
      = (Ok r, st2) ->
      finished st2 = true ->
      run callback v st = (Exn (Err CANTPROCEED), st2)) /\
  (forall s v st e st',
      Running st -> doInspect s v st = (Exn e, st') ->
      forall value sch,
        validator value sch st' = (Exn (Err REUSE), reset true st')) /\
  fst (nv deep_value throwing_deep (createInstance 0)) = Exn (Err "custom") /\
  fst (nv (VObj [(KStr "value", VPrim (PNum 123))]) swallowing (createInstance 0))
  = Exn (Err CANTPROCEED) /\
  fst (nv (VObj [(KStr "value", VPrim (PNum 123))]) revalidating (createInstance 0))
  = Exn (Err REUSE).
Proof.
  split; [|split; [|split; [|split; [|split; [|repeat split]]]]].
  - intros id body v st e st2 H.
    change (doInspect (SFun id body) v st)
      with (run (fun v k => exec (body v k)) v st).
    unfold run. rewrite H. split; [reflexivity|].
    destruct (finished st2) eqn:E; [exact E | reflexivity].
  - intros s v st e st' HR H.
    pose proof (post_elim _ _ _ _ _ (proj1 engine_ok s v st HR) H) as HA.
    apply HA.
  - intros s v n e st' H. rewrite nv_fresh. unfold inspect_schema.
    rewrite (inspect_exn _ _ _ _ _ H). split; [reflexivity|].
    pose proof (post_elim _ _ _ _ _ (proj1 engine_ok s v _ (entered_Running n)) H)
      as HA.
    apply HA.
  - intros callback v st r st2 H Hf. unfold run. now rewrite H, Hf.
  - intros s v st e st' HR H value sch.
    pose proof (post_elim _ _ _ _ _ (proj1 engine_ok s v st HR) H) as HA.
    apply validator_Ended, Aborted_Ended, HA.
Qed.

(** C8 for a callback that throws at once, on a fresh instance. *)
Lemma C8_exceptions_witness :
  nv undefined (SFun 0 (fun _ _ => Throw (Err "custom"))) (createInstance 0)
  = (Exn (Err "custom"),
     reset true (observe (set_values (push undefined) (entered 0)))) /\
  finished (reset true (observe (set_values (push undefined) (entered 0)))) = true.
Proof.
  apply (proj1 (proj2 (proj2 C8_exceptions_end_the_session))
           (SFun 0 (fun _ _ => Throw (Err "custom"))) undefined 0).
  reflexivity.
Defined.

(** ** The stacks *)

(** The stacks of the specification: the value stack holds the ancestors
    of the current value, root first, and the current value; the key stack
    holds the keys that lead to it.  The ancestors are the containers under
    inspection, which the engine keeps on [funnel]; the keys are on [path]. *)
Definition ValueStack (st : state) : list value := funnel st ++ [currentValue st].
Definition KeyStack (st : state) : list pkey := path st.

(** The heights of the two stacks, from what [observe] records of a state:
    the heights of [values], [funnel] and [path]. *)
Definition stack_heights (o : nat * nat * nat) : nat * nat :=
  (S (snd (fst o)), snd o).

(** C9: at every step of every callback run by a top-level call on a fresh
    instance, nested calls of the instance included, the value stack is one
    higher than the key stack.  [observe] records the heights at each step
    of a callback's program; the last part says what it records. *)
Theorem C9_value_stack_and_key_stack (v : value) (s : schema) (n : nat) :
  Forall (fun o => fst (stack_heights o) = snd (stack_heights o) + 1)
         (observed (snd (nv v s (createInstance n)))) /\
  (forall st,
      exists o, observed (observe st) = observed st ++ [o] /\
                stack_heights o
                = (List.length (ValueStack st), List.length (KeyStack st))).
Proof.
  split.
  - pose proof (proj1 (proj2 (top_level v s n))) as H. unfold LogOk in H.
    eapply Forall_impl; [|exact H].
    intros [[a b] c]. unfold balanced, stack_heights. cbn. lia.
  - intros st. eexists. split; [reflexivity|].
    unfold stack_heights, ValueStack, KeyStack. cbn [fst snd].
    rewrite length_app. cbn [List.length]. f_equal. lia.
Qed.

(** ** The order of traversal of an object *)

Definition by_index {A} (a b : N * (key * A)) : Prop := (fst a <= fst b)%N.

Lemma insert_index_sorted {A} (e : N * (key * A)) l :
  StronglySorted by_index l -> StronglySorted by_index (insert_index e l).
Proof.
  induction 1 as [|x l Hs IH Hx]; simpl.
  - repeat constructor.
  - destruct (N.leb_spec (fst e) (fst x)) as [Hle|Hlt].
    + constructor; [now constructor|]. constructor; [exact Hle|].
      eapply Forall_impl; [|exact Hx]. unfold by_index. intros; lia.
    + constructor; [exact IH|]. rewrite Forall_forall. intros y Hy.
      apply In_insert_index in Hy. destruct Hy as [->|Hy].
      * unfold by_index. lia.
      * rewrite Forall_forall in Hx. now apply Hx.
Qed.

Lemma index_entries_sorted {A} (l : list (key * A)) :
  StronglySorted by_index (index_entries l).
Proof.
  induction l as [|[[s|i] a] l IH]; simpl; [constructor| |exact IH].
  destruct (array_index s); [now apply insert_index_sorted | exact IH].
Qed.

Lemma In_insert_index_iff {A} (e x : N * (key * A)) l :
  In x (insert_index e l) <-> x = e \/ In x l.
Proof.
  induction l as [|y l IH]; simpl.
  - intuition.
  - destruct (N.leb (fst e) (fst y)); simpl; intuition.
Qed.

(** The entries listed first are exactly those of the object whose key is
    an array index, each with its index. *)
Lemma index_entries_spec {A} (l : list (key * A)) n k a :
  In (n, (k, a)) (index_entries l) <->
  In (k, a) l /\ exists s, k = KStr s /\ array_index s = Some n.
Proof.
  induction l as [|[[s|i] b] l IH]; simpl.
  - split; [tauto | intros [[] _]].
  - destruct (array_index s) as [m|] eqn:E.
    + rewrite In_insert_index_iff, IH. split.
      * intros [Heq|[H1 H2]]; [|tauto]. injection Heq as -> -> ->.
        split; [now left | eauto].
      * intros [[Heq|H1] (s' & -> & H3)].
        -- left. injection Heq as -> ->. congruence.
        -- right. eauto.
    + rewrite IH. split; [tauto|].
      intros [[Heq|H1] (s' & -> & H3)]; [|eauto].
      injection Heq as -> ->. congruence.
  - rewrite IH. split; [tauto|].
    intros [[Heq|H1] (s' & -> & H3)]; [discriminate Heq | eauto].
Qed.

(** Loops over lists put together. *)
Lemma for_of_app {A} (l1 l2 : list A) body st :
  for_of (l1 ++ l2) body st =
  (r <- for_of l1 body ;;
   match r with Some e => ret (Some e) | None => for_of l2 body end) st.
Proof.
  revert st. induction l1 as [|x l1 IH]; intros st; simpl.
  - reflexivity.
  - unfold bind in *. destruct (body x st) as [[[e|]|e] st1]; try reflexivity.
    apply IH.
Qed.

Lemma for_of_ext {A} (l : list A) body body' st :
  (forall x st, body x st = body' x st) -> for_of l body st = for_of l body' st.
Proof.
  intros H. revert st. induction l as [|x l IH]; intros st; simpl; [reflexivity|].
  unfold bind. rewrite H. destruct (body' x st) as [[[e|]|e] st1]; auto.
Qed.

Lemma for_of_filter {A} (keep : A -> bool) (l : list A) body st :
  for_of l (fun x => if keep x then body x else ret None) st =
  for_of (filter keep l) body st.
Proof.
  revert st. induction l as [|x l IH]; intros st; simpl; [reflexivity|].
  destruct (keep x); simpl.
  - unfold bind. destruct (body x st) as [[[e|]|e] st1]; auto.
  - unfold bind at 1. unfold ret at 1. apply IH.
Qed.

Lemma for_of_map {A B} (g : A -> B) (l : list A) body st :
  for_of (map g l) body st = for_of l (fun x => body (g x)) st.
Proof.
  revert st. induction l as [|x l IH]; intros st; simpl; [reflexivity|].
  unfold bind. destruct (body (g x) st) as [[[e|]|e] st1]; auto.
Qed.

(** One visit of the traversal is made of the member's key, the value
    inspected, and the schema it is inspected against; [None] stands for a
    member that nothing accepts, which ends the traversal with [true]. *)
Definition perform (x : key * value * option node) : M (option value) :=
  let '(k, subvalue, target) := x in
  match target with
  | Some n =>
      error <- inspectKey n subvalue (PKey k) ;;
      ret (if truthy error then Some error else None)
  | None => ret (Some jtrue)
  end.

(** The own member of an object under a key, [undefined] when it has none:
    what the Proxy of safe navigation reads, and what the specification
    recurses into. *)
Definition own_member (props : list (key * value)) (k : key) : value :=
  match lookup k props with Some x => x | None => undefined end.

(** The visits of [inspectObject], in their order: the entries of the schema
    but the reserved symbols, each with what [value[key]] reads, then the
    entries of the value whose key the schema does not own. *)
Definition visits (schema : list (key * node)) (props : list (key * value))
  (catchOther : option node) : list (key * value * option node) :=
  map (fun e => (fst e, object_get (VObj props) (fst e), Some (snd e)))
      (filter (fun e => negb (reserved (fst e))) (allEntries schema))
  ++ map (fun e => (fst e, snd e, catchOther))
         (filter (fun e => negb (has_key (fst e) schema)) (allEntries props)).

(** The visits as the specification words them: the keys the schema
    declares, that is its entries other than the catch-remaining callback and
    the override, each with the value's member or [undefined] if absent, then
    the members of the value that are not declared. *)
Definition declared (schema : list (key * node)) : list (key * node) :=
  filter (fun e => negb (reserved (fst e))) schema.

Definition claimed_visits (schema : list (key * node)) (props : list (key * value))
  (catchOther : option node) : list (key * value * option node) :=
  map (fun e => (fst e, own_member props (fst e), Some (snd e)))
      (allEntries (declared schema))
  ++ map (fun e => (fst e, snd e, catchOther))
         (filter (fun e => negb (has_key (fst e) (declared schema)))
                 (allEntries props)).

Definition traverse (l : list (key * value * option node)) : M value :=
  r <- for_of l perform ;;
  ret (match r with Some error => error | None => jfalse end).

Lemma inspectObject_visits schema props st catchOther shapeError st1 :
  validateObjectSchema schema st = (Ok (catchOther, shapeError), st1) ->
  inspectObject schema (VObj props) st
  = traverse (visits schema props catchOther) st1.
Proof.
  intros H.
  assert (E1 : forall st',
    for_of (allEntries schema) (fun '(k, subschema) =>
      if reserved k then ret None
      else
        subvalue <- member (VObj props) k ;;
        error <- inspectKey subschema subvalue (PKey k) ;;
        ret (if truthy error then Some error else None)) st'
    = for_of (map (fun e => (fst e, object_get (VObj props) (fst e), Some (snd e)))
                (filter (fun e => negb (reserved (fst e))) (allEntries schema)))
        perform st').
  { intros st'. rewrite for_of_map, <- for_of_filter. apply for_of_ext.
    intros [k sub] st2. cbn [fst snd]. now destruct (reserved k). }
  assert (E2 : forall st',
    for_of (allEntries props) (fun '(k, subvalue) =>
      if negb (has_key k schema) then
        match catchOther with
        | None => ret (Some jtrue)
        | Some c =>
            error <- inspectKey c subvalue (PKey k) ;;
            ret (if truthy error then Some error else None)
        end
      else ret None) st'
    = for_of (map (fun e => (fst e, snd e, catchOther))
                (filter (fun e => negb (has_key (fst e) schema)) (allEntries props)))
        perform st').
  { intros st'. rewrite for_of_map, <- for_of_filter. apply for_of_ext.
    intros [k x] st2. cbn [fst snd]. destruct (negb (has_key k schema)); [|reflexivity].
    now destruct catchOther. }
  unfold inspectObject, traverse, visits.
  unfold bind at 1. rewrite H. cbn [matchers.object negb value_entries].
  unfold bind in *. rewrite for_of_app. unfold bind. rewrite E1.
  destruct (for_of _ perform st1) as [[[e|]|e] st2]; [reflexivity| |reflexivity].
  rewrite E2.
  destruct (for_of _ perform st2) as [[[e|]|e] st3]; reflexivity.
Qed.

(** *** Where the traversal leaves the order of the specification *)

(** [{}] against [{ constructor: undefined }].  The specification recurses
    into a member that the value lacks with [undefined], which the literal
    [undefined] accepts: its visits give [false].  The engine reads
    [value['constructor']] through the prototype chain, finds [Object], and
    returns [true], with ['constructor'] as the error path. *)
Lemma C2_absent_member_divergence :
  let schema := object_nodes [(KStr "constructor", SLit PUndef)] in
  map (fun x => snd (fst x)) (claimed_visits schema [] None) = [undefined] /\
  fst (traverse (claimed_visits schema [] None)
                (set_funnel (push (VObj [])) (entered 0)))
  = Ok jfalse /\
  map (fun x => snd (fst x)) (visits schema [] None) = [VNative "constructor"] /\
  fst (nv (VObj []) (SObj [(KStr "constructor", SLit PUndef)]) (createInstance 0))
  = Ok jtrue /\
  errorPath (snd (nv (VObj []) (SObj [(KStr "constructor", SLit PUndef)])
                     (createInstance 0)))
  = Some [PKey (KStr "constructor")].
Proof. repeat split. Qed.

(** [{ [nv.other]: 'x' }] against [{ [nv.other]: () => 'visited' }] *)
Definition other_value : value :=
  VObj [(KSym symbols.other, VPrim (PStr "x"))].
Definition other_schema : schema :=
  SObj [(KSym symbols.other, SFun 0 (fun _ _ => Ret (VPrim (PStr "visited"))))].

(** A member of the value whose key is a reserved symbol that the schema
    owns: the order of the specification sends the member to the
    catch-remaining callback, which answers 'visited'; the engine visits
    nothing, runs no callback, and returns [false]. *)
Lemma C2_reserved_key_divergence :
  let schema := object_nodes [(KSym symbols.other,
                               SFun 0 (fun _ _ => Ret (VPrim (PStr "visited"))))] in
  let props := [(KSym symbols.other, VPrim (PStr "x"))] in
  let catchOther := lookup (KSym symbols.other) schema in
  List.length (claimed_visits schema props catchOther) = 1 /\
  fst (traverse (claimed_visits schema props catchOther)
                (set_funnel (push other_value) (entered 0)))
  = Ok (VPrim (PStr "visited")) /\
  visits schema props catchOther = [] /\
  fst (nv other_value other_schema (createInstance 0)) = Ok jfalse /\
  observed (snd (nv other_value other_schema (createInstance 0))) = [].
Proof. repeat split. Qed.

(** [{ b: 'B', 4294967295: 'A' }] against
    [{ [nv.other]: v => v }]: the key [4294967295] is the numeral of an
    integer but not an array index, so that the member [b], created first,
    is visited first. *)
Lemma C2_large_key_divergence :
  let props := [(KStr "b", VPrim (PStr "B")); (KStr "4294967295", VPrim (PStr "A"))] in
  let schema := SObj [(KSym symbols.other, SFun 0 (fun v _ => Ret v))] in
  canonical_index "4294967295" = Some 4294967295%N /\
  map fst (allEntries props) = [KStr "b"; KStr "4294967295"] /\
  map fst (allEntries [(KStr "b", VPrim (PStr "B")); (KStr "4294967294", VPrim (PStr "A"))])
  = [KStr "4294967294"; KStr "b"] /\
  fst (nv (VObj props) schema (createInstance 0)) = Ok (VPrim (PStr "B")) /\
  errorPath (snd (nv (VObj props) schema (createInstance 0))) = Some [PKey (KStr "b")].
Proof. vm_compute. repeat split. Qed.

(** X24: the order in which the engine traverses an object.  An object
    value is inspected against an object schema that passed
    [validateObjectSchema] by the visits of [visits], in their order, up to
    the first that gives an error: first the entries of the schema other
    than the reserved symbols, each with what [value[key]] reads, the own
    member, else the member inherited from [Object.prototype], else
    [undefined]; then the own entries of the value whose key the schema does
    not own, each sent to the catch-remaining callback, or ending the
    traversal with [true] when there is none.  Both lists come in the order
    of [allEntries]: array indices ascending, then the other strings, then
    the symbols, as created. *)
Theorem object_traversal_order :
  (forall sprops props st catchOther shapeError st1,
      validateObjectSchema (object_nodes sprops) (set_funnel (push (VObj props)) st)
      = (Ok (catchOther, shapeError), st1) ->
      st1 = set_funnel (push (VObj props)) st /\
      doInspect (SObj sprops) (VObj props) st
      = inspectDeeper
          (fun _ => traverse (visits (object_nodes sprops) props catchOther))
          (VObj props) st) /\
  (forall A (l : list (key * A)),
      allEntries l
      = map snd (index_entries l) ++ filter is_plain_string l
        ++ filter is_symbol_key l /\
      StronglySorted by_index (index_entries l) /\
      (forall n k a,
          In (n, (k, a)) (index_entries l) <->
          In (k, a) l /\ exists s, k = KStr s /\ array_index s = Some n)) /\
  (forall s n, array_index s = Some n <->
               canonical_index s = Some n /\ (n < 4294967295)%N).
Proof.
  split; [|split].
  - intros sprops props st catchOther shapeError st1 H.
    assert (E : st1 = set_funnel (push (VObj props)) st).
    { exact (proj1 (post_elim _ _ _ _ _ (validateObjectSchema_post _ _) H)). }
    split; [exact E|].
    change (doInspect (SObj sprops) (VObj props))
      with (inspectDeeper (inspectObject (object_nodes sprops)) (VObj props)).
    unfold inspectDeeper, bind, modify.
    rewrite (inspectObject_visits _ _ _ _ _ _ H). now rewrite E.
  - intros A l. split; [|split].
    + unfold allEntries, Object_entries, symbol_entries. now rewrite app_assoc.
    + apply index_entries_sorted.
    + apply index_entries_spec.
  - intros s n. unfold array_index.
    destruct (canonical_index s) as [m|]; [|split; [discriminate | now intros [H _]]].
    destruct (N.ltb_spec m 4294967295) as [Hlt|Hge].
    + split; [intros [= ->]; now split | now intros [[= ->] _]].
    + split; [discriminate | intros [[= ->] Hn]; lia].
Qed.

(** [{ 2: 'two', a: 'x' }] against [{ a: 'x', 2: 'two' }]. *)
Lemma object_traversal_witness :
  let sprops := [(KStr "a", SLit (PStr "x")); (KStr "2", SLit (PStr "two"))] in
  let props := [(KStr "2", VPrim (PStr "two")); (KStr "a", VPrim (PStr "x"))] in
  doInspect (SObj sprops) (VObj props) (entered 0)
  = inspectDeeper (fun _ => traverse (visits (object_nodes sprops) props None))
      (VObj props) (entered 0).
Proof.
  intros sprops props.
  apply (proj1 object_traversal_order sprops props (entered 0) None undefined
           (set_funnel (push (VObj props)) (entered 0))).
  reflexivity.
Defined.

(** ** Schemas with pure callbacks, and the result the specification gives

    A pure callback computes its result from the value and the key alone.
    For such schemas the specification reads as a function: list, in the
    order of traversal, what every callback returns and every mismatch
    yields; the result is the first truthy entry of the list, or [false]. *)

Inductive pschema : Type :=
| PFun (id : nat) (f : value -> option pkey -> value)
| PObj (props : list (key * pschema))
| PArr (items : list (option pschema))
| PLit (p : prim).

Fixpoint embed (ps : pschema) : schema :=
  match ps with
  | PFun id f => SFun id (fun v k => Ret (f v k))
  | PObj props => SObj (map (fun e => (fst e, embed (snd e))) props)
  | PArr items => SArr (map (option_map embed) items)
  | PLit p => SLit p
  end.

Section PschemaInduction.
Variable P : pschema -> Prop.
Hypothesis HFun : forall id f, P (PFun id f).
Hypothesis HObj : forall props, Forall (fun e => P (snd e)) props -> P (PObj props).
Hypothesis HArr : forall items,
  Forall (fun o => match o with Some s => P s | None => True end) items ->
  P (PArr items).
Hypothesis HLit : forall p, P (PLit p).

Fixpoint pschema_holds (ps : pschema) : P ps.
Proof.
  destruct ps as [id f|props|items|p].
  - apply HFun.
  - apply HObj. induction props as [|[k sub] r IH]; constructor.
    + apply pschema_holds.
    + exact IH.
  - apply HArr. induction items as [|[sub|] r IH]; constructor.
    + apply pschema_holds.
    + exact IH.
    + exact I.
    + exact IH.
  - apply HLit.
Qed.
End PschemaInduction.

(** What a callback returned or a mismatch yielded, with the keys that
    lead to it from the node under which it is listed. *)
Definition under (k : pkey) (o : list pkey * value) : list pkey * value :=
  (k :: fst o, snd o).

Definition first_failure (l : list (list pkey * value)) : option (list pkey * value) :=
  find (fun o => truthy (snd o)) l.

Definition result_of (l : list (list pkey * value)) : value :=
  match first_failure l with Some o => snd o | None => jfalse end.

Definition path_of (prefix : list pkey) (l : list (list pkey * value))
  : option (list pkey) :=
  match first_failure l with Some o => Some (prefix ++ fst o) | None => None end.

(** A member of a container schema: its value, and what inspecting a value
    against it lists. *)
Definition spec_catch
  (c : option (value * (value -> option pkey -> list (list pkey * value))))
  : option (value -> option pkey -> list (list pkey * value)) :=
  match c with
  | Some (cv, out) => if matchers.undefined cv then None else Some out
  | None => None
  end.

(** [v[k]] for an object-like value: the property of an object, own or
    inherited; through a Proxy of safe navigation, no symbol being registered
    in [safeMap], a Proxy around the own member of what it wraps. *)
Definition spec_member (v : value) (k : key) : value :=
  match v with
  | VWrap u => VWrap (if valid u (key_value k) then get_own u (key_value k)
                      else undefined)
  | _ => object_get v k
  end.

(** The own members of an object-like value, in the order of their keys, and
    the element of an array at a position, [undefined] for a hole and beyond
    the end. *)
Definition own_members (v : value) : list (key * value) :=
  match v with
  | VObj props => allEntries props
  | _ => []
  end.

Definition item (xs : list (option value)) (i : nat) : value :=
  match nth_error xs i with
  | Some (Some x) => x
  | _ => undefined
  end.

Definition object_outcomes
  (members : list (key * (value * (value -> option pkey -> list (list pkey * value)))))
  (v : value) : list (list pkey * value) :=
  if matchers.object v then
    flat_map (fun e => map (under (PKey (fst e)))
                         (snd (snd e) (spec_member v (fst e)) (Some (PKey (fst e)))))
             (filter (fun e => negb (reserved (fst e))) (allEntries members))
    ++ flat_map (fun e =>
                   match spec_catch (lookup (KSym symbols.other) members) with
                   | Some out => map (under (PKey (fst e)))
                                   (out (snd e) (Some (PKey (fst e))))
                   | None => [([], jtrue)]
                   end)
                (filter (fun e => negb (has_key (fst e) members)) (own_members v))
  else
    [([], or_else match lookup (KSym symbols.error) members with
                  | Some m => fst m
                  | None => undefined
                  end jtrue)].

Definition array_outcomes
  (items : list (option (value * (value -> option pkey -> list (list pkey * value)))))
  (v : value) : list (list pkey * value) :=
  let regular := regular_length (map (option_map fst) items) in
  let rest := skipn (regular + 1) items in
  let catch := find (fun o => is_callback (option_map fst o)) rest in
  let override := find (fun o => is_override (option_map fst o)) rest in
  match v with
  | VArr xs =>
      flat_map (fun i =>
                  match nth_error items i with
                  | Some (Some m) => map (under (PIdx i))
                                       (snd m (item xs i) (Some (PIdx i)))
                  | _ => []
                  end)
               (seq 0 regular)
      ++ flat_map (fun i =>
                     match catch with
                     | Some (Some m) => map (under (PIdx i))
                                          (snd m (item xs i) (Some (PIdx i)))
                     | _ => [([], jtrue)]
                     end)
                  (seq regular (List.length xs - regular))
  | _ =>
      [([], or_else match override with
                    | Some (Some m) => fst m
                    | _ => undefined
                    end jtrue)]
  end.

(** Everything the validation of [v] against [ps] lists, in order. *)
Fixpoint outcomes (ps : pschema) (v : value) (k : option pkey) {struct ps}
  : list (list pkey * value) :=
  match ps with
  | PFun _ f => [([], f v k)]
  | PLit p => [([], VPrim (PBool (strict_neq_prim v p)))]
  | PObj props =>
      object_outcomes
        (map (fun e => (fst e, (schema_value (embed (snd e)), outcomes (snd e)))) props)
        v
  | PArr items =>
      array_outcomes
        (map (option_map (fun sub => (schema_value (embed sub), outcomes sub))) items)
        v
  end.

(** The result of the specification: the first truthy entry, or [false]. *)
Definition spec_result (ps : pschema) (v : value) : value :=
  result_of (outcomes ps v None).

(** The error path of the specification: where the first truthy entry
    arose. *)
Definition spec_errorPath (ps : pschema) (v : value) : option (list pkey) :=
  path_of [] (outcomes ps v None).

(** *** Lists of entries under a change of what the keys hold *)

Section EntriesMap.
Context {A B : Type} (g : A -> B).

Definition on_snd (e : key * A) : key * B := (fst e, g (snd e)).

Lemma insert_index_map n k a (l : list (N * (key * A))) :
  insert_index (n, (k, g a)) (map (fun x => (fst x, on_snd (snd x))) l)
  = map (fun x => (fst x, on_snd (snd x))) (insert_index (n, (k, a)) l).
Proof.
  induction l as [|x l IH]; simpl; [reflexivity|].
  destruct (N.leb n (fst x)); simpl; [reflexivity|]. now rewrite IH.
Qed.

Lemma index_entries_map (l : list (key * A)) :
  index_entries (map on_snd l)
  = map (fun x => (fst x, on_snd (snd x))) (index_entries l).
Proof.
  induction l as [|[[s|i] a] l IH]; simpl; [reflexivity| |exact IH].
  destruct (array_index s); [|exact IH].
  rewrite IH. apply insert_index_map.
Qed.

Lemma filter_on_snd (f : key -> bool) (l : list (key * A)) :
  filter (fun e => f (fst e)) (map on_snd l)
  = map on_snd (filter (fun e => f (fst e)) l).
Proof.
  induction l as [|e l IH]; simpl; [reflexivity|].
  destruct (f (fst e)); simpl; now rewrite IH.
Qed.

Lemma allEntries_map (l : list (key * A)) :
  allEntries (map on_snd l) = map on_snd (allEntries l).
Proof.
  unfold allEntries, Object_entries, symbol_entries.
  rewrite index_entries_map, !map_app, !map_map. cbn [snd].
  f_equal; [f_equal|].
  - apply (filter_on_snd (fun k => match k with
                                   | KStr s => match array_index s with
                                               | Some _ => false
                                               | None => true
                                               end
                                   | KSym _ => false
                                   end)).
  - apply (filter_on_snd (fun k => match k with KSym _ => true | KStr _ => false end)).
Qed.

Lemma lookup_map k (l : list (key * A)) :
  lookup k (map on_snd l) = option_map g (lookup k l).
Proof.
  induction l as [|[k' a] l IH]; simpl; [reflexivity|].
  destruct (key_eqb k' k); [reflexivity | exact IH].
Qed.

Lemma has_key_map k (l : list (key * A)) :
  has_key k (map on_snd l) = has_key k l.
Proof. unfold has_key. rewrite lookup_map. now destruct (lookup k l). Qed.
End EntriesMap.

(** *** The first failure of a list of outcomes *)

Lemma first_failure_app l1 l2 :
  first_failure (l1 ++ l2)
  = match first_failure l1 with Some o => Some o | None => first_failure l2 end.
Proof.
  unfold first_failure. induction l1 as [|o l1 IH]; simpl; [reflexivity|].
  now destruct (truthy (snd o)).
Qed.

Lemma first_failure_under k l :
  first_failure (map (under k) l) = option_map (under k) (first_failure l).
Proof.
  unfold first_failure. induction l as [|o l IH]; simpl; [reflexivity|].
  now destruct (truthy (snd o)).
Qed.

Lemma first_failure_truthy l o : first_failure l = Some o -> truthy (snd o) = true.
Proof. intros H. apply find_some in H. apply H. Qed.

(** The path that is latched while a container is inspected: errors of the
    members are latched where they arose, an error of the container itself
    is not yet. *)
Definition inner_path (prefix : list pkey) (l : list (list pkey * value))
  : option (list pkey) :=
  match first_failure l with
  | Some (k :: rel, _) => Some (prefix ++ k :: rel)
  | _ => None
  end.

Definition early (l : list (list pkey * value)) : option value :=
  option_map snd (first_failure l).

Lemma inner_path_under prefix k l :
  inner_path prefix (map (under k) l) = path_of (prefix ++ [k]) l.
Proof.
  unfold inner_path, path_of. rewrite first_failure_under.
  destruct (first_failure l) as [[rel r]|]; cbn; [|reflexivity].
  now rewrite <- app_assoc.
Qed.

Lemma early_under k l : early (map (under k) l) = early l.
Proof.
  unfold early. rewrite first_failure_under. now destruct (first_failure l).
Qed.

Lemma early_result l :
  (if truthy (result_of l) then Some (result_of l) else None) = early l.
Proof.
  unfold early, result_of. destruct (first_failure l) as [o|] eqn:E; cbn.
  - now rewrite (first_failure_truthy _ _ E).
  - reflexivity.
Qed.

(** *** The engine on pure schemas

    The lemmas are stated once for "the engine gives the result of the
    specification, or throws" ([X] is [True]) and for "the engine gives the
    result of the specification" ([X] is [False]): [X] is what an exception
    has to establish. *)

Section Pure.
Variable X : Prop.

(** [st] with another latched path and another log of observations. *)
Definition with_ghost (e : option (list pkey)) (log : list (nat * nat * nat))
  (st : state) : state :=
  mkState (values st) (funnel st) (path st) e (validatorDepth st) (safeDepth st)
          (safeMap st) (started st) (finished st) (symbolSupply st) log.

Ltac fields :=
  unfold with_ghost, set_errorPath, set_values, set_path, set_funnel, observe;
  cbn [values funnel path errorPath validatorDepth safeDepth safeMap started
       finished symbolSupply observed fst snd].

Lemma with_ghost_same st : st = with_ghost (errorPath st) (observed st) st.
Proof. now destruct st. Qed.

(** A normal return gives the result of the specification and latches the
    path of the specification; nothing else of the session changes. *)
Definition pure_post (latched : option (list pkey)) (r0 : value) (st : state)
  (o : result value) (st' : state) : Prop :=
  match o with
  | Ok r => r = r0 /\ exists log, st' = with_ghost latched log st
  | Exn _ => X
  end.

Definition pure_ok (out : value -> option pkey -> list (list pkey * value))
  (d : value -> M value) : Prop :=
  forall v st, errorPath st = None -> safeMap st = [] ->
    (finished st = true -> X) ->
    post (d v) st
      (pure_post (path_of (path st) (out v (currentKey st)))
                 (result_of (out v (currentKey st))) st).

Lemma currentKey_push k st : currentKey (set_path (push k) st) = Some k.
Proof.
  unfold currentKey. cbn [path set_path]. unfold push.
  destruct (path st ++ [k]) eqn:E.
  - now destruct (path st).
  - rewrite <- E. now rewrite last_last.
Qed.

Lemma pure_callback id f :
  pure_ok (outcomes (PFun id f)) (inspect (doInspect (embed (PFun id f)))).
Proof.
  intros v st He Hs HX. apply post_intro. intros o st' E.
  unfold inspect, bind in E. cbn [embed doInspect] in E. unfold run in E.
  cbn [exec ret] in E.
  change (finished (observe (set_values (push v) st))) with (finished st) in E.
  change (currentKey (set_values (push v) st)) with (currentKey st) in E.
  cbn [outcomes]. unfold path_of, result_of, first_failure. cbn [find snd fst].
  fold (or_else (f v (currentKey st)) jfalse).
  destruct (finished st); [injection E as <- <-; now apply HX|].
  unfold or_else in *.
  destruct (truthy (f v (currentKey st))) eqn:Et.
  - rewrite Et in E. cbn in E. rewrite He in E. injection E as <- <-.
    split; [reflexivity|]. eexists. fields.
    rewrite pop_push, app_nil_r. reflexivity.
  - cbn in E. injection E as <- <-.
    split; [reflexivity|]. eexists. fields.
    rewrite pop_push. reflexivity.
Qed.

Lemma pure_literal p :
  pure_ok (outcomes (PLit p)) (inspect (doInspect (embed (PLit p)))).
Proof.
  intros v st He Hs HX. apply post_intro. intros o st' E.
  unfold inspect, bind in E. cbn [embed doInspect ret] in E.
  cbn [outcomes]. unfold path_of, result_of, first_failure. cbn [find snd fst].
  destruct (strict_neq_prim v p); cbn in E; cbn [truthy].
  - rewrite He in E. injection E as <- <-. split; [reflexivity|].
    eexists. fields. rewrite app_nil_r. reflexivity.
  - injection E as <- <-. split; [reflexivity|].
    eexists. fields. reflexivity.
Qed.

(** A member inspected under its key. *)
Lemma inspectKey_pure (n : node) out v k st :
  pure_ok out (node_inspect n) ->
  errorPath st = None -> safeMap st = [] -> (finished st = true -> X) ->
  post (inspectKey n v k) st
    (pure_post (inner_path (path st) (map (under k) (out v (Some k))))
               (result_of (out v (Some k))) st).
Proof.
  intros Hn He Hs HX. unfold inspectKey. wp.
  eapply post_weaken; [apply (Hn v (set_path (push k) st) He Hs HX)|].
  intros [r|e] st1 H; [|exact H]. destruct H as [-> [log ->]]. wp.
  rewrite currentKey_push. split; [reflexivity|].
  exists log. rewrite inner_path_under. fields.
  now rewrite pop_push.
Qed.

(** A loop whose body lists [outs x] for the element [x]. *)
Lemma for_of_pure {A} (l : list A) (body : A -> M (option value))
  (outs : A -> list (list pkey * value)) (base : state) :
  (forall x log, In x l ->
     post (body x) (with_ghost None log base) (fun o st' =>
       match o with
       | Ok r => r = early (outs x) /\
                 exists log', st' = with_ghost (inner_path (path base) (outs x)) log' base
       | Exn _ => X
       end)) ->
  forall log,
    post (for_of l body) (with_ghost None log base) (fun o st' =>
      match o with
      | Ok r => r = early (flat_map outs l) /\
                exists log', st' = with_ghost (inner_path (path base) (flat_map outs l))
                                     log' base
      | Exn _ => X
      end).
Proof.
  induction l as [|x l IH]; intros Hb log; cbn [for_of flat_map].
  - wp. split; [reflexivity|]. now exists log.
  - wp. eapply post_weaken; [apply (Hb x log (or_introl eq_refl))|].
    intros [r|e] st1 H; [|exact H]. destruct H as [-> [log1 ->]].
    unfold early, inner_path. rewrite first_failure_app.
    destruct (first_failure (outs x)) as [[rel r]|] eqn:E; cbn [option_map].
    + wp. split; [reflexivity|]. now exists log1.
    + eapply post_weaken.
      { apply (IH (fun y log' Hy => Hb y log' (or_intror Hy)) log1). }
      intros [r|e] st2 H; exact H.
Qed.

(** The two loops of [inspectObject] and of [inspectArray]. *)
Lemma two_loops_pure {A B} (l1 : list A) (l2 : list B) body1 body2 outs1 outs2 st :
  errorPath st = None ->
  (forall x log, In x l1 ->
     post (body1 x) (with_ghost None log st) (fun o st' =>
       match o with
       | Ok r => r = early (outs1 x) /\
                 exists log', st' = with_ghost (inner_path (path st) (outs1 x)) log' st
       | Exn _ => X
       end)) ->
  (forall x log, In x l2 ->
     post (body2 x) (with_ghost None log st) (fun o st' =>
       match o with
       | Ok r => r = early (outs2 x) /\
                 exists log', st' = with_ghost (inner_path (path st) (outs2 x)) log' st
       | Exn _ => X
       end)) ->
  post (r1 <- for_of l1 body1 ;;
        match r1 with
        | Some error => ret error
        | None =>
            r2 <- for_of l2 body2 ;;
            match r2 with
            | Some error => ret error
            | None => ret jfalse
            end
        end) st
    (pure_post (inner_path (path st) (flat_map outs1 l1 ++ flat_map outs2 l2))
               (result_of (flat_map outs1 l1 ++ flat_map outs2 l2)) st).
Proof.
  intros He H1 H2. rewrite (with_ghost_same st) at 1. rewrite He. wp.
  eapply post_weaken; [apply (for_of_pure l1 body1 outs1 st H1)|].
  intros [r1|e] st1 H; [|exact H]. destruct H as [-> [log1 ->]].
  unfold inner_path, result_of, early. rewrite first_failure_app.
  destruct (first_failure (flat_map outs1 l1)) as [[rel r]|]; cbn [option_map snd].
  { wp. split; [reflexivity|]. now exists log1. }
  wp. eapply post_weaken; [apply (for_of_pure l2 body2 outs2 st H2)|].
  intros [r2|e] st2 H; [|exact H]. destruct H as [-> [log2 ->]].
  unfold inner_path, early.
  destruct (first_failure (flat_map outs2 l2)) as [[rel r]|]; cbn [option_map snd].
  - wp. split; [reflexivity|]. now exists log2.
  - wp. split; [reflexivity|]. now exists log2.
Qed.

Lemma truthy_or_true x : truthy (or_else x jtrue) = true.
Proof. unfold or_else. now destruct (truthy x) eqn:E. Qed.

(** A value of the wrong shape: the override, or [true]; the path is latched
    by the caller. *)
Lemma shape_mismatch_post x st :
  errorPath st = None ->
  pure_post (inner_path (path st) [([], or_else x jtrue)])
            (result_of [([], or_else x jtrue)]) st (Ok (or_else x jtrue)) st.
Proof.
  intros He. unfold result_of, inner_path, first_failure. cbn [find snd].
  rewrite truthy_or_true. split; [reflexivity|]. exists (observed st).
  rewrite <- He. apply with_ghost_same.
Qed.

Lemma member_pure v k st :
  safeMap st = [] -> member v k st = (Ok (spec_member v k), st).
Proof.
  intros Hs. destruct v as [p|i|items|props|u|name|]; try reflexivity.
  cbn [member spec_member]. unfold getter.
  replace (resolve_property k st) with (key_value k); [reflexivity|].
  unfold resolve_property. destruct k; [reflexivity|]. now rewrite Hs.
Qed.

Lemma validateObjectSchema_ok schema st c e st' :
  validateObjectSchema schema st = (Ok (c, e), st') ->
  st' = st /\
  c = (if matchers.undefined (node_value_opt (lookup (KSym symbols.other) schema))
       then None else lookup (KSym symbols.other) schema) /\
  e = node_value_opt (lookup (KSym symbols.error) schema).
Proof.
  unfold validateObjectSchema. unfold_monad. intros H.
  destruct (_ && _); [discriminate H|].
  destruct (_ && _); [discriminate H|].
  destruct (find _ _) as [[[s|id] n]|]; try discriminate H;
    injection H as <- <- <-; auto.
Qed.

Definition node_of (sub : pschema) : node :=
  mkNode (schema_value (embed sub)) (inspect (doInspect (embed sub))).

Definition member_of (sub : pschema)
  : value * (value -> option pkey -> list (list pkey * value)) :=
  (schema_value (embed sub), outcomes sub).

Lemma object_nodes_embed props :
  object_nodes (map (fun e => (fst e, embed (snd e))) props)
  = map (on_snd node_of) props.
Proof.
  unfold object_nodes. rewrite map_map. apply map_ext. now intros [k sub].
Qed.

Lemma flat_map_filter_map {A B C} (g : A -> B) (keep : B -> bool)
  (f : B -> list C) (l : list A) :
  flat_map f (filter keep (map g l))
  = flat_map (fun x => if keep (g x) then f (g x) else []) l.
Proof.
  induction l as [|x l IH]; simpl; [reflexivity|].
  destruct (keep (g x)); simpl; now rewrite IH.
Qed.

Lemma flat_map_filter {A C} (keep : A -> bool) (f : A -> list C) (l : list A) :
  flat_map f (filter keep l) = flat_map (fun x => if keep x then f x else []) l.
Proof.
  induction l as [|x l IH]; simpl; [reflexivity|].
  destruct (keep x); simpl; now rewrite IH.
Qed.

Definition pure_props (props : list (key * pschema)) : Prop :=
  Forall (fun e => pure_ok (outcomes (snd e))
                     (inspect (doInspect (embed (snd e))))) props.

Lemma post_bind_ext {A B} (m m' : M A) (f : A -> M B) st Q :
  (forall st, m st = m' st) -> post (bind m' f) st Q -> post (bind m f) st Q.
Proof. intros H. unfold post, bind. now rewrite H. Qed.

Lemma inspectObject_pure props v st :
  pure_props props -> errorPath st = None -> safeMap st = [] ->
  (finished st = true -> X) ->
  (forall e st', validateObjectSchema (map (on_snd node_of) props) st = (Exn e, st')
                 -> X) ->
  post (inspectObject (map (on_snd node_of) props) v) st
    (pure_post
       (inner_path (path st) (object_outcomes (map (on_snd member_of) props) v))
       (result_of (object_outcomes (map (on_snd member_of) props) v)) st).
Proof.
  intros Hp He Hs HX Hval. unfold pure_props in Hp. rewrite Forall_forall in Hp.
  unfold inspectObject. apply post_bind. apply post_intro. intros o st0 E.
  destruct o as [[c e]|x]; [|exact (Hval _ _ E)].
  apply validateObjectSchema_ok in E. destruct E as (-> & Hc & Hx).
  rewrite lookup_map in Hc, Hx.
  unfold object_outcomes. rewrite !lookup_map.
  destruct (matchers.object v) eqn:Eo; cbn [negb].
  2:{ wp. assert (Ex : e = match option_map member_of (lookup (KSym symbols.error) props)
                            with Some m => fst m | None => undefined end).
      { rewrite Hx. now destruct (lookup (KSym symbols.error) props). }
      rewrite <- Ex. unfold result_of, inner_path, first_failure. cbn [find snd].
      unfold or_else. destruct (truthy e) eqn:Et; [rewrite Et|]; cbn [snd];
        (split; [reflexivity|]); exists (observed st);
        rewrite <- He; apply with_ghost_same. }
  rewrite !allEntries_map.
  rewrite (flat_map_filter_map (on_snd member_of) (fun e => negb (reserved (fst e)))).
  rewrite (flat_map_filter (fun e => negb (has_key (fst e) (map (on_snd member_of) props)))).
  apply (post_bind_ext _ (for_of (allEntries props) (fun e : key * pschema =>
    if reserved (fst e) then ret None
    else
      subvalue <- member v (fst e) ;;
      error <- inspectKey (node_of (snd e)) subvalue (PKey (fst e)) ;;
      ret (if truthy error then Some error else None)))).
  { intros st1. rewrite for_of_map. apply for_of_ext. now intros [k sub] st2. }
  apply two_loops_pure; [exact He| |].
  - intros [k sub] log Hin. cbn [fst snd on_snd member_of].
    destruct (reserved k); cbn [negb].
    { wp. split; [reflexivity|]. now exists log. }
    wp. apply post_intro. intros o1 st1 Em.
    rewrite member_pure in Em by exact Hs. injection Em as <- <-. wp.
    eapply post_weaken.
    { apply (inspectKey_pure (node_of sub) (outcomes sub)); [|reflexivity|exact Hs|exact HX].
      apply (Hp (k, sub)). now apply In_allEntries. }
    intros [r|x] st2 H; [|exact H]. destruct H as [-> [log2 ->]]. wp.
    rewrite early_under, early_result. split; [reflexivity|]. now exists log2.
  - intros [k x] log Hin. cbn [fst snd].
    rewrite !has_key_map.
    destruct (negb (has_key k props)).
    2:{ wp. split; [reflexivity|]. now exists log. }
    destruct (lookup (KSym symbols.other) props) as [csub|] eqn:El;
      cbn [option_map node_value_opt node_value node_of member_of spec_catch] in *.
    2:{ subst c. wp. split; [reflexivity|]. now exists log. }
    destruct (matchers.undefined (schema_value (embed csub))); subst c.
    { wp. split; [reflexivity|]. now exists log. }
    wp. eapply post_weaken.
    { apply (inspectKey_pure (node_of csub) (outcomes csub)); [|reflexivity|exact Hs|exact HX].
      destruct (lookup_In _ _ _ El) as [k' Hk']. apply (Hp (k', csub) Hk'). }
    intros [r|y] st2 H; [|exact H]. destruct H as [-> [log2 ->]]. wp.
    rewrite early_under, early_result. split; [reflexivity|]. now exists log2.
Qed.

Lemma find_map {A B} (g : A -> B) (keep : B -> bool) (l : list A) :
  find keep (map g l) = option_map g (find (fun x => keep (g x)) l).
Proof.
  induction l as [|x l IH]; simpl; [reflexivity|]. now destruct (keep (g x)).
Qed.

Lemma find_ext {A} (f g : A -> bool) (l : list A) :
  (forall x, f x = g x) -> find f l = find g l.
Proof.
  intros H. induction l as [|x l IH]; simpl; [reflexivity|].
  rewrite H. now destruct (g x).
Qed.

Definition flatten {A} (o : option (option A)) : option A :=
  match o with Some (Some a) => Some a | _ => None end.

Lemma after_end_result rest : forall f t st f' t' st',
  after_end rest f t st = (Ok (f', t'), st') ->
  f' = match f with
       | Some _ => f
       | None => flatten (find (fun o => is_callback (option_map node_value o)) rest)
       end /\
  t' = match t with
       | Some _ => t
       | None => flatten (find (fun o => is_override (option_map node_value o)) rest)
       end.
Proof.
  induction rest as [|o rest IH]; intros f t st f' t' st' H; cbn [after_end] in H.
  - injection H as <- <- _. now destruct f, t.
  - destruct o as [n|]; [|discriminate H].
    rewrite is_end_marker in H. cbn [find option_map is_callback is_override].
    destruct (is_marker (Some (node_value n))) eqn:Em; [discriminate H|].
    cbn [negb andb].
    destruct (matchers.function (node_value n)) eqn:Ef; cbn [negb andb].
    + destruct f; [discriminate H|].
      destruct (IH _ _ _ _ _ _ H) as [-> ->]. now split.
    + destruct (truthy (node_value n)) eqn:Et; [|discriminate H].
      destruct t; [discriminate H|].
      destruct (IH _ _ _ _ _ _ H) as [-> ->]. now split.
Qed.

Lemma validateArraySchema_ok nodes st m c e st' :
  validateArraySchema nodes st = (Ok (m, c, e), st') ->
  st' = st /\ m = regular_length (node_values nodes) /\
  c = flatten (find (fun o => is_callback (option_map node_value o))
                 (skipn (m + 1) nodes)) /\
  e = node_value_opt
        (flatten (find (fun o => is_override (option_map node_value o))
                    (skipn (m + 1) nodes))).
Proof.
  intros H.
  pose proof (post_elim _ _ _ _ _ (validateArraySchema_post nodes st) H) as (-> & Hm & _).
  cbn [fst] in Hm. subst m. rewrite <- find_endIndex_regular.
  split; [reflexivity|]. split; [reflexivity|].
  unfold validateArraySchema in H. unfold bind at 1 in H.
  destruct (match find misplaced_in_array nodes with _ => _ end st)
    as [[[]|x] st1] eqn:E0; [|discriminate H].
  assert (st1 = st).
  { destruct (find misplaced_in_array nodes) as [o|].
    - destruct (node_value_opt o) as [[]| | | | | |]; unfold_monad; congruence.
    - unfold_monad. congruence. }
  subst st1. cbv zeta in H. unfold bind at 1 in H.
  destruct (when _ _ st) as [[[]|x] st2] eqn:E1; [|discriminate H].
  assert (st2 = st).
  { destruct (Nat.ltb _ _); unfold_monad; congruence. }
  subst st2. unfold bind in H.
  destruct (after_end _ None None st) as [[[f t]|x] st3] eqn:Ea; [|discriminate H].
  injection H as <- <- _. cbn [fst snd].
  destruct (after_end_result _ _ _ _ _ _ _ Ea) as [-> ->]. now split.
Qed.

Definition pure_items (items : list (option pschema)) : Prop :=
  Forall (fun o => match o with
                   | Some sub => pure_ok (outcomes sub)
                                   (inspect (doInspect (embed sub)))
                   | None => True
                   end) items.

Lemma array_nodes_embed items :
  array_nodes (map (option_map embed) items) = map (option_map node_of) items.
Proof.
  unfold array_nodes. rewrite map_map. apply map_ext. now intros [sub|].
Qed.

Lemma pure_default : pure_ok (fun _ _ => []) (fun _ => ret jfalse).
Proof.
  intros v st He Hs HX. wp. split; [reflexivity|]. exists (observed st).
  unfold path_of, first_failure. cbn [find]. rewrite <- He. apply with_ghost_same.
Qed.

Lemma inspectArray_pure items v st :
  pure_items items -> errorPath st = None -> safeMap st = [] ->
  (finished st = true -> X) ->
  (forall e st', validateArraySchema (map (option_map node_of) items) st = (Exn e, st')
                 -> X) ->
  post (inspectArray (map (option_map node_of) items) v) st
    (pure_post
       (inner_path (path st) (array_outcomes (map (option_map member_of) items) v))
       (result_of (array_outcomes (map (option_map member_of) items) v)) st).
Proof.
  intros Hp He Hs HX Hval. unfold pure_items in Hp. rewrite Forall_forall in Hp.
  unfold inspectArray. apply post_bind. apply post_intro. intros o st0 E.
  destruct o as [[[m c] e]|x]; [|exact (Hval _ _ E)].
  apply validateArraySchema_ok in E. destruct E as (-> & Hm & Hc & Hx).
  assert (Hv : node_values (map (option_map node_of) items)
               = map (option_map fst) (map (option_map member_of) items)).
  { unfold node_values. rewrite !map_map. apply map_ext. now intros [sub|]. }
  rewrite Hv in Hm. rewrite skipn_map, find_map in Hc, Hx.
  unfold array_outcomes. cbv zeta. rewrite <- Hm. rewrite skipn_map, !find_map.
  destruct v as [p|i|xs|props|u|name|]; cbn [matchers.array negb];
    try (wp; subst e;
         rewrite (find_ext
                    (fun o => is_override (option_map node_value (option_map node_of o)))
                    (fun o => is_override (option_map fst (option_map member_of o))))
           by (now intros [sub|]);
         destruct (find (fun o => is_override (option_map fst (option_map member_of o)))
                     (skipn (m + 1) items)) as [[sub|]|];
         cbn [option_map flatten node_value_opt node_value node_of member_of fst];
         apply shape_mismatch_post; exact He).
  change (array_length (VArr xs)) with (List.length xs).
  change (element (VArr xs)) with (item xs).
  apply two_loops_pure; [exact He| |].
  - intros index log Hin. unfold schema_at. rewrite !nth_error_map.
    destruct (nth_error items index) as [[sub|]|] eqn:En; cbn [option_map].
    + wp. eapply post_weaken.
      { apply (inspectKey_pure (node_of sub) (outcomes sub)); [|reflexivity|exact Hs|exact HX].
        apply (Hp (Some sub)). eapply nth_error_In; eassumption. }
      intros [r|y] st2 H; [|exact H]. destruct H as [-> [log2 ->]]. wp.
      cbn [member_of snd]. rewrite early_under, early_result.
      split; [reflexivity|]. now exists log2.
    + wp. eapply post_weaken.
      { apply (inspectKey_pure _ (fun _ _ => [])); [|reflexivity|exact Hs|exact HX].
        apply pure_default. }
      intros [r|y] st2 H; [|exact H]. destruct H as [-> [log2 ->]]. wp.
      split; [reflexivity|]. now exists log2.
    + wp. eapply post_weaken.
      { apply (inspectKey_pure _ (fun _ _ => [])); [|reflexivity|exact Hs|exact HX].
        apply pure_default. }
      intros [r|y] st2 H; [|exact H]. destruct H as [-> [log2 ->]]. wp.
      split; [reflexivity|]. now exists log2.
  - intros index log Hin. subst c.
    rewrite (find_ext
               (fun o => is_callback (option_map node_value (option_map node_of o)))
               (fun o => is_callback (option_map fst (option_map member_of o))))
      by (now intros [sub|]).
    destruct (find (fun o => is_callback (option_map fst (option_map member_of o)))
                (skipn (m + 1) items)) as [[sub|]|] eqn:Ef;
      cbn [option_map flatten].
    + wp. eapply post_weaken.
      { apply (inspectKey_pure (node_of sub) (outcomes sub)); [|reflexivity|exact Hs|exact HX].
        apply (Hp (Some sub)). apply find_some in Ef. eapply In_skipn. apply Ef. }
      intros [r|y] st2 H; [|exact H]. destruct H as [-> [log2 ->]]. wp.
      cbn [member_of snd]. rewrite early_under, early_result.
      split; [reflexivity|]. now exists log2.
    + wp. split; [reflexivity|]. now exists log.
    + wp. split; [reflexivity|]. now exists log.
Qed.

Lemma result_truthy l :
  truthy (result_of l) = match first_failure l with Some _ => true | None => false end.
Proof.
  unfold result_of. destruct (first_failure l) as [o|] eqn:E; [|reflexivity].
  now apply first_failure_truthy in E.
Qed.

(** A container: [inspectDeeper] around its inspection, [inspect] around
    that, which latches the path of the container for an error of its own. *)
Lemma container_pure (inspector : value -> M value)
  (outs : value -> list (list pkey * value)) :
  (forall v st, errorPath st = None -> safeMap st = [] ->
     (finished st = true -> X) ->
     post (inspector v) st
       (pure_post (inner_path (path st) (outs v)) (result_of (outs v)) st)) ->
  pure_ok (fun v _ => outs v) (inspect (inspectDeeper inspector)).
Proof.
  intros Hi v st He Hs HX. unfold inspect, inspectDeeper. wp.
  eapply post_weaken; [apply (Hi v (set_funnel (push v) st) He Hs HX)|].
  intros [r|e] st1 H; [|exact H]. destruct H as [-> [log ->]]. wp.
  rewrite result_truthy. unfold path_of, inner_path, result_of.
  destruct (first_failure (outs v)) as [[rel r]|] eqn:Ef.
  - apply post_intro. intros o st' E. fields. cbn [errorPath] in E.
    destruct rel as [|k rel]; injection E as <- <-; wp;
      (split; [reflexivity|]); exists log; fields;
      rewrite pop_push, ?app_nil_r; reflexivity.
  - wp. split; [reflexivity|]. exists log. fields. now rewrite pop_push.
Qed.

(** The schemas on which [validateObjectSchema] and [validateArraySchema]
    throw only when [X] holds. *)
Fixpoint sound (ps : pschema) : Prop :=
  match ps with
  | PObj props =>
      (forall st e st',
          validateObjectSchema (map (on_snd node_of) props) st = (Exn e, st') -> X) /\
      (fix all (l : list (key * pschema)) : Prop :=
         match l with
         | [] => True
         | e :: r => sound (snd e) /\ all r
         end) props
  | PArr items =>
      (forall st e st',
          validateArraySchema (map (option_map node_of) items) st = (Exn e, st') -> X) /\
      (fix all (l : list (option pschema)) : Prop :=
         match l with
         | [] => True
         | Some sub :: r => sound sub /\ all r
         | None :: r => all r
         end) items
  | _ => True
  end.

(** On a schema with pure callbacks the engine computes the result of the
    specification, and latches its path. *)
Theorem pure_engine (ps : pschema) :
  sound ps -> pure_ok (outcomes ps) (inspect (doInspect (embed ps))).
Proof.
  induction ps as [id f|props IH|items IH|p] using pschema_holds; intros Hsound.
  - apply pure_callback.
  - change (doInspect (embed (PObj props)))
      with (inspectDeeper (inspectObject
              (object_nodes (map (fun e => (fst e, embed (snd e))) props)))).
    rewrite object_nodes_embed. destruct Hsound as [Hval Hall].
    assert (Hp : pure_props props).
    { unfold pure_props. clear Hval.
      induction props as [|e r IHr]; constructor.
      - inversion IH; subst. apply H1, Hall.
      - inversion IH; subst. apply IHr; [assumption | apply Hall]. }
    apply (container_pure _ (object_outcomes (map (on_snd member_of) props))).
    intros v st He Hs HX. apply inspectObject_pure; auto.
    intros e st'. apply Hval.
  - change (doInspect (embed (PArr items)))
      with (inspectDeeper (inspectArray
              (array_nodes (map (option_map embed) items)))).
    rewrite array_nodes_embed. destruct Hsound as [Hval Hall].
    assert (Hp : pure_items items).
    { unfold pure_items. clear Hval.
      induction items as [|[sub|] r IHr]; constructor.
      - inversion IH; subst. apply H1, Hall.
      - inversion IH; subst. apply IHr; [assumption | apply Hall].
      - exact I.
      - inversion IH; subst. apply IHr; assumption. }
    apply (container_pure _ (array_outcomes (map (option_map member_of) items))).
    intros v st He Hs HX. apply inspectArray_pure; auto.
    intros e st'. apply Hval.
  - apply pure_literal.
Qed.

End Pure.



(** *** Schemas that pass the checks of the engine *)

(** The checks of [validateObjectSchema], on the values of the entries. *)
Definition object_schema_ok (vals : list (key * value)) : bool :=
  let other := match lookup (KSym symbols.other) vals with
               | Some x => x
               | None => undefined
               end in
  let error := match lookup (KSym symbols.error) vals with
               | Some x => x
               | None => undefined
               end in
  negb (negb (matchers.undefined other) && negb (matchers.function other))
  && negb (matchers.defined error && (matchers.function error || negb (truthy error)))
  && negb (existsb (fun e => match fst e with
                             | KSym id => Nat.eqb id symbols.end_
                             | KStr _ => false
                             end) vals).

(** The checks of [validateArraySchema], on the values of the elements. *)
Definition array_schema_ok (items : list (option schema)) : bool :=
  negb (existsb (fun o => match o with
                          | Some (VPrim (PSym id)) =>
                              negb (Nat.eqb id symbols.end_) && in_symbolList id
                          | _ => false
                          end) (item_values items))
  && negb (malformed items).

Fixpoint well_formed (ps : pschema) : bool :=
  match ps with
  | PObj props =>
      object_schema_ok (map (fun e => (fst e, schema_value (embed (snd e)))) props)
      && forallb (fun e => well_formed (snd e)) props
  | PArr items =>
      array_schema_ok (map (option_map embed) items)
      && forallb (fun o => match o with Some sub => well_formed sub | None => true end)
                 items
  | _ => true
  end.

Lemma existsb_map_ext {A B} (g : A -> B) (p : B -> bool) (q : A -> bool) l :
  (forall x, p (g x) = q x) -> existsb p (map g l) = existsb q l.
Proof.
  intros H. induction l as [|x l IH]; simpl; [reflexivity|]. now rewrite H, IH.
Qed.

Lemma find_filter_none {A} (p q : A -> bool) (l : list A) :
  existsb p l = false -> find p (filter q l) = None.
Proof.
  induction l as [|x l IH]; simpl; [reflexivity|].
  intros H. apply orb_false_iff in H. destruct H as [Hx Hl].
  destruct (q x); simpl; [rewrite Hx|]; auto.
Qed.

Lemma find_none_existsb {A} (p : A -> bool) (l : list A) :
  existsb p l = false -> find p l = None.
Proof.
  induction l as [|x l IH]; simpl; [reflexivity|].
  intros H. apply orb_false_iff in H. destruct H as [-> Hl]. auto.
Qed.

Lemma validateObjectSchema_total (nodes : list (key * node)) st :
  object_schema_ok (map (on_snd node_value) nodes) = true ->
  exists r, validateObjectSchema nodes st = (Ok r, st).
Proof.
  unfold object_schema_ok. rewrite !lookup_map. intros H.
  apply andb_prop in H. destruct H as [H H3]. apply andb_prop in H.
  destruct H as [H1 H2].
  apply negb_true_iff in H1, H2, H3.
  unfold validateObjectSchema.
  replace (node_value_opt (lookup (KSym symbols.other) nodes))
    with (match option_map node_value (lookup (KSym symbols.other) nodes) with
          | Some x => x | None => undefined end)
    by (now destruct (lookup (KSym symbols.other) nodes)).
  replace (node_value_opt (lookup (KSym symbols.error) nodes))
    with (match option_map node_value (lookup (KSym symbols.error) nodes) with
          | Some x => x | None => undefined end)
    by (now destruct (lookup (KSym symbols.error) nodes)).
  rewrite H1, H2. unfold_monad. unfold symbol_entries.
  rewrite (find_filter_none misplaced_in_object); [eauto|].
  rewrite <- H3. symmetry. apply existsb_map_ext.
  intros [[s|id] n]; cbn; [reflexivity|].
  unfold in_symbolList, symbolList, symbols.other, symbols.error, symbols.end_.
  destruct id as [|[|[|id]]]; reflexivity.
Qed.

Lemma after_end_total rest : forall f t st,
  counts_ok (node_values rest) f t ->
  exists r, after_end rest f t st = (Ok r, st).
Proof.
  unfold counts_ok, count.
  induction rest as [|o rest IH]; intros f t st (H1 & H2 & H3 & H4); cbn [after_end].
  - unfold ret. eauto.
  - cbn [node_values map option_map filter] in H1, H2, H3, H4.
    fold (node_values rest) in H1, H2, H3, H4.
    destruct o as [n|]; [|discriminate H1].
    rewrite is_end_marker. cbn [option_map] in H1, H2, H3, H4.
    unfold is_callback at 1 in H3. unfold is_override at 1 in H4.
    unfold is_falsy_override at 1 in H2.
    destruct (is_marker (Some (node_value n))) eqn:Em; [discriminate H1|].
    cbn [negb andb] in H2, H4.
    destruct (matchers.function (node_value n)) eqn:Ef; cbn [negb andb] in H2, H4.
    + destruct f; [cbn [List.length taken] in H3; lia|].
      apply IH. cbn [List.length taken] in *. repeat split; try assumption; lia.
    + destruct (truthy (node_value n)) eqn:Et; cbn [negb andb] in H2, H4;
        [|discriminate H2].
      destruct t; [cbn [List.length taken] in H4; lia|].
      apply IH. cbn [List.length taken] in *. repeat split; try assumption; lia.
Qed.

Lemma validateArraySchema_total items st :
  array_schema_ok items = true ->
  exists r, validateArraySchema (array_nodes items) st = (Ok r, st).
Proof.
  unfold array_schema_ok. intros H. apply andb_prop in H. destruct H as [H1 H2].
  apply negb_true_iff in H1, H2.
  unfold malformed in H2. rewrite <- node_values_array_nodes in H1, H2.
  set (nodes := array_nodes items) in *.
  unfold validateArraySchema.
  assert (E : find misplaced_in_array nodes = None).
  { apply find_none_existsb. rewrite <- H1. unfold node_values. symmetry.
    apply existsb_map_ext. intros [n|]; [|reflexivity].
    unfold misplaced_in_array. cbn. now destruct (node_value n) as [[]| | | | | |]. }
  rewrite E. cbv zeta in H2.
  repeat (apply orb_false_iff in H2; destruct H2 as [H2 ?]).
  repeat match goal with
         | H : Nat.ltb _ _ = false |- _ => apply Nat.ltb_ge in H
         end.
  assert (El : Nat.ltb (find_endIndex nodes + 3) (List.length nodes) = false).
  { apply Nat.ltb_ge.
    assert (List.length (after_marker (node_values nodes))
            = List.length nodes - (find_endIndex nodes + 1)).
    { unfold after_marker. rewrite length_skipn. unfold node_values at 1.
      now rewrite length_map, <- find_endIndex_regular. }
    lia. }
  unfold_monad. rewrite El.
  destruct (after_end_total (skipn (find_endIndex nodes + 1) nodes) None None st)
    as [r Hr].
  { rewrite node_values_skipn, find_endIndex_regular.
    fold (after_marker (node_values nodes)).
    unfold counts_ok. cbn [taken]. lia. }
  rewrite Hr. eauto.
Qed.

Lemma well_formed_sound (ps : pschema) : well_formed ps = true -> sound False ps.
Proof.
  induction ps as [id f|props IH|items IH|p] using pschema_holds;
    cbn [well_formed sound]; auto; intros H; apply andb_prop in H;
    destruct H as [Hok Hall]; split.
  - intros st e st' E.
    assert (Hok' : object_schema_ok
                     (map (on_snd node_value) (map (on_snd node_of) props)) = true).
    { rewrite <- Hok. f_equal. rewrite map_map. apply map_ext. now intros [k sub]. }
    destruct (validateObjectSchema_total _ st Hok') as [r Hr].
    rewrite Hr in E. discriminate E.
  - clear Hok. induction IH as [|e r He Hr IHr]; [exact I|].
    cbn [forallb] in Hall. apply andb_prop in Hall. destruct Hall as [H1 H2].
    split; [auto | exact (IHr H2)].
  - intros st e st' E. rewrite <- array_nodes_embed in E.
    destruct (validateArraySchema_total (map (option_map embed) items) st Hok)
      as [r Hr].
    rewrite Hr in E. discriminate E.
  - clear Hok. induction IH as [|[sub|] r He Hr IHr]; [exact I| |].
    + cbn [forallb] in Hall. apply andb_prop in Hall. destruct Hall as [H1 H2].
      split; [auto | exact (IHr H2)].
    + cbn [forallb] in Hall. exact (IHr Hall).
Qed.

(** On a well-formed schema with pure callbacks a top-level call on a fresh
    instance returns, with the result and the path of the specification. *)
Lemma pure_top_level_total ps v n :
  well_formed ps = true ->
  exists st', nv v (embed ps) (createInstance n) = (Ok (spec_result ps v), st') /\
              errorPath st' = spec_errorPath ps v /\ finished st' = true.
Proof.
  intros Hwf. rewrite nv_fresh. unfold inspect_schema.
  assert (HX : finished (entered n) = true -> False) by discriminate.
  pose proof (pure_engine False ps (well_formed_sound ps Hwf) v (entered n)
                eq_refl eq_refl HX) as H.
  unfold post in H.
  destruct (inspect (doInspect (embed ps)) v (entered n)) as [[r|e] st2];
    cbn [fst snd] in H; [|contradiction].
  destruct H as [-> [log ->]]. eexists. repeat split.
Qed.






(** * Further properties of the engine *)

(** ** Literals *)

Lemma prim_strict_eq_iff (a b : prim) :
  prim_strict_eq a b = true <-> a = b /\ b <> PNaN.
Proof.
  split.
  - destruct a, b; simpl; intros H; try discriminate H;
      try (split; [reflexivity | discriminate]).
    + apply Bool.eqb_prop in H. subst. split; [reflexivity | discriminate].
    + apply Z.eqb_eq in H. subst. split; [reflexivity | discriminate].
    + apply Bool.eqb_prop in H. subst. split; [reflexivity | discriminate].
    + apply String.eqb_eq in H. subst. split; [reflexivity | discriminate].
    + apply Nat.eqb_eq in H. subst. split; [reflexivity | discriminate].
    + apply Z.eqb_eq in H. subst. split; [reflexivity | discriminate].
  - intros [-> Hn]. destruct b; simpl; try reflexivity.
    + apply Bool.eqb_reflx.
    + apply Z.eqb_refl.
    + now elim Hn.
    + apply Bool.eqb_reflx.
    + apply String.eqb_refl.
    + apply Nat.eqb_refl.
    + apply Z.eqb_refl.
Qed.

Lemma nv_literal v p n :
  nv v (SLit p) (createInstance n)
  = (Ok (VPrim (PBool (strict_neq_prim v p))),
     basicReset true
       (set_errorPath (if strict_neq_prim v p then Some [] else None)
          (createInstance n))).
Proof.
  rewrite nv_fresh. unfold inspect_schema, inspect. cbn [doInspect].
  unfold bind, ret, modify. cbn [truthy].
  destruct (strict_neq_prim v p); reflexivity.
Qed.

(** X1: a schema that is a primitive value accepts the value identical to
    it and nothing else: the top-level call on a fresh instance returns
    [false] exactly for that value, provided the primitive is not [NaN], and
    [true] for every other value, with the empty path as the error path. *)
Theorem literal_schema_accepts_the_identical_value (v : value) (p : prim) (n : nat) :
  (fst (nv v (SLit p) (createInstance n)) = Ok jfalse <-> v = VPrim p /\ p <> PNaN) /\
  (fst (nv v (SLit p) (createInstance n)) = Ok jtrue <-> ~ (v = VPrim p /\ p <> PNaN)) /\
  (fst (nv v (SLit p) (createInstance n)) = Ok jtrue ->
   errorPath (snd (nv v (SLit p) (createInstance n))) = Some []) /\
  (fst (nv v (SLit p) (createInstance n)) = Ok jfalse ->
   errorPath (snd (nv v (SLit p) (createInstance n))) = None).
Proof.
  rewrite nv_literal. cbn [fst snd].
  assert (E : strict_neq_prim v p = false <-> v = VPrim p /\ p <> PNaN).
  { destruct v as [q| | | | | |]; cbn [strict_neq_prim];
      try (split; [discriminate | intros [H _]; discriminate H]).
    rewrite negb_false_iff, prim_strict_eq_iff.
    split; intros [H1 H2]; split; congruence. }
  destruct (strict_neq_prim v p); cbn [fst snd errorPath basicReset set_errorPath].
  - split; [|split; [|split]].
    + split; [discriminate | intros H; apply E in H; discriminate H].
    + split; [intros _ H; apply E in H; discriminate H | reflexivity].
    + reflexivity.
    + discriminate.
  - split; [|split; [|split]].
    + split; [intros _; now apply E | reflexivity].
    + split; [discriminate | intros H; elim H; now apply E].
    + discriminate.
    + reflexivity.
Qed.

Lemma literal_schema_witness :
  errorPath (snd (nv (VPrim (PNum 1)) (SLit (PStr "1")) (createInstance 0))) = Some [].
Proof.
  apply (proj1 (proj2 (proj2
           (literal_schema_accepts_the_identical_value
              (VPrim (PNum 1)) (PStr "1") 0)))).
  reflexivity.
Defined.

(** ** The built-in matchers *)

(** The matchers that test the type of a value. *)
Definition type_matchers : list (value -> bool) :=
  [matchers.number; matchers.string; matchers.boolean; matchers.null;
   matchers.undefined; matchers.bigint; matchers.symbol; matchers.function;
   matchers.array; matchers.object].

Definition non_finite (v : value) : bool :=
  match v with VPrim PNaN | VPrim (PInf _) => true | _ => false end.

(** X2: the ten matchers that test a type are mutually exclusive, and
    together they cover every value but [NaN] and the two infinities, which
    no matcher accepts: [number] asks for a finite number.  [defined] is the
    negation of [undefined], and [get] returns its argument. *)
Theorem type_matchers_partition_the_values (v : value) :
  List.length (filter (fun m => m v) type_matchers)
  = (if non_finite v then 0 else 1) /\
  matchers.defined v = negb (matchers.undefined v) /\
  matchers.get v = v.
Proof.
  split; [|split; reflexivity].
  destruct v as [[| |b|z| |b|s|i|z]|i|items|props|u|name|]; reflexivity.
Qed.

(** ** The life of an instance *)

(** X3: an instance validates once.  Whatever the first top-level call on a
    fresh instance did, return or throw, it leaves the session finished,
    with empty stacks; every further call of the instance, with one argument
    or two, throws 'To validate another value, use nonvalid.instance()', and
    so does the call after that; the attempt also clears the error path of
    the validation that was made. *)
Theorem instance_validates_once (v : value) (s : schema) (n : nat) :
  let st := snd (nv v s (createInstance n)) in
  (finished st = true /\ values st = [] /\ funnel st = [] /\ path st = [] /\
   validatorDepth st = 0%Z) /\
  (forall v' s', nv v' s' st = (Exn (Err REUSE), reset true st)) /\
  (forall s', nv1 s' st = (Exn (Err REUSE), reset true st)) /\
  (forall v' s' v'' s'',
      nv v'' s'' (snd (nv v' s' st)) = (Exn (Err REUSE), reset true (reset true st))) /\
  (forall v' s', errorPath_ (snd (nv v' s' st)) = (Ok None, snd (nv v' s' st))).
Proof.
  intros st. pose proof (top_level_Ended v s n) as HE. fold st in HE.
  split; [exact HE|]. split; [|split; [|split]].
  - intros v' s'. apply validator_Ended, HE.
  - intros s'. apply validator_Ended, HE.
  - intros v' s' v'' s''. unfold nv at 2. rewrite (validator_Ended _ _ _ HE).
    cbn [snd]. apply validator_Ended, reset_Ended.
  - intros v' s'. unfold nv. rewrite (validator_Ended _ _ _ HE). reflexivity.
Qed.

(** X4: what a call outside any context does to the instance.  The
    navigation methods [root], [up], [value], [key] and [index], and the
    instance called with a schema alone, throw after a reset, which ends the
    session: the instance is lost, the next validation is refused.  A
    matcher called without arguments, a matcher called with several,
    [path] and [errorPath] throw and leave the instance as it was. *)
Theorem calls_outside_any_context (st : state) :
  (funnel st = [] ->
   root st = (Exn (Err "root() called outside of any object or array"), reset true st)) /\
  (forall levels, (Z.of_nat (List.length (funnel st)) <= levels)%Z ->
   up levels st
   = (Exn (Err "up() call navigates above any object or array"), reset true st)) /\
  (values st = [] ->
   value_ st = (Exn (Err "value() called outside of any context"), reset true st)) /\
  (path st = [] ->
   key_ st = (Exn (Err "key() called outside of any context"), reset true st) /\
   index st = (Exn (Err "index() called outside of any context"), reset true st)) /\
  (forall sch, validatorDepth st = 0%Z -> finished st = false -> values st = [] ->
   validator None sch st
   = (Exn (Err "Validator called with no value outside of any context"),
      reset true (set_validatorDepth Z.succ (set_started true st)))) /\
  (forall msg v s,
   nv v s (snd (resetAndThrow (A := value) msg st))
   = (Exn (Err REUSE), reset true (reset true st))) /\
  (forall matcher name, values st = [] ->
   enhanceMatcher matcher name NoArgs st
   = (Exn (Err (name ++ "() called without arguments outside of any context")), st)) /\
  (forall matcher name,
   enhanceMatcher matcher name ManyArgs st
   = (Exn (Err "Matchers are supposed to be run with exactly one or no arguments"),
      st)) /\
  snd (path_ st) = st /\ snd (errorPath_ st) = st.
Proof.
  split; [|split; [|split; [|split; [|split; [|split; [|split; [|split; [|split]]]]]]]].
  - intros H. unfold root. unfold_monad. now rewrite H.
  - intros levels H. unfold up. unfold_monad.
    apply Z.leb_le in H. now rewrite H.
  - intros H. unfold value_. unfold_monad. now rewrite H.
  - intros H. unfold key_, index, currentKey. unfold_monad. now rewrite H.
  - intros sch Hd Hf Hv. unfold validator. unfold_monad. cbv beta.
    rewrite Hd. cbn [Z.eqb]. cbv beta iota zeta. rewrite Hf. cbv beta iota zeta.
    cbn [values set_validatorDepth set_started]. now rewrite Hv.
  - intros msg v s. apply validator_Ended, reset_Ended.
  - intros matcher name H. cbn. unfold_monad. now rewrite H.
  - reflexivity.
  - unfold path_. destruct (finished st); [reflexivity|]. now destruct (started st).
  - unfold errorPath_. now destruct (finished st).
Qed.

Lemma calls_outside_any_context_witness :
  root (createInstance 0)
  = (Exn (Err "root() called outside of any object or array"),
     reset true (createInstance 0)).
Proof. apply (proj1 (calls_outside_any_context (createInstance 0))). reflexivity. Defined.

(** ** Navigation *)

(** X5: [up(levels)] returns the container that encloses the current value
    [levels] containers above the innermost (wrapped in safe mode), throws
    after a reset when there are no more than [levels] containers, and
    returns [undefined] without throwing for a negative [levels], even
    outside any container; [up] with the number of containers less one is
    [root()]; [up()] is the container that [inspectDeeper] has just
    entered, and entering a container within another leaves [root()] what
    it was. *)
Theorem up_reaches_the_enclosing_containers (st : state) (levels : Z) :
  ((0 <= levels < Z.of_nat (List.length (funnel st)))%Z ->
   up levels st = wrapIfSafe (nth (Z.to_nat levels) (List.rev (funnel st)) undefined) st) /\
  ((Z.of_nat (List.length (funnel st)) <= levels)%Z ->
   up levels st
   = (Exn (Err "up() call navigates above any object or array"), reset true st)) /\
  ((levels < 0)%Z -> up levels st = wrapIfSafe undefined st) /\
  (funnel st <> [] ->
   up (Z.of_nat (List.length (funnel st)) - 1) st = root st) /\
  (forall v, up 0 (set_funnel (push v) st) = wrapIfSafe v (set_funnel (push v) st)) /\
  (forall v, funnel st <> [] -> fst (root (set_funnel (push v) st)) = fst (root st)).
Proof.
  unfold up, root. unfold_monad.
  split; [|split; [|split; [|split; [|split]]]].
  - intros H. destruct (Z.leb_spec (Z.of_nat (List.length (funnel st))) levels); [lia|].
    destruct (Z.ltb_spec (Z.of_nat (List.length (funnel st)) - 1 - levels)
                (Z.of_nat (List.length (funnel st)))); [|lia].
    rewrite rev_nth by lia. do 2 f_equal. lia.
  - intros H. apply Z.leb_le in H. now rewrite H.
  - intros H. destruct (Z.leb_spec (Z.of_nat (List.length (funnel st))) levels); [lia|].
    destruct (Z.ltb_spec (Z.of_nat (List.length (funnel st)) - 1 - levels)
                (Z.of_nat (List.length (funnel st)))); [lia|]. reflexivity.
  - intros H. destruct (funnel st) as [|x f] eqn:E; [now elim H|].
    cbn [List.length Nat.eqb].
    destruct (Z.leb_spec (Z.of_nat (S (List.length f))) (Z.of_nat (S (List.length f)) - 1));
      [lia|].
    destruct (Z.ltb_spec (Z.of_nat (S (List.length f)) - 1
                          - (Z.of_nat (S (List.length f)) - 1))
                (Z.of_nat (S (List.length f)))); [|lia].
    replace (Z.of_nat (S (List.length f)) - 1 - (Z.of_nat (S (List.length f)) - 1))%Z
      with 0%Z by lia.
    reflexivity.
  - intros v. cbn [funnel set_funnel]. rewrite length_push.
    destruct (Z.leb_spec (Z.of_nat (S (List.length (funnel st)))) 0); [lia|].
    destruct (Z.ltb_spec (Z.of_nat (S (List.length (funnel st))) - 1 - 0)
                (Z.of_nat (S (List.length (funnel st))))); [|lia].
    replace (Z.to_nat (Z.of_nat (S (List.length (funnel st))) - 1 - 0))
      with (List.length (funnel st)) by lia.
    unfold push. now rewrite nth_middle.
  - intros v H. cbn [funnel set_funnel]. unfold push, wrapIfSafe.
    destruct (funnel st) as [|x f]; [now elim H|]. reflexivity.
Qed.

Lemma up_witness :
  up 1 (set_funnel (fun _ => [VPrim (PNum 1); VPrim (PNum 2)]) (createInstance 0))
  = wrapIfSafe (VPrim (PNum 1))
      (set_funnel (fun _ => [VPrim (PNum 1); VPrim (PNum 2)]) (createInstance 0)).
Proof.
  apply (proj1 (up_reaches_the_enclosing_containers
           (set_funnel (fun _ => [VPrim (PNum 1); VPrim (PNum 2)]) (createInstance 0))
           1%Z)).
  cbn. lia.
Defined.

(** ** Array schemas: a hole is an end marker *)

Lemma for_of_ext_in {A} (l : list A) body body' st :
  (forall x st, In x l -> body x st = body' x st) ->
  for_of l body st = for_of l body' st.
Proof.
  revert st. induction l as [|x l IH]; intros st H; simpl; [reflexivity|].
  unfold bind. rewrite H by now left.
  destruct (body' x st) as [[[e|]|e] st1]; auto.
  apply IH. intros y st2 Hy. apply H. now right.
Qed.

Lemma bind_ext {A B} (m : M A) (f g : A -> M B) st :
  (forall a st', f a st' = g a st') -> bind m f st = bind m g st.
Proof. intros H. unfold bind. destruct (m st) as [[a|e] st']; auto. Qed.

Lemma bind_cong {A B} (m m' : M A) (f g : A -> M B) st :
  m st = m' st ->
  (forall a st', m' st = (Ok a, st') -> f a st' = g a st') ->
  bind m f st = bind m' g st.
Proof.
  intros Hm H. unfold bind. rewrite Hm.
  destruct (m' st) as [[a|e] st']; auto.
Qed.

(** The node of the end marker written out in an array schema. *)
Definition end_node : node :=
  mkNode (VPrim (PSym symbols.end_))
         (inspect (doInspect (SLit (PSym symbols.end_)))).

Lemma find_hole_or_end (a b : list (option node)) :
  find misplaced_in_array (a ++ None :: b)
  = find misplaced_in_array (a ++ Some end_node :: b).
Proof.
  induction a as [|x a IH]; simpl; [reflexivity|].
  now destruct (misplaced_in_array x).
Qed.

Lemma find_endIndex_hole_or_end (a b : list (option node)) :
  find_endIndex (a ++ None :: b) = find_endIndex (a ++ Some end_node :: b) /\
  find_endIndex (a ++ None :: b) <= List.length a.
Proof.
  induction a as [|[n|] a [IH1 IH2]]; simpl; try (split; [reflexivity | lia]).
  destruct (match node_value n with
            | VPrim (PSym id) => Nat.eqb id symbols.end_
            | _ => false
            end); [split; [reflexivity | lia]|].
  split; [now rewrite IH1 | lia].
Qed.

Lemma after_end_hole_or_end (a b : list (option node)) : forall f t st,
  after_end (a ++ None :: b) f t st = after_end (a ++ Some end_node :: b) f t st.
Proof.
  induction a as [|[n|] a IH]; intros f t st; simpl; try reflexivity.
  destruct (match node_value n with
            | VPrim (PSym id) => Nat.eqb id symbols.end_
            | _ => false
            end); [reflexivity|].
  destruct (matchers.function (node_value n)).
  - destruct f; [reflexivity | apply IH].
  - destruct (truthy (node_value n)); [|reflexivity].
    destruct t; [reflexivity | apply IH].
Qed.

Lemma skipn_hole_or_end (a b : list (option node)) k f t st :
  after_end (skipn k (a ++ None :: b)) f t st
  = after_end (skipn k (a ++ Some end_node :: b)) f t st.
Proof.
  revert k. induction a as [|x a IH]; intros [|k]; simpl; try reflexivity.
  - apply (after_end_hole_or_end (x :: a) b).
  - apply IH.
Qed.

Lemma validateArraySchema_hole_or_end (a b : list (option node)) st :
  validateArraySchema (a ++ None :: b) st
  = validateArraySchema (a ++ Some end_node :: b) st.
Proof.
  unfold validateArraySchema.
  rewrite find_hole_or_end, (proj1 (find_endIndex_hole_or_end a b)).
  rewrite !length_app. cbn [List.length].
  apply bind_ext. intros _ st1. apply bind_ext. intros _ st2.
  unfold bind. now rewrite skipn_hole_or_end.
Qed.

Lemma schema_at_hole_or_end (a b : list (option node)) index :
  index < List.length a ->
  schema_at (a ++ None :: b) index = schema_at (a ++ Some end_node :: b) index.
Proof. intros H. unfold schema_at. now rewrite !nth_error_app1 by exact H. Qed.

Lemma inspectArray_hole_or_end (a b : list (option node)) v st :
  inspectArray (a ++ None :: b) v st = inspectArray (a ++ Some end_node :: b) v st.
Proof.
  unfold inspectArray.
  apply bind_cong; [apply validateArraySchema_hole_or_end|].
  intros [[m c] e] st1 E.
  destruct (negb (matchers.array v)); [reflexivity|].
  assert (Hm : m <= List.length a).
  { pose proof (post_elim _ _ _ _ _ (validateArraySchema_post _ st) E) as (_ & Hm & _).
    cbn [fst] in Hm. subst m.
    rewrite <- (proj1 (find_endIndex_hole_or_end a b)).
    apply find_endIndex_hole_or_end. }
  apply bind_cong; [|reflexivity].
  apply for_of_ext_in. intros index st2 Hin. apply in_seq in Hin.
  rewrite schema_at_hole_or_end by lia. reflexivity.
Qed.

(** X6: in an array schema an empty slot and the end marker [nv.end] are
    interchangeable, wherever they stand: the schema with the one validates
    every value, from every state, exactly as the schema with the other. *)
Theorem hole_is_end_marker (before after : list (option schema)) (v : value)
  (st : state) :
  doInspect (SArr (before ++ None :: after)) v st
  = doInspect (SArr (before ++ Some (SLit (PSym symbols.end_)) :: after)) v st.
Proof.
  change (inspectDeeper (inspectArray (array_nodes (before ++ None :: after))) v st
          = inspectDeeper
              (inspectArray
                 (array_nodes (before ++ Some (SLit (PSym symbols.end_)) :: after)))
              v st).
  unfold array_nodes. rewrite !map_app. cbn [map].
  unfold inspectDeeper, bind, modify.
  fold end_node. now rewrite inspectArray_hole_or_end.
Qed.

(** ** The checks on an object schema *)

(** [schema[symbol]] for an object schema: the member as a value,
    [undefined] when the schema has none. *)
Definition schema_member (id : nat) (props : list (key * schema)) : value :=
  match lookup (KSym id) props with
  | Some sub => schema_value sub
  | None => undefined
  end.

Definition bad_catchOther (props : list (key * schema)) : bool :=
  negb (matchers.undefined (schema_member symbols.other props))
  && negb (matchers.function (schema_member symbols.other props)).

Definition bad_shapeError (props : list (key * schema)) : bool :=
  matchers.defined (schema_member symbols.error props)
  && (matchers.function (schema_member symbols.error props)
      || negb (truthy (schema_member symbols.error props))).

Lemma node_value_object_nodes id props :
  node_value_opt (lookup (KSym id) (object_nodes props)) = schema_member id props.
Proof.
  unfold schema_member.
  induction props as [|[k sub] r IH]; cbn [object_nodes map lookup]; [reflexivity|].
  destruct (key_eqb k (KSym id)); [reflexivity | exact IH].
Qed.

Lemma find_end_key (nodes : list (key * node)) :
  match find misplaced_in_object (symbol_entries nodes) with
  | Some (k, _) => k = KSym symbols.end_ /\ has_key (KSym symbols.end_) nodes = true
  | None => has_key (KSym symbols.end_) nodes = false
  end.
Proof.
  unfold symbol_entries, has_key.
  induction nodes as [|[[s|id] n] r IH]; cbn [filter is_symbol_key fst find lookup key_eqb].
  - reflexivity.
  - exact IH.
  - cbn [misplaced_in_object fst].
    destruct id as [|[|[|id]]]; cbn; try exact IH. now split.
Qed.

Lemma has_key_object_nodes k props :
  has_key k (object_nodes props) = has_key k props.
Proof.
  unfold has_key.
  induction props as [|[k' sub] r IH]; cbn [object_nodes map lookup]; [reflexivity|].
  destruct (key_eqb k' k); [reflexivity | exact IH].
Qed.

(** What [validateObjectSchema] does, by the members of the schema. *)
Lemma validateObjectSchema_checks props st :
  validateObjectSchema (object_nodes props) st =
  if bad_catchOther props
  then (Exn (Err "The catch-other callback must be a function"), reset true st)
  else if bad_shapeError props
  then (Exn (Err "The shape error must be a non-function truthy value"),
        reset true st)
  else if has_key (KSym symbols.end_) props
  then (Exn (Err "Symbol(nonvalid.end) is not expected in an object schema"),
        reset true st)
  else (Ok (if matchers.undefined (schema_member symbols.other props) then None
            else lookup (KSym symbols.other) (object_nodes props),
            schema_member symbols.error props), st).
Proof.
  unfold validateObjectSchema, bad_catchOther, bad_shapeError.
  rewrite !node_value_object_nodes. unfold_monad.
  destruct (negb (matchers.undefined (schema_member symbols.other props))
            && negb (matchers.function (schema_member symbols.other props)));
    [reflexivity|].
  destruct (matchers.defined (schema_member symbols.error props)
            && (matchers.function (schema_member symbols.error props)
                || negb (truthy (schema_member symbols.error props))));
    [reflexivity|].
  pose proof (find_end_key (object_nodes props)) as H.
  rewrite has_key_object_nodes in H.
  destruct (find misplaced_in_object (symbol_entries (object_nodes props)))
    as [[k n]|].
  - destruct H as [-> ->]. reflexivity.
  - rewrite H. reflexivity.
Qed.

Lemma nv_object_schema_throws props v n msg :
  validateObjectSchema (object_nodes props) (set_funnel (push v) (entered n))
  = (Exn (Err msg), reset true (set_funnel (push v) (entered n))) ->
  nv v (SObj props) (createInstance n) = (Exn (Err msg), reset true (entered n)).
Proof.
  intros H. rewrite nv_fresh. unfold inspect_schema, inspect.
  change (doInspect (SObj props))
    with (inspectDeeper (inspectObject (object_nodes props))).
  unfold inspectDeeper, inspectObject, bind, modify. rewrite H. reflexivity.
Qed.

(** X7: an object schema is checked before the value is looked at.  A
    catch-remaining member [nv.other] that is neither [undefined] nor a
    function, then an override [nv.error] that is a function or a falsy
    value other than [undefined], then a key [nv.end], each make the
    validation of any value, object or not, throw its own message and end
    the session; a schema with none of the three passes the checks, which
    change nothing. *)
Theorem object_schema_is_checked_first (props : list (key * schema)) (v : value)
  (n : nat) :
  (bad_catchOther props = true ->
   nv v (SObj props) (createInstance n)
   = (Exn (Err "The catch-other callback must be a function"),
      reset true (entered n))) /\
  (bad_catchOther props = false -> bad_shapeError props = true ->
   nv v (SObj props) (createInstance n)
   = (Exn (Err "The shape error must be a non-function truthy value"),
      reset true (entered n))) /\
  (bad_catchOther props = false -> bad_shapeError props = false ->
   has_key (KSym symbols.end_) props = true ->
   nv v (SObj props) (createInstance n)
   = (Exn (Err "Symbol(nonvalid.end) is not expected in an object schema"),
      reset true (entered n))) /\
  (bad_catchOther props = false -> bad_shapeError props = false ->
   has_key (KSym symbols.end_) props = false ->
   forall st, exists r, validateObjectSchema (object_nodes props) st = (Ok r, st)).
Proof.
  split; [|split; [|split]].
  - intros H1. apply nv_object_schema_throws.
    rewrite validateObjectSchema_checks, H1. reflexivity.
  - intros H1 H2. apply nv_object_schema_throws.
    rewrite validateObjectSchema_checks, H1, H2. reflexivity.
  - intros H1 H2 H3. apply nv_object_schema_throws.
    rewrite validateObjectSchema_checks, H1, H2, H3. reflexivity.
  - intros H1 H2 H3 st. rewrite validateObjectSchema_checks, H1, H2, H3. eauto.
Qed.

(** [{ [nv.error]: '' }] against a number. *)
Lemma object_schema_is_checked_first_witness :
  nv (VPrim (PNum 1)) (SObj [(KSym symbols.error, SLit (PStr ""))]) (createInstance 0)
  = (Exn (Err "The shape error must be a non-function truthy value"),
     reset true (entered 0)).
Proof.
  apply (proj1 (proj2 (object_schema_is_checked_first
                         [(KSym symbols.error, SLit (PStr ""))] (VPrim (PNum 1)) 0)));
    reflexivity.
Defined.

(** ** A value of the wrong shape *)

(** The override that comes after the end marker of an array schema. *)
Definition array_override (items : list (option schema)) : value :=
  match find is_override (after_marker (item_values items)) with
  | Some (Some x) => x
  | _ => undefined
  end.

(** The state in which a top-level call that ran no callback leaves a fresh
    instance, having found an error at the root. *)
Definition rejected_at_root (n : nat) : state :=
  basicReset true (set_errorPath (Some []) (createInstance n)).

Lemma find_override_nodes (nodes : list (option node)) :
  node_value_opt (flatten (find (fun o => is_override (option_map node_value o)) nodes))
  = match find is_override (node_values nodes) with
    | Some (Some x) => x
    | _ => undefined
    end.
Proof.
  unfold node_values.
  induction nodes as [|[m|] r IH]; cbn [find map option_map]; [reflexivity| |].
  - destruct (is_override (Some (node_value m))); [reflexivity | exact IH].
  - cbn [is_override]. exact IH.
Qed.

(** X8: a value of the wrong shape is rejected at once.  Against an object
    schema that passes its checks a value that is not an object, and against
    an array schema that passes its checks a value that is not an array,
    give the override of the schema, or [true] when it has none; no member
    is visited and no callback runs, whatever the schema holds, and the
    error path is the empty path. *)
Theorem wrong_shape_is_rejected_at_once :
  (forall props v n,
      bad_catchOther props = false -> bad_shapeError props = false ->
      has_key (KSym symbols.end_) props = false ->
      matchers.object v = false ->
      nv v (SObj props) (createInstance n)
      = (Ok (or_else (schema_member symbols.error props) jtrue), rejected_at_root n)) /\
  (forall items v n,
      array_schema_ok items = true ->
      matchers.array v = false ->
      nv v (SArr items) (createInstance n)
      = (Ok (or_else (array_override items) jtrue), rejected_at_root n)).
Proof.
  split.
  - intros props v n H1 H2 H3 Hv. rewrite nv_fresh. unfold inspect_schema, inspect.
    change (doInspect (SObj props))
      with (inspectDeeper (inspectObject (object_nodes props))).
    unfold inspectDeeper, inspectObject, bind, modify.
    rewrite validateObjectSchema_checks, H1, H2, H3, Hv. cbn [negb]. unfold ret.
    rewrite truthy_or_true. reflexivity.
  - intros items v n Hok Hv. rewrite nv_fresh. unfold inspect_schema, inspect.
    change (doInspect (SArr items))
      with (inspectDeeper (inspectArray (array_nodes items))).
    unfold inspectDeeper, inspectArray, bind, modify.
    destruct (validateArraySchema_total items (set_funnel (push v) (entered n)) Hok)
      as [[[m c] e] Hr].
    rewrite Hr, Hv. cbn [negb]. unfold ret. rewrite truthy_or_true.
    destruct (validateArraySchema_ok _ _ _ _ _ _ Hr) as (_ & Hm & _ & He).
    rewrite find_override_nodes, node_values_skipn, node_values_array_nodes in He.
    rewrite Hm, node_values_array_nodes in He.
    fold (after_marker (item_values items)) in He. fold (array_override items) in He.
    rewrite He. reflexivity.
Qed.

(** [[nv.end, 'Value must be an array']] against a string. *)
Lemma wrong_shape_witness :
  nv (VPrim (PStr "x"))
     (SArr [Some (SLit (PSym symbols.end_)); Some (SLit (PStr "Value must be an array"))])
     (createInstance 0)
  = (Ok (VPrim (PStr "Value must be an array")), rejected_at_root 0).
Proof.
  apply (proj2 wrong_shape_is_rejected_at_once
           [Some (SLit (PSym symbols.end_)); Some (SLit (PStr "Value must be an array"))]
           (VPrim (PStr "x")) 0); reflexivity.
Defined.

(** ** The checks on an array schema *)

(** An element that is a reserved symbol other than the end marker. *)
Definition misplaced_symbol (o : option value) : bool :=
  match o with
  | Some (VPrim (PSym id)) => negb (Nat.eqb id symbols.end_) && in_symbolList id
  | _ => false
  end.

Lemma find_misplaced_nodes (nodes : list (option node)) :
  option_map (option_map node_value) (find misplaced_in_array nodes)
  = find misplaced_symbol (node_values nodes).
Proof.
  unfold node_values.
  induction nodes as [|o nodes IH]; cbn [find map]; [reflexivity|].
  replace (misplaced_symbol (option_map node_value o)) with (misplaced_in_array o).
  - now destruct (misplaced_in_array o).
  - unfold misplaced_in_array. destruct o as [m|]; [|reflexivity].
    cbn. now destruct (node_value m) as [[]| | | | | |].
Qed.

Lemma nv_array_schema_throws items v n e :
  validateArraySchema (array_nodes items) (set_funnel (push v) (entered n))
  = (Exn e, reset true (set_funnel (push v) (entered n))) ->
  nv v (SArr items) (createInstance n) = (Exn e, reset true (entered n)).
Proof.
  intros H. rewrite nv_fresh. unfold inspect_schema, inspect.
  change (doInspect (SArr items))
    with (inspectDeeper (inspectArray (array_nodes items))).
  unfold inspectDeeper, inspectArray, bind, modify. rewrite H. reflexivity.
Qed.

(** X9: an array schema is checked before the value is looked at, and the
    checks decide alone whether the validation can proceed.  A schema that
    holds [nv.other] or [nv.error] as an element makes the validation of any
    value throw that the symbol is not expected in an array schema, the
    first such element being the one named; a schema that fails any check
    makes the validation of any value, array or not, throw and end the
    session; a schema that passes them all is accepted, in any state, and
    the checks change nothing. *)
Theorem array_schema_is_checked_first (items : list (option schema)) (v : value)
  (n : nat) :
  (forall id,
      find misplaced_symbol (item_values items) = Some (Some (VPrim (PSym id))) ->
      nv v (SArr items) (createInstance n)
      = (Exn (Err (symbol_toString id ++ " is not expected in an array schema")),
         reset true (entered n))) /\
  (array_schema_ok items = false ->
   exists e, nv v (SArr items) (createInstance n) = (Exn e, reset true (entered n))) /\
  (array_schema_ok items = true ->
   forall st, exists r, validateArraySchema (array_nodes items) st = (Ok r, st)).
Proof.
  assert (H1 : forall id,
      find misplaced_symbol (item_values items) = Some (Some (VPrim (PSym id))) ->
      nv v (SArr items) (createInstance n)
      = (Exn (Err (symbol_toString id ++ " is not expected in an array schema")),
         reset true (entered n))).
  { intros id H. apply nv_array_schema_throws.
    rewrite <- node_values_array_nodes, <- find_misplaced_nodes in H.
    unfold validateArraySchema, bind at 1.
    destruct (find misplaced_in_array (array_nodes items)) as [o|]; [|discriminate H].
    injection H as H. unfold node_value_opt.
    destruct o as [m|]; [|discriminate H]. injection H as ->. reflexivity. }
  split; [exact H1|]. split.
  - intros Hok. unfold array_schema_ok in Hok. apply andb_false_iff in Hok.
    destruct Hok as [Hm|Hm]; apply negb_false_iff in Hm.
    + fold misplaced_symbol in Hm.
      destruct (find misplaced_symbol (item_values items)) as [o|] eqn:E.
      * apply find_some in E. destruct E as [_ E].
        destruct o as [[[]| | | | | |]|]; try discriminate E. eexists. now apply H1.
      * apply existsb_exists in Hm. destruct Hm as (o & Hin & Ho).
        now rewrite (find_none _ _ E o Hin) in Ho.
    + destruct (inspectArray_malformed items v (set_funnel (push v) (entered n)) Hm)
        as [e He].
      exists e. apply nv_array_schema_throws.
      unfold inspectArray, bind in He.
      destruct (validateArraySchema _ _) as [[[[m c] x]|x] st1] eqn:E.
      * destruct (negb (matchers.array v)); [discriminate He|].
        exfalso.
        pose proof (post_elim _ _ _ _ _ (validateArraySchema_post _ _) E)
          as (_ & _ & Hl & Hc1 & Hc2 & Hc3 & Hc4).
        unfold malformed in Hm. rewrite <- node_values_array_nodes in Hm.
        assert (Hl' : List.length (after_marker (node_values (array_nodes items))) <= 2).
        { unfold after_marker. rewrite length_skipn. unfold node_values.
          rewrite length_map, <- find_endIndex_regular.
          fold (node_values (array_nodes items)). lia. }
        cbv zeta in Hm. simpl in Hc3, Hc4.
        repeat rewrite orb_true_iff in Hm. rewrite !Nat.ltb_lt in Hm. lia.
      * now injection He as -> ->.
  - intros Hok st. now apply validateArraySchema_total.
Qed.

(** [[nv.other]] against a number. *)
Lemma array_schema_is_checked_first_witness :
  nv (VPrim (PNum 1)) (SArr [Some (SLit (PSym symbols.other))]) (createInstance 0)
  = (Exn (Err "Symbol(nonvalid.other) is not expected in an array schema"),
     reset true (entered 0)).
Proof.
  apply (proj1 (array_schema_is_checked_first
                  [Some (SLit (PSym symbols.other))] (VPrim (PNum 1)) 0) symbols.other).
  reflexivity.
Defined.

(** ** Members that the schema does not declare *)

(** A loop that goes through has found, at every element, a body that let
    it go on. *)
Lemma for_of_finds {A} (l : list A) (body : A -> M (option value)) (x0 : A) :
  In x0 l ->
  (forall st st', body x0 st <> (Ok None, st')) ->
  forall st st', for_of l body st <> (Ok None, st').
Proof.
  intros Hin Hb. induction l as [|x l IH]; [destruct Hin|].
  intros st st'. cbn [for_of]. unfold bind.
  destruct (body x st) as [[[e|]|e] st1] eqn:E; try discriminate.
  destruct Hin as [->|Hin]; [now apply Hb in E|]. now apply IH.
Qed.

(** The results that end a loop of the traversal are errors. *)
Lemma for_of_truthy {A} (l : list A) (body : A -> M (option value)) st e st' :
  (forall x st e st', body x st = (Ok (Some e), st') -> truthy e = true) ->
  for_of l body st = (Ok (Some e), st') -> truthy e = true.
Proof.
  intros Hb. revert st. induction l as [|x l IH]; intros st; cbn [for_of].
  - discriminate.
  - unfold bind. destruct (body x st) as [[[e1|]|e1] st1] eqn:E; try discriminate.
    + intros [= <- <-]. eapply Hb, E.
    + apply IH.
Qed.

Lemma In_allEntries_of {A} (e : key * A) l : In e l -> In e (allEntries l).
Proof.
  intros H. unfold allEntries, Object_entries, symbol_entries. rewrite !in_app_iff.
  destruct e as [[s|id] a].
  - destruct (array_index s) as [n|] eqn:E.
    + left. left. apply in_map_iff. exists (n, (KStr s, a)). split; [reflexivity|].
      apply index_entries_spec. eauto.
    + left. right. apply filter_In. split; [exact H|].
      unfold is_plain_string. cbn. now rewrite E.
  - right. apply filter_In. now split.
Qed.

Lemma has_key_In {A} k (l : list (key * A)) :
  has_key k l = true -> exists a, In (k, a) l.
Proof.
  unfold has_key. induction l as [|[k' b] l IH]; simpl; [discriminate|].
  destruct (key_eqb_spec k' k) as [->|_].
  - intros _. eauto.
  - intros H. destruct (IH H) as [a Ha]. eauto.
Qed.

Lemma inspectObject_undeclared nodes vprops k st r st' :
  matchers.undefined (node_value_opt (lookup (KSym symbols.other) nodes)) = true ->
  has_key k vprops = true -> has_key k nodes = false ->
  inspectObject nodes (VObj vprops) st = (Ok r, st') -> truthy r = true.
Proof.
  intros Hc Hv Hs. unfold inspectObject. unfold bind at 1.
  destruct (validateObjectSchema nodes st) as [[[c e]|x] st1] eqn:E; [|discriminate].
  apply validateObjectSchema_ok in E. destruct E as (-> & -> & _). rewrite Hc.
  cbn [matchers.object negb value_entries]. unfold bind.
  destruct (for_of (allEntries nodes) _ st) as [[[e1|]|x] st2] eqn:E1;
    [| |discriminate].
  - intros [= <- _]. eapply for_of_truthy; [|exact E1].
    intros [k1 sub] s1 e2 s2. cbv beta iota.
    destruct (reserved k1); [discriminate|].
    destruct (member (VObj vprops) k1 s1) as [[x|x] s3]; [|discriminate].
    destruct (inspectKey sub x (PKey k1) s3) as [[r0|x0] s4]; [|discriminate].
    unfold ret. destruct (truthy r0) eqn:Et; [|discriminate]. now intros [= <- _].
  - destruct (for_of (allEntries vprops) _ st2) as [[[e2|]|x] st3] eqn:E2;
      [| |discriminate].
    + intros [= <- _]. eapply for_of_truthy; [|exact E2].
      intros [k1 x] s1 e3 s2. cbv beta iota.
      destruct (negb (has_key k1 nodes)); [|discriminate].
      unfold ret. now intros [= <- _].
    + exfalso. destruct (has_key_In _ _ Hv) as [a Ha].
      apply (for_of_finds _ _ (k, a) (In_allEntries_of _ _ Ha)) in E2; [exact E2|].
      intros s1 s2. cbv beta iota. rewrite Hs. discriminate.
Qed.

Lemma inspectArray_undeclared nodes xs st r st' :
  find (fun o => is_callback (option_map node_value o))
       (skipn (regular_length (node_values nodes) + 1) nodes) = None ->
  regular_length (node_values nodes) < List.length xs ->
  inspectArray nodes (VArr xs) st = (Ok r, st') -> truthy r = true.
Proof.
  intros Hc Hl. unfold inspectArray. unfold bind at 1.
  destruct (validateArraySchema nodes st) as [[[[m c] e]|x] st1] eqn:E; [|discriminate].
  apply validateArraySchema_ok in E. destruct E as (-> & -> & -> & _). rewrite Hc.
  cbn [matchers.array negb array_length flatten]. unfold bind.
  destruct (for_of (seq 0 _) _ st) as [[[e1|]|x] st2] eqn:E1; [| |discriminate].
  - intros [= <- _]. eapply for_of_truthy; [|exact E1].
    intros i s1 e2 s2. cbv beta.
    destruct (inspectKey (schema_at nodes i) (element (VArr xs) i) (PIdx i) s1)
      as [[r0|x0] s4]; [|discriminate].
    unfold ret. destruct (truthy r0) eqn:Et; [|discriminate]. now intros [= <- _].
  - destruct (for_of (seq _ _) _ st2) as [[[e2|]|x] st3] eqn:E2; [| |discriminate].
    + intros [= <- _]. eapply for_of_truthy; [|exact E2].
      intros i s1 e3 s2. unfold ret. now intros [= <- _].
    + exfalso.
      apply (for_of_finds _ _ (regular_length (node_values nodes))) in E2;
        [exact E2| |discriminate].
      apply in_seq. lia.
Qed.

Lemma nv_returns v s n r st' :
  nv v s (createInstance n) = (Ok r, st') ->
  exists st1, doInspect s v (entered n) = (Ok r, st1).
Proof.
  rewrite nv_fresh. unfold inspect_schema, inspect, bind.
  destruct (doInspect s v (entered n)) as [[r1|x] st1]; [|discriminate].
  destruct (truthy r1); [destruct (errorPath st1)|]; cbn; intros [= <- _]; eauto.
Qed.

Lemma find_callback_nodes items k :
  find (fun o => is_callback (option_map node_value o)) (skipn k (array_nodes items))
  = None <->
  find is_callback (skipn k (item_values items)) = None.
Proof.
  rewrite <- node_values_array_nodes, <- node_values_skipn.
  generalize (skipn k (array_nodes items)). intros l. unfold node_values.
  induction l as [|o l IH]; cbn [find map]; [tauto|].
  destruct (is_callback (option_map node_value o)); [split; discriminate | exact IH].
Qed.

(** X10: what the schema does not declare is an error.  An object with an
    own enumerable member whose key the object schema does not own, when
    the schema has no catch-remaining callback, and an array longer than the
    regular elements of the array schema, when the schema has no callback
    after the end marker, are not found valid by callbacks that leave the
    value as it is: whatever such callbacks call, return or throw, a
    validation that returns, returns an error; and it does return when the
    callbacks are pure and the schema passes its checks.  (The callbacks of
    this development read the value and the instance and never modify the
    value; one that deleted the member before the engine comes to it would
    make the value valid.) *)
Theorem undeclared_members_are_errors :
  (forall props vprops k st r st',
      schema_member symbols.other props = undefined ->
      has_key k vprops = true -> has_key k props = false ->
      doInspect (SObj props) (VObj vprops) st = (Ok r, st') -> truthy r = true) /\
  (forall items xs st r st',
      find is_callback (after_marker (item_values items)) = None ->
      regular_length (item_values items) < List.length xs ->
      doInspect (SArr items) (VArr xs) st = (Ok r, st') -> truthy r = true) /\
  (forall props vprops k n,
      well_formed (PObj props) = true ->
      schema_member symbols.other (map (fun e => (fst e, embed (snd e))) props)
      = undefined ->
      has_key k vprops = true -> has_key k props = false ->
      exists r, fst (nv (VObj vprops) (embed (PObj props)) (createInstance n)) = Ok r /\
                truthy r = true) /\
  (forall items xs n,
      well_formed (PArr items) = true ->
      find is_callback (after_marker (item_values (map (option_map embed) items)))
      = None ->
      regular_length (item_values (map (option_map embed) items)) < List.length xs ->
      exists r, fst (nv (VArr xs) (embed (PArr items)) (createInstance n)) = Ok r /\
                truthy r = true).
Proof.
  assert (HO : forall props vprops k st r st',
      schema_member symbols.other props = undefined ->
      has_key k vprops = true -> has_key k props = false ->
      doInspect (SObj props) (VObj vprops) st = (Ok r, st') -> truthy r = true).
  { intros props vprops k st r st' Hc Hv Hs.
    change (doInspect (SObj props))
      with (inspectDeeper (inspectObject (object_nodes props))).
    unfold inspectDeeper, bind, modify.
    destruct (inspectObject _ _ _) as [[r1|x] st1] eqn:E; [|discriminate].
    intros [= <- _].
    eapply (inspectObject_undeclared _ vprops k); [| | |exact E].
    - now rewrite node_value_object_nodes, Hc.
    - exact Hv.
    - now rewrite has_key_object_nodes. }
  assert (HA : forall items xs st r st',
      find is_callback (after_marker (item_values items)) = None ->
      regular_length (item_values items) < List.length xs ->
      doInspect (SArr items) (VArr xs) st = (Ok r, st') -> truthy r = true).
  { intros items xs st r st' Hc Hl.
    change (doInspect (SArr items))
      with (inspectDeeper (inspectArray (array_nodes items))).
    unfold inspectDeeper, bind, modify.
    destruct (inspectArray _ _ _) as [[r1|x] st1] eqn:E; [|discriminate].
    intros [= <- _].
    eapply (inspectArray_undeclared _ xs); [| |exact E].
    - rewrite node_values_array_nodes. now apply find_callback_nodes.
    - now rewrite node_values_array_nodes. }
  split; [exact HO|]. split; [exact HA|]. split.
  - intros props vprops k n Hwf Hc Hv Hs.
    destruct (pure_top_level_total (PObj props) (VObj vprops) n Hwf) as (st' & E & _).
    exists (spec_result (PObj props) (VObj vprops)). rewrite E. split; [reflexivity|].
    destruct (nv_returns _ _ _ _ _ E) as [st1 E1].
    eapply (HO _ vprops k); [exact Hc | exact Hv | | exact E1].
    unfold has_key in *.
    replace (map (fun e => (fst e, embed (snd e))) props) with (map (on_snd embed) props)
      by reflexivity.
    rewrite lookup_map. now destruct (lookup k props).
  - intros items xs n Hwf Hc Hl.
    destruct (pure_top_level_total (PArr items) (VArr xs) n Hwf) as (st' & E & _).
    exists (spec_result (PArr items) (VArr xs)). rewrite E. split; [reflexivity|].
    destruct (nv_returns _ _ _ _ _ E) as [st1 E1].
    eapply (HA _ xs); [exact Hc | exact Hl | exact E1].
Qed.

(** [{ a: 1, b: 2 }] against [{ a: 1 }], and [[1, 2]] against [[1]]. *)
Lemma undeclared_members_witness :
  (exists r, fst (nv (VObj [(KStr "a", VPrim (PNum 1)); (KStr "b", VPrim (PNum 2))])
                    (embed (PObj [(KStr "a", PLit (PNum 1))])) (createInstance 0))
             = Ok r /\ truthy r = true) /\
  (exists r, fst (nv (VArr [Some (VPrim (PNum 1)); Some (VPrim (PNum 2))])
                    (embed (PArr [Some (PLit (PNum 1))])) (createInstance 0))
             = Ok r /\ truthy r = true).
Proof.
  split.
  - apply (proj1 (proj2 (proj2 undeclared_members_are_errors))
             [(KStr "a", PLit (PNum 1))]
             [(KStr "a", VPrim (PNum 1)); (KStr "b", VPrim (PNum 2))] (KStr "b") 0);
      reflexivity.
  - apply (proj2 (proj2 (proj2 undeclared_members_are_errors))
             [Some (PLit (PNum 1))]
             [Some (VPrim (PNum 1)); Some (VPrim (PNum 2))] 0);
      [reflexivity | reflexivity | cbn; lia].
Defined.

(** ** The order of traversal of an array *)

(** The node that [doInspect] makes of a member of a schema. *)
Definition node_for (s : schema) : node :=
  mkNode (schema_value s) (inspect (doInspect s)).

(** The catch-remaining callback of an array schema: the function that
    comes after the end marker. *)
Definition array_catch (items : list (option schema)) : option schema :=
  match find (fun o => is_callback (option_map schema_value o))
             (skipn (regular_length (item_values items) + 1) items) with
  | Some (Some s) => Some s
  | _ => None
  end.

(** The visits of [inspectArray], in their order: the regular elements of
    the schema, each with the element of the value at its index, then the
    elements of the value from there on, each with the catch-remaining
    callback. *)
Definition array_visits (items : list (option schema)) (xs : list (option value))
  : list (nat * value * option schema) :=
  map (fun i => (i, element (VArr xs) i, nth i items None))
      (seq 0 (regular_length (item_values items)))
  ++ map (fun i => (i, element (VArr xs) i, array_catch items))
         (seq (regular_length (item_values items))
              (List.length xs - regular_length (item_values items))).

(** One visit: [None] stands for an element that nothing accepts, which
    ends the traversal with [true]. *)
Definition visit_element (x : nat * value * option schema) : M (option value) :=
  let '(i, subvalue, target) := x in
  match target with
  | Some s =>
      error <- inspectKey (node_for s) subvalue (PIdx i) ;;
      ret (if truthy error then Some error else None)
  | None => ret (Some jtrue)
  end.

Definition traverse_elements (l : list (nat * value * option schema)) : M value :=
  r <- for_of l visit_element ;;
  ret (match r with Some error => error | None => jfalse end).

Lemma regular_nth (items : list (option schema)) : forall i,
  i < regular_length (item_values items) ->
  exists s, nth_error items i = Some (Some s) /\
            is_marker (Some (schema_value s)) = false.
Proof.
  induction items as [|o items IH]; intros i; cbn [item_values map regular_length].
  - lia.
  - fold (item_values items).
    destruct (is_marker (option_map schema_value o)) eqn:Em; [lia|].
    destruct i as [|i].
    + intros _. destruct o as [s|]; [|discriminate Em]. exists s. now split.
    + intros H. apply IH. lia.
Qed.

Lemma array_catch_node (items : list (option schema)) k :
  flatten (find (fun o => is_callback (option_map node_value o))
             (skipn k (array_nodes items)))
  = option_map node_for
      match find (fun o => is_callback (option_map schema_value o)) (skipn k items) with
      | Some (Some s) => Some s
      | _ => None
      end.
Proof.
  unfold array_nodes. rewrite skipn_map.
  generalize (skipn k items). intros l.
  induction l as [|[s|] l IH]; cbn [map find option_map]; [reflexivity| |exact IH].
  cbn [node_value is_callback].
  destruct (matchers.function (schema_value s)); [reflexivity | exact IH].
Qed.

Lemma inspectArray_visits items xs st :
  array_schema_ok items = true ->
  inspectArray (array_nodes items) (VArr xs) st
  = traverse_elements (array_visits items xs) st.
Proof.
  intros Hok.
  destruct (validateArraySchema_total items st Hok) as [[[m c] e] Hr].
  destruct (validateArraySchema_ok _ _ _ _ _ _ Hr) as (_ & Hm & Hc & _).
  rewrite node_values_array_nodes in Hm. rewrite array_catch_node in Hc.
  rewrite Hm in Hc. fold (array_catch items) in Hc.
  unfold inspectArray, traverse_elements, array_visits.
  unfold bind at 1. rewrite Hr. cbn [matchers.array negb array_length].
  unfold bind. rewrite for_of_app. unfold bind. rewrite !for_of_map.
  rewrite (for_of_ext_in (seq 0 m) _
             (fun i => visit_element (i, element (VArr xs) i, nth i items None))).
  2:{ intros i s1 Hin. apply in_seq in Hin.
      destruct (regular_nth items i) as (s & Hs & _); [lia|].
      unfold schema_at, array_nodes. rewrite nth_error_map, Hs.
      rewrite (nth_error_nth _ _ _ Hs). reflexivity. }
  rewrite <- Hm.
  destruct (for_of (seq 0 m) _ st) as [[[e1|]|x] st2]; try reflexivity.
  cbv beta iota. rewrite ?for_of_map.
  rewrite (for_of_ext (seq m (List.length xs - m)) _
             (fun i => visit_element (i, element (VArr xs) i, array_catch items))).
  2:{ intros i s1. rewrite Hc. unfold visit_element.
      now destruct (array_catch items). }
  destruct (for_of (seq m _) _ st2) as [[[e2|]|x] st3]; reflexivity.
Qed.

(** X11: an array is inspected, against an array schema that passes its
    checks, by the visits of [array_visits], in their order, up to the
    first that gives an error: first the regular elements of the schema, by
    ascending index, each against the element of the value at that index,
    or [undefined] when the value is shorter; then the elements of the
    value from the number of regular elements on, each sent to the
    catch-remaining callback, or ending the traversal with [true] when the
    schema has none.  Every regular visit has a schema, which is not the end
    marker. *)
Theorem array_traversal_order (items : list (option schema)) (xs : list (option value))
  (st : state) :
  array_schema_ok items = true ->
  doInspect (SArr items) (VArr xs) st
  = inspectDeeper (fun _ => traverse_elements (array_visits items xs)) (VArr xs) st /\
  (forall i, i < regular_length (item_values items) ->
     exists s, nth i items None = Some s /\
               schema_value s <> VPrim (PSym symbols.end_)).
Proof.
  intros Hok. split.
  - change (doInspect (SArr items))
      with (inspectDeeper (inspectArray (array_nodes items))).
    unfold inspectDeeper, bind, modify. now rewrite inspectArray_visits.
  - intros i Hi. destruct (regular_nth items i Hi) as (s & Hs & Hm).
    exists s. split; [now apply nth_error_nth|].
    intros E. rewrite E in Hm. discriminate Hm.
Qed.

(** [[1]] against [[1, 2, nv.end, () => 'more']]. *)
Lemma array_traversal_witness :
  let items := [Some (SLit (PNum 1)); Some (SLit (PNum 2));
                Some (SLit (PSym symbols.end_));
                Some (SFun 0 (fun _ _ => Ret (VPrim (PStr "more"))))] in
  doInspect (SArr items) (VArr [Some (VPrim (PNum 1))]) (entered 0)
  = inspectDeeper
      (fun _ => traverse_elements (array_visits items [Some (VPrim (PNum 1))]))
      (VArr [Some (VPrim (PNum 1))]) (entered 0).
Proof.
  intros items.
  apply (array_traversal_order items [Some (VPrim (PNum 1))] (entered 0)).
  reflexivity.
Defined.

From Stdlib Require Import Permutation.

(** ** The verdict and the order of the members *)

Lemma lookup_Some_In {A} k (l : list (key * A)) a :
  lookup k l = Some a -> In (k, a) l.
Proof.
  induction l as [|[k' b] l IH]; simpl; [discriminate|].
  destruct (key_eqb_spec k' k) as [->|_].
  - intros [= ->]. now left.
  - intros H. right. now apply IH.
Qed.

Lemma In_lookup_Some {A} k (l : list (key * A)) a :
  NoDup (map fst l) -> In (k, a) l -> lookup k l = Some a.
Proof.
  induction l as [|[k' b] l IH]; simpl; [now intros _ []|].
  intros Hn [[= -> ->]|Hin].
  - now destruct (key_eqb_spec k k).
  - inversion Hn as [|x r Hx Hr]; subst.
    destruct (key_eqb_spec k' k) as [->|_]; [|now apply IH].
    elim Hx. apply in_map_iff. now exists (k, a).
Qed.

(** Objects have one member for a key: the order of the members does not
    change what a key holds. *)
Lemma lookup_Permutation {A} k (l l' : list (key * A)) :
  NoDup (map fst l) -> Permutation l l' -> lookup k l = lookup k l'.
Proof.
  intros Hn Hp.
  assert (Hn' : NoDup (map fst l')).
  { eapply Permutation_NoDup; [|exact Hn]. now apply Permutation_map. }
  destruct (lookup k l) as [a|] eqn:E.
  - symmetry. apply In_lookup_Some; [exact Hn'|].
    eapply Permutation_in; [exact Hp|]. now apply lookup_Some_In.
  - destruct (lookup k l') as [a|] eqn:E'; [|reflexivity].
    apply lookup_Some_In in E'. apply (Permutation_in _ (Permutation_sym Hp)) in E'.
    apply (In_lookup_Some _ _ _ Hn) in E'. congruence.
Qed.

Lemma In_allEntries_iff {A} (e : key * A) l : In e (allEntries l) <-> In e l.
Proof. split; [apply In_allEntries | apply In_allEntries_of]. Qed.

(** Two values with the same members: the same value, or two objects whose
    members are written in different orders. *)
Definition same_members (v v' : value) : Prop :=
  match v, v' with
  | VObj p, VObj p' => Permutation p p' /\ NoDup (map fst p)
  | _, _ => v = v'
  end.

Lemma same_members_object v v' :
  same_members v v' -> matchers.object v = matchers.object v'.
Proof.
  destruct v, v'; cbn [same_members]; intros H; try discriminate H;
    try (now rewrite H); reflexivity.
Qed.

Lemma same_members_member v v' k :
  same_members v v' -> spec_member v k = spec_member v' k.
Proof.
  destruct v, v'; cbn [same_members]; intros H; try discriminate H;
    try (now rewrite H); try reflexivity.
  destruct H as [Hp Hn]. cbn [spec_member object_get].
  now rewrite (lookup_Permutation k _ _ Hn Hp).
Qed.

Lemma same_members_entries v v' e :
  same_members v v' -> In e (value_entries v) <-> In e (value_entries v').
Proof.
  destruct v, v'; cbn [same_members]; intros H; try discriminate H;
    try (now rewrite H); try reflexivity.
  destruct H as [Hp Hn]. cbn [value_entries]. rewrite !In_allEntries_iff.
  split; apply Permutation_in; [exact Hp | now apply Permutation_sym].
Qed.

Lemma object_outcomes_Permutation
  (members members' : list (key * (value * (value -> option pkey -> list (list pkey * value)))))
  v v' o :
  Permutation members members' -> NoDup (map fst members) -> same_members v v' ->
  In o (object_outcomes members v) -> In o (object_outcomes members' v').
Proof.
  intros Hp Hn Hv. unfold object_outcomes.
  rewrite <- (same_members_object _ _ Hv).
  rewrite <- !(lookup_Permutation _ _ _ Hn Hp).
  destruct (matchers.object v); [|auto].
  rewrite !in_app_iff, !in_flat_map. intros [(e & He & Ho)|(e & He & Ho)].
  - left. exists e. apply filter_In in He. destruct He as [He Hr].
    rewrite <- (same_members_member _ _ _ Hv). split; [|exact Ho].
    apply filter_In. split; [|exact Hr].
    apply In_allEntries_iff. eapply Permutation_in; [exact Hp|].
    now apply In_allEntries_iff.
  - right. exists e. apply filter_In in He. destruct He as [He Hr].
    split; [|exact Ho]. apply filter_In. split.
    + now apply (same_members_entries _ _ _ Hv).
    + unfold has_key in *. now rewrite <- (lookup_Permutation _ _ _ Hn Hp).
Qed.

Lemma result_false_iff l :
  result_of l = jfalse <-> forall o, In o l -> truthy (snd o) = false.
Proof.
  unfold result_of, first_failure.
  destruct (find (fun o => truthy (snd o)) l) as [o|] eqn:E.
  - apply find_some in E. destruct E as [Hin Ht]. split.
    + intros H. rewrite H in Ht. discriminate Ht.
    + intros H. rewrite (H o Hin) in Ht. discriminate Ht.
  - split; [|reflexivity]. intros _ o Hin. apply (find_none _ _ E o Hin).
Qed.

Lemma same_members_sym v v' : same_members v v' -> same_members v' v.
Proof.
  destruct v, v'; cbn [same_members]; intros H; try discriminate H;
    try (now rewrite H); try reflexivity.
  destruct H as [Hp Hn]. split; [now apply Permutation_sym|].
  eapply Permutation_NoDup; [|exact Hn]. now apply Permutation_map.
Qed.

Lemma existsb_Permutation {A} (f : A -> bool) l l' :
  Permutation l l' -> existsb f l = existsb f l'.
Proof.
  induction 1 as [|x l l' Hp IH|x y l|l l' l'' H1 IH1 H2 IH2]; cbn;
    [reflexivity | now rewrite IH | destruct (f x), (f y); reflexivity | congruence].
Qed.

Lemma forallb_Permutation {A} (f : A -> bool) l l' :
  Permutation l l' -> forallb f l = forallb f l'.
Proof.
  induction 1 as [|x l l' Hp IH|x y l|l l' l'' H1 IH1 H2 IH2]; cbn;
    [reflexivity | now rewrite IH | destruct (f x), (f y); reflexivity | congruence].
Qed.

Lemma well_formed_Permutation props props' :
  Permutation props props' -> NoDup (map fst props) ->
  well_formed (PObj props) = well_formed (PObj props').
Proof.
  intros Hp Hn. cbn [well_formed]. f_equal; [|now apply forallb_Permutation].
  set (g := fun e : key * pschema => (fst e, schema_value (embed (snd e)))).
  assert (Hp' : Permutation (map g props) (map g props')) by now apply Permutation_map.
  assert (Hn' : NoDup (map fst (map g props))).
  { rewrite map_map. exact Hn. }
  unfold object_schema_ok.
  rewrite <- !(lookup_Permutation _ _ _ Hn' Hp').
  now rewrite (existsb_Permutation _ _ _ Hp').
Qed.

(** X12: whether a value is valid does not depend on the order in which
    the members of an object schema, or the members of the object under
    validation, are written: for a schema with pure callbacks that passes
    its checks, the validation returns [false] for the one order exactly when
    it does for the other.  Only the error that is reported, the first in
    the order of traversal, depends on the order. *)
Theorem verdict_does_not_depend_on_the_order
  (props props' : list (key * pschema)) (v v' : value) (n : nat) :
  Permutation props props' -> NoDup (map fst props) -> same_members v v' ->
  well_formed (PObj props) = true ->
  well_formed (PObj props') = true /\
  (fst (nv v (embed (PObj props)) (createInstance n)) = Ok jfalse <->
   fst (nv v' (embed (PObj props')) (createInstance n)) = Ok jfalse).
Proof.
  intros Hp Hn Hv Hwf.
  assert (Hwf' : well_formed (PObj props') = true).
  { now rewrite <- (well_formed_Permutation _ _ Hp Hn). }
  split; [exact Hwf'|].
  destruct (pure_top_level_total (PObj props) v n Hwf) as (st1 & -> & _).
  destruct (pure_top_level_total (PObj props') v' n Hwf') as (st2 & -> & _).
  cbn [fst]. unfold spec_result. cbn [outcomes].
  set (g := fun e : key * pschema =>
              (fst e, (schema_value (embed (snd e)), outcomes (snd e)))).
  assert (Hg : Permutation (map g props) (map g props')) by now apply Permutation_map.
  assert (Hng : NoDup (map fst (map g props))).
  { rewrite map_map. exact Hn. }
  assert (Hng' : NoDup (map fst (map g props'))).
  { eapply Permutation_NoDup; [|exact Hng]. now apply Permutation_map. }
  split; intros [= H]; f_equal; apply result_false_iff; intros o Ho;
    apply (proj1 (result_false_iff _) H).
  - eapply object_outcomes_Permutation;
      [apply Permutation_sym; exact Hg | exact Hng' | apply same_members_sym; exact Hv
       | exact Ho].
  - eapply object_outcomes_Permutation; [exact Hg | exact Hng | exact Hv | exact Ho].
Qed.

(** [{ a: 1, b: 2 }] against [{ a: 1, b: 2 }] and [{ b: 2, a: 1 }]. *)
Lemma verdict_order_witness :
  well_formed (PObj [(KStr "b", PLit (PNum 2)); (KStr "a", PLit (PNum 1))]) = true /\
  (fst (nv (VObj [(KStr "a", VPrim (PNum 1)); (KStr "b", VPrim (PNum 2))])
          (embed (PObj [(KStr "a", PLit (PNum 1)); (KStr "b", PLit (PNum 2))]))
          (createInstance 0)) = Ok jfalse <->
   fst (nv (VObj [(KStr "a", VPrim (PNum 1)); (KStr "b", VPrim (PNum 2))])
          (embed (PObj [(KStr "b", PLit (PNum 2)); (KStr "a", PLit (PNum 1))]))
          (createInstance 0)) = Ok jfalse).
Proof.
  apply (verdict_does_not_depend_on_the_order
           [(KStr "a", PLit (PNum 1)); (KStr "b", PLit (PNum 2))]
           [(KStr "b", PLit (PNum 2)); (KStr "a", PLit (PNum 1))]
           (VObj [(KStr "a", VPrim (PNum 1)); (KStr "b", VPrim (PNum 2))])
           (VObj [(KStr "a", VPrim (PNum 1)); (KStr "b", VPrim (PNum 2))]) 0).
  - apply perm_swap.
  - repeat constructor; cbn; intuition discriminate.
  - split; [apply Permutation_refl|].
    repeat constructor; cbn; intuition discriminate.
  - reflexivity.
Defined.

(** ** A value as its own schema *)

(** The keys of an object are distinct. *)
Fixpoint distinct (l : list key) : bool :=
  match l with
  | [] => true
  | k :: r => negb (existsb (key_eqb k) r) && distinct r
  end.

Definition plain_prim (p : prim) : bool :=
  match p with
  | PNaN => false
  | PSym id => negb (in_symbolList id)
  | _ => true
  end.

(** Data: primitives other than [NaN] and the reserved symbols, objects
    whose keys are not reserved symbols, and arrays without holes, of
    data. *)
Fixpoint plain_data (ps : pschema) : bool :=
  match ps with
  | PFun _ _ => false
  | PLit p => plain_prim p
  | PObj props =>
      distinct (map fst props)
      && forallb (fun e => negb (reserved (fst e)) && plain_data (snd e)) props
  | PArr items =>
      forallb (fun o => match o with Some sub => plain_data sub | None => false end)
              items
  end.

(** The schema as a value. *)
Definition value_of (ps : pschema) : value := schema_value (embed ps).

Lemma value_of_PObj props : value_of (PObj props) = VObj (map (on_snd value_of) props).
Proof.
  unfold value_of. cbn [embed schema_value]. f_equal. rewrite map_map.
  apply map_ext. now intros [k sub].
Qed.

Lemma value_of_PArr items :
  value_of (PArr items) = VArr (map (option_map value_of) items).
Proof.
  unfold value_of. cbn [embed schema_value]. f_equal. rewrite map_map.
  apply map_ext. now intros [sub|].
Qed.

Lemma distinct_NoDup l : distinct l = true -> NoDup l.
Proof.
  induction l as [|k r IH]; cbn [distinct]; [constructor|].
  intros H. apply andb_prop in H. destruct H as [H1 H2].
  constructor; [|now apply IH].
  intros Hin. apply negb_true_iff in H1.
  assert (E : existsb (key_eqb k) r = true).
  { apply existsb_exists. exists k. split; [exact Hin|].
    now destruct (key_eqb_spec k k). }
  congruence.
Qed.

Lemma regular_length_all l :
  (forall o, In o l -> is_marker o = false) -> regular_length l = List.length l.
Proof.
  induction l as [|o l IH]; intros H; cbn [regular_length List.length]; [reflexivity|].
  rewrite (H o (or_introl eq_refl)). f_equal. apply IH. intros o' Ho'. apply H.
  now right.
Qed.

Lemma lookup_not_reserved {A} id (l : list (key * A)) :
  in_symbolList id = true ->
  forallb (fun e => negb (reserved (fst e))) l = true ->
  lookup (KSym id) l = None.
Proof.
  intros Hid. induction l as [|[k a] l IH]; cbn [forallb lookup fst]; [reflexivity|].
  intros H. apply andb_prop in H. destruct H as [H1 H2].
  destruct (key_eqb_spec k (KSym id)) as [->|_]; [|now apply IH].
  cbn [reserved] in H1. rewrite Hid in H1. discriminate H1.
Qed.

Lemma plain_value_of ps :
  plain_data ps = true ->
  is_marker (Some (value_of ps)) = false /\ misplaced_symbol (Some (value_of ps)) = false.
Proof.
  destruct ps as [id f|props|items|p]; cbn [plain_data]; try discriminate;
    try (intros _; split; reflexivity).
  unfold value_of. cbn [embed schema_value is_marker misplaced_symbol].
  destruct p; cbn [plain_prim]; try discriminate; try (intros _; split; reflexivity).
  intros H. apply negb_true_iff in H. rewrite H, andb_false_r. split; [|reflexivity].
  destruct (Nat.eqb_spec id symbols.end_) as [->|_]; [discriminate H | reflexivity].
Qed.

(** Data passes the checks of the engine, and validated against itself it
    lists nothing but [false]. *)
Lemma plain_data_ok (ps : pschema) :
  plain_data ps = true ->
  well_formed ps = true /\
  forall k o, In o (outcomes ps (value_of ps) k) -> truthy (snd o) = false.
Proof.
  induction ps as [id f|props IH|items IH|p] using pschema_holds; cbn [plain_data].
  - discriminate.
  - intros H. apply andb_prop in H. destruct H as [Hd Hall].
    apply distinct_NoDup in Hd. rewrite forallb_forall in Hall.
    rewrite Forall_forall in IH.
    assert (Hkeys : forallb (fun e : key * pschema => negb (reserved (fst e))) props
                    = true).
    { apply forallb_forall. intros e He. specialize (Hall e He).
      now apply andb_prop in Hall. }
    split.
    + cbn [well_formed]. apply andb_true_intro. split.
      * unfold object_schema_ok.
        replace (map (fun e : key * pschema => (fst e, schema_value (embed (snd e)))) props)
          with (map (on_snd value_of) props) by reflexivity.
        rewrite !lookup_map.
        rewrite !(lookup_not_reserved _ props) by (reflexivity || exact Hkeys).
        cbn. apply negb_true_iff. rewrite existsb_map_ext with (q := fun e =>
          match fst e with KSym id => Nat.eqb id symbols.end_ | KStr _ => false end)
          by reflexivity.
        destruct (existsb _ props) eqn:E; [|reflexivity].
        apply existsb_exists in E. destruct E as ([[s|id] sub] & He & Hk);
          [discriminate Hk|].
        cbn in Hk. apply Nat.eqb_eq in Hk. subst id.
        specialize (Hall _ He). now apply andb_prop in Hall.
      * apply forallb_forall. intros e He. specialize (Hall e He).
        apply andb_prop in Hall. now apply (IH e He).
    + intros k o. cbn [outcomes]. rewrite value_of_PObj. unfold object_outcomes.
      cbn [matchers.object own_members spec_member object_get].
      rewrite in_app_iff, !in_flat_map. intros [(e & He & Ho)|(e & He & Ho)].
      * apply filter_In in He. destruct He as [He _].
        apply In_allEntries in He. apply in_map_iff in He.
        destruct He as ([k0 sub] & <- & Hin). cbn [fst snd] in Ho.
        apply in_map_iff in Ho. destruct Ho as (o' & <- & Ho'). cbn [under snd].
        assert (Em : match lookup k0 (map (on_snd value_of) props) with
                     | Some x => x
                     | None => inherited VObjectPrototype k0
                     end = value_of sub).
        { rewrite lookup_map. now rewrite (In_lookup_Some _ _ _ Hd Hin). }
        rewrite Em in Ho'.
        specialize (Hall _ Hin). apply andb_prop in Hall.
        exact (proj2 (IH _ Hin (proj2 Hall)) _ _ Ho').
      * exfalso. apply filter_In in He. destruct He as [He Hk].
        apply In_allEntries in He. apply in_map_iff in He.
        destruct He as ([k0 sub] & <- & Hin). cbn [fst on_snd] in Hk.
        unfold has_key in Hk.
        replace (map (fun e : key * pschema =>
                        (fst e, (schema_value (embed (snd e)), outcomes (snd e)))) props)
          with (map (on_snd (fun sub => (schema_value (embed sub), outcomes sub))) props)
          in Hk by reflexivity.
        rewrite lookup_map, (In_lookup_Some _ _ _ Hd Hin) in Hk. discriminate Hk.
  - intros Hall. rewrite forallb_forall in Hall. rewrite Forall_forall in IH.
    assert (Hsome : forall o, In o items -> exists sub, o = Some sub /\ plain_data sub = true).
    { intros [sub|] Ho; specialize (Hall _ Ho); [eauto | discriminate Hall]. }
    assert (Hvals : item_values (map (option_map embed) items)
                    = map (option_map value_of) items).
    { unfold item_values. rewrite map_map. apply map_ext. now intros [sub|]. }
    assert (Hreg : regular_length (map (option_map value_of) items) = List.length items).
    { rewrite regular_length_all; [apply length_map|].
      intros o Ho. apply in_map_iff in Ho. destruct Ho as (o' & <- & Ho').
      destruct (Hsome _ Ho') as (sub & -> & Hs). now apply plain_value_of. }
    split.
    + cbn [well_formed]. apply andb_true_intro. split.
      * unfold array_schema_ok. apply andb_true_intro. split.
        -- apply negb_true_iff. fold misplaced_symbol. rewrite Hvals.
           destruct (existsb _ _) eqn:E; [|reflexivity].
           apply existsb_exists in E. destruct E as (o & Ho & Hm).
           apply in_map_iff in Ho. destruct Ho as (o' & <- & Ho').
           destruct (Hsome _ Ho') as (sub & -> & Hs).
           cbn [option_map] in Hm. now rewrite (proj2 (plain_value_of _ Hs)) in Hm.
        -- apply negb_true_iff. unfold malformed, after_marker. rewrite Hvals, Hreg.
           rewrite skipn_all2 by (rewrite length_map; lia). reflexivity.
      * apply forallb_forall. intros o Ho.
        destruct (Hsome _ Ho) as (sub & -> & Hs). now apply (IH _ Ho).
    + intros k o. cbn [outcomes]. rewrite value_of_PArr. unfold array_outcomes.
      cbn [matchers.array array_length]. rewrite map_map.
      replace (map (fun x => option_map fst
                      (option_map (fun sub => (schema_value (embed sub), outcomes sub)) x))
                 items)
        with (map (option_map value_of) items)
        by (apply map_ext; now intros [sub|]).
      rewrite Hreg, length_map, Nat.sub_diag. cbn [seq flat_map]. rewrite app_nil_r.
      rewrite in_flat_map. intros (i & Hi & Ho). apply in_seq in Hi.
      rewrite nth_error_map in Ho.
      destruct (nth_error items i) as [[sub|]|] eqn:E; cbn [option_map] in Ho;
        try destruct Ho.
      apply in_map_iff in Ho. destruct Ho as (o' & <- & Ho'). cbn [under snd snd] in *.
      assert (Hin : In (Some sub) items) by (eapply nth_error_In; exact E).
      assert (Ee : item (map (option_map value_of) items) i = value_of sub).
      { unfold item. now rewrite nth_error_map, E. }
      rewrite Ee in Ho'.
      exact (proj2 (IH _ Hin (Hall _ Hin)) _ _ Ho').
  - intros Hp. split; [reflexivity|]. intros k o. cbn [outcomes].
    intros [<-|[]]. cbn [snd truthy]. unfold value_of. cbn [embed schema_value].
    cbn [strict_neq_prim]. apply negb_false_iff, prim_strict_eq_iff.
    split; [reflexivity|]. intros ->. discriminate Hp.
Qed.

(** X13: data is valid against itself.  A value made of primitives other
    than [NaN] and the reserved symbols, of objects whose keys are not
    reserved symbols, and of arrays without holes, taken as a schema, passes
    the checks of the engine, and the validation of that same value against
    it returns [false], with no error path. *)
Theorem data_is_valid_against_itself (ps : pschema) (n : nat) :
  plain_data ps = true ->
  well_formed ps = true /\
  exists st',
    nv (schema_value (embed ps)) (embed ps) (createInstance n) = (Ok jfalse, st') /\
    errorPath st' = None.
Proof.
  intros Hp. destruct (plain_data_ok ps Hp) as [Hwf Hout]. split; [exact Hwf|].
  destruct (pure_top_level_total ps (value_of ps) n Hwf) as (st' & E & He & _).
  exists st'. fold (value_of ps).
  assert (Ef : first_failure (outcomes ps (value_of ps) None) = None).
  { unfold first_failure.
    destruct (find _ _) as [o|] eqn:Eo; [|reflexivity].
    apply find_some in Eo. destruct Eo as [Hin Ht].
    rewrite (Hout _ _ Hin) in Ht. discriminate Ht. }
  unfold spec_result, result_of in E. unfold spec_errorPath, path_of in He.
  rewrite Ef in E, He. now split.
Qed.

(** [{ name: 'x', tags: ['a', 1, null] }] against itself. *)
Lemma data_is_valid_witness :
  let ps := PObj [(KStr "name", PLit (PStr "x"));
                  (KStr "tags", PArr [Some (PLit (PStr "a")); Some (PLit (PNum 1));
                                      Some (PLit PNull)])] in
  well_formed ps = true /\
  exists st',
    nv (schema_value (embed ps)) (embed ps) (createInstance 0) = (Ok jfalse, st') /\
    errorPath st' = None.
Proof.
  intros ps. apply (data_is_valid_against_itself ps 0). reflexivity.
Defined.

(** ** Named paths: [formatPath], [path(name)] and [errorPath(name)]

    The name given to [path] and [errorPath] is [undefined] or a string.
    Strings are sequences of bytes; [JSON.stringify] leaves every byte
    from 32 on as it is, but the double quote and the backslash. *)

Local Open Scope string_scope.

Definition quote : ascii := ascii_of_nat 34.
Definition backslash : ascii := ascii_of_nat 92.

Definition hex_digit (n : nat) : ascii :=
  ascii_of_nat (if Nat.ltb n 10 then 48 + n else 87 + n).

(** The escape of one character in [JSON.stringify]. *)
Definition escape (c : ascii) : string :=
  let n := nat_of_ascii c in
  if Nat.eqb n 8 then String backslash "b"
  else if Nat.eqb n 9 then String backslash "t"
  else if Nat.eqb n 10 then String backslash "n"
  else if Nat.eqb n 12 then String backslash "f"
  else if Nat.eqb n 13 then String backslash "r"
  else if Nat.eqb n 34 then String backslash (String quote EmptyString)
  else if Nat.eqb n 92 then String backslash (String backslash EmptyString)
  else if Nat.ltb n 32 then
    String backslash
      ("u00" ++ String (hex_digit (n / 16)) (String (hex_digit (n mod 16)) EmptyString))
  else String c EmptyString.

Fixpoint escape_string (s : string) : string :=
  match s with
  | EmptyString => EmptyString
  | String c r => escape c ++ escape_string r
  end.

(** [JSON.stringify(key)] for a string and for an array index. *)
Definition JSON_stringify_string (s : string) : string :=
  String quote (escape_string s ++ String quote EmptyString).
Definition JSON_stringify_index (n : nat) : string := index_string n.

Section FormatPath.
(** The description a symbol was created with. *)
Variable description : nat -> string.

(** [key.toString()] for a symbol *)
Definition toString (id : nat) : string :=
  if in_symbolList id then symbol_toString id
  else "Symbol(" ++ description id ++ ")".

Definition chainifyKey (k : pkey) : string :=
  match k with
  | PKey (KSym id) => "[" ++ toString id ++ "]"
  | PKey (KStr s) => "[" ++ JSON_stringify_string s ++ "]"
  | PIdx n => "[" ++ JSON_stringify_index n ++ "]"
  end.

(** [strings.join('')] *)
Definition join (l : list string) : string := fold_right append EmptyString l.

(** What [formatPath] returns: a string, or a copy of the path. *)
Inductive formatted : Type :=
| Chain (s : string)
| Keys (p : list pkey).

(** [formatPath]; the empty string is a falsy name. *)
Definition formatPath (path : list pkey) (name : option string) : formatted :=
  match name with
  | Some s => if String.eqb s "" then Keys path
              else Chain (s ++ join (map chainifyKey path))
  | None => Keys path
  end.

(** [validator.path] *)
Definition path_named (name : option string) : M formatted :=
  fun st =>
    if finished st then (Exn (Err "path() called after validation"), st)
    else if negb (started st) then (Exn (Err "path() called before validation"), st)
    else (Ok (formatPath (path st) name), st).

(** [validator.errorPath] *)
Definition errorPath_named (name : option string) : M (option formatted) :=
  fun st =>
    if negb (finished st)
    then (Exn (Err "errorPath() called before validation is completed"), st)
    else match errorPath st with
         | None => (Ok None, st)
         | Some p => (Ok (Some (formatPath p name)), st)
         end.

(** *** A formatted path can be read in one way only *)

Definition unhex (c : ascii) : nat :=
  let n := nat_of_ascii c in if Nat.ltb n 58 then n - 48 else n - 87.

(** Reads one escaped character off the front of a string. *)
Definition unescape (s : string) : option (ascii * string) :=
  match s with
  | EmptyString => None
  | String c r =>
      if Ascii.eqb c backslash then
        match r with
        | String d r' =>
            let n := nat_of_ascii d in
            if Nat.eqb n 98 then Some (ascii_of_nat 8, r')
            else if Nat.eqb n 116 then Some (ascii_of_nat 9, r')
            else if Nat.eqb n 110 then Some (ascii_of_nat 10, r')
            else if Nat.eqb n 102 then Some (ascii_of_nat 12, r')
            else if Nat.eqb n 114 then Some (ascii_of_nat 13, r')
            else if Nat.eqb n 34 then Some (quote, r')
            else if Nat.eqb n 92 then Some (backslash, r')
            else match r' with
                 | String _ (String _ (String h (String l r''))) =>
                     Some (ascii_of_nat (16 * unhex h + unhex l), r'')
                 | _ => None
                 end
        | EmptyString => None
        end
      else Some (c, r)
  end.

Lemma unescape_escape (c : ascii) (r : string) :
  unescape (escape c ++ r) = Some (c, r).
Proof. destruct c as [[|] [|] [|] [|] [|] [|] [|] [|]]; reflexivity. Qed.

Lemma append_assoc (a b c : string) : (a ++ b) ++ c = a ++ (b ++ c).
Proof. induction a as [|x a IH]; simpl; [reflexivity | now rewrite IH]. Qed.

Lemma append_inj_l (a b c : string) : a ++ b = a ++ c -> b = c.
Proof. induction a as [|x a IH]; simpl; [auto|]. intros [= H]. auto. Qed.

Lemma escape_not_quote (c : ascii) (r r' : string) :
  escape c ++ r <> String quote r'.
Proof.
  intros H. pose proof (unescape_escape c r) as E. rewrite H in E.
  cbn in E. injection E as <- _. discriminate H.
Qed.

(** An escaped string ends at the first quote that is not escaped. *)
Lemma escape_string_delimited (s1 : string) : forall s2 r1 r2,
  escape_string s1 ++ String quote r1 = escape_string s2 ++ String quote r2 ->
  s1 = s2 /\ r1 = r2.
Proof.
  induction s1 as [|c1 s1 IH]; intros [|c2 s2] r1 r2; cbn [escape_string].
  - intros [= ->]. now split.
  - rewrite append_assoc. intros H. symmetry in H. now apply escape_not_quote in H.
  - rewrite append_assoc. intros H. now apply escape_not_quote in H.
  - rewrite !append_assoc. intros H.
    pose proof (unescape_escape c1 (escape_string s1 ++ String quote r1)) as E.
    rewrite H, unescape_escape in E. injection E as -> E.
    symmetry in E. destruct (IH _ _ _ E) as [-> ->]. now split.
Qed.

Lemma all_digits_string_of_uint (d : uint) :
  all_digits (NilEmpty.string_of_uint d) = true.
Proof. induction d; simpl; auto. Qed.

Lemma all_digits_index_string (n : nat) : all_digits (index_string n) = true.
Proof.
  unfold index_string, NilZero.string_of_uint.
  destruct (N.to_uint (N.of_nat n)) eqn:E; try reflexivity;
    rewrite <- E; apply all_digits_string_of_uint.
Qed.

Lemma index_string_nonempty (n : nat) : index_string n <> EmptyString.
Proof.
  unfold index_string, NilZero.string_of_uint.
  destruct (N.to_uint (N.of_nat n)); simpl; discriminate.
Qed.

(** An index printed in decimal is the canonical key of that index. *)
Lemma canonical_index_index_string (n : nat) :
  canonical_index (index_string n) = Some (N.of_nat n).
Proof.
  unfold canonical_index, index_string.
  destruct (N.to_uint (N.of_nat n)) eqn:E;
    [|rewrite NilZero.usu by discriminate;
      rewrite <- E, DecimalN.Unsigned.of_to, String.eqb_refl; reflexivity ..].
  pose proof (DecimalN.Unsigned.of_to (N.of_nat n)) as H. rewrite E in H.
  cbn in H. rewrite <- H. reflexivity.
Qed.

Lemma index_string_inj (n m : nat) : index_string n = index_string m -> n = m.
Proof.
  intros H. pose proof (canonical_index_index_string n) as E.
  rewrite H, canonical_index_index_string in E. injection E as E.
  symmetry. now apply Nat2N.inj.
Qed.

(** A run of digits ends at the first bracket. *)
Lemma digits_delimited (a : string) : forall b r1 r2,
  all_digits a = true -> all_digits b = true ->
  a ++ String "]" r1 = b ++ String "]" r2 -> a = b /\ r1 = r2.
Proof.
  induction a as [|x a IH]; intros [|y b] r1 r2 Ha Hb; cbn [append].
  - intros [= ->]. now split.
  - intros [= <- _]. cbn in Hb. discriminate Hb.
  - intros [= -> _]. cbn in Ha. discriminate Ha.
  - intros [= -> H]. cbn [all_digits] in Ha, Hb.
    apply andb_prop in Ha, Hb.
    destruct (IH _ _ _ (proj2 Ha) (proj2 Hb) H) as [-> ->]. now split.
Qed.

Definition symbol_free (p : list pkey) : bool :=
  forallb (fun k => match k with PKey (KSym _) => false | _ => true end) p.

(** The text of one key cannot be mistaken for the beginning of another. *)
Lemma chainifyKey_delimited (k1 k2 : pkey) (r1 r2 : string) :
  symbol_free [k1] = true -> symbol_free [k2] = true ->
  chainifyKey k1 ++ r1 = chainifyKey k2 ++ r2 -> k1 = k2 /\ r1 = r2.
Proof.
  destruct k1 as [n1|[s1|i1]], k2 as [n2|[s2|i2]]; try discriminate; intros _ _;
    unfold chainifyKey, JSON_stringify_string, JSON_stringify_index;
    cbn [append]; rewrite ?append_assoc; cbn [append]; intros [= H].
  - apply digits_delimited in H; try apply all_digits_index_string.
    destruct H as [H ->]. apply index_string_inj in H. now subst.
  - pose proof (all_digits_index_string n1) as Hd.
    pose proof (index_string_nonempty n1) as Hn.
    destruct (index_string n1) as [|c r]; [now elim Hn|].
    cbn [append] in H. injection H as -> _. discriminate Hd.
  - pose proof (all_digits_index_string n2) as Hd.
    pose proof (index_string_nonempty n2) as Hn.
    destruct (index_string n2) as [|c r]; [now elim Hn|].
    cbn [append] in H. injection H as <- _. discriminate Hd.
  - apply escape_string_delimited in H. destruct H as [-> H].
    injection H as ->. now split.
Qed.

Lemma join_delimited (p : list pkey) : forall q,
  symbol_free p = true -> symbol_free q = true ->
  join (map chainifyKey p) = join (map chainifyKey q) -> p = q.
Proof.
  induction p as [|k p IH]; intros [|k' q] Hp Hq; cbn [map join fold_right].
  - reflexivity.
  - destruct k' as [n|[s|i]]; discriminate.
  - destruct k as [n|[s|i]]; discriminate.
  - cbn [symbol_free forallb] in Hp, Hq. apply andb_prop in Hp, Hq.
    intros H. apply chainifyKey_delimited in H.
    + destruct H as [-> H]. f_equal. apply IH; [apply Hp | apply Hq | exact H].
    + cbn. now rewrite (proj1 Hp).
    + cbn. now rewrite (proj1 Hq).
Qed.

(** X14: a path formatted under a name reads in one way only: two paths of
    string keys and indices that give the same text under the same name are
    the same path, characters such as quotes and brackets in the keys
    notwithstanding.  An empty name gives a copy of the path, as no name
    does. *)
Theorem formatPath_is_unambiguous (name : string) (p q : list pkey) :
  (name <> EmptyString -> symbol_free p = true -> symbol_free q = true ->
   formatPath p (Some name) = formatPath q (Some name) -> p = q) /\
  formatPath p (Some EmptyString) = Keys p /\
  formatPath p None = Keys p.
Proof.
  split; [|split; reflexivity].
  intros Hn Hp Hq. unfold formatPath.
  destruct (String.eqb_spec name ""); [contradiction|].
  intros [= H]. apply append_inj_l in H. now apply join_delimited.
Qed.

End FormatPath.

Local Open Scope list_scope.

(** [['a]', 0]] and [['a', 0]] under the name [v]. *)
Lemma formatPath_witness :
  [PKey (KStr "a]"); PIdx 0] = [PKey (KStr "a]"); PIdx 0].
Proof.
  apply (proj1 (formatPath_is_unambiguous (fun _ => "s") "v"
                  [PKey (KStr "a]"); PIdx 0] [PKey (KStr "a]"); PIdx 0]));
    [discriminate | reflexivity | reflexivity | reflexivity].
Defined.

(** The examples of the documentation:
    [path('data')] is [data["users"][1]["name"]]. *)
Lemma formatPath_example :
  formatPath (fun _ => "s") [PKey (KStr "users"); PIdx 1; PKey (KStr "name")]
    (Some "data")
  = Chain ("data[" ++ String quote ("users" ++ String quote ("][1]["
            ++ String quote ("name" ++ String quote "]")))).
Proof. reflexivity. Qed.

(** ** When [path] and [errorPath] answer *)

Section PathQueries.
Variable description : nat -> string.

(** X15: [path(name)] answers during a validation only, and
    [errorPath(name)] after it only.  On a new instance both throw; while
    the session is not finished [errorPath] throws, and once it has started
    [path] gives the current path, formatted under the name; after a
    top-level call, however it ended,
    [path] throws and [errorPath] gives the latched path, formatted, or
    [null].  None of them touches the session, and without a name they are
    [path()] and [errorPath()]. *)
Theorem path_and_errorPath_answer_in_turn (name : option string) :
  (forall n,
      path_named description name (createInstance n)
      = (Exn (Err "path() called before validation"), createInstance n) /\
      errorPath_named description name (createInstance n)
      = (Exn (Err "errorPath() called before validation is completed"),
         createInstance n)) /\
  (forall st, finished st = false ->
      errorPath_named description name st
      = (Exn (Err "errorPath() called before validation is completed"), st) /\
      (started st = true ->
       path_named description name st
       = (Ok (formatPath description (path st) name), st))) /\
  (forall v s n,
      let st := snd (nv v s (createInstance n)) in
      path_named description name st
      = (Exn (Err "path() called after validation"), st) /\
      errorPath_named description name st
      = (Ok (option_map (fun p => formatPath description p name) (errorPath st)), st)) /\
  (forall st,
      path_named description None st = (r <- path_ ;; ret (Keys r)) st /\
      errorPath_named description None st
      = (r <- errorPath_ ;; ret (option_map Keys r)) st).
Proof.
  split; [|split; [|split]].
  - intros n. split; reflexivity.
  - intros st Hf. unfold errorPath_named, path_named. rewrite Hf. cbn [negb].
    split; [reflexivity|]. now intros ->.
  - intros v s n st. pose proof (top_level v s n) as H. unfold post in H. fold st in H.
    destruct H as (Hf & _). unfold errorPath_named, path_named. rewrite Hf. cbn [negb].
    split; [reflexivity|]. now destruct (errorPath st).
  - intros st. unfold path_named, errorPath_named, path_, errorPath_, bind, ret.
    split.
    + destruct (finished st); [reflexivity|]. now destruct (started st).
    + destruct (finished st); cbn [negb]; [|reflexivity]. now destruct (errorPath st).
Qed.

End PathQueries.

(** [path('json')] inside the callback of a member [test]. *)
Lemma path_and_errorPath_witness :
  path_named (fun _ => "s") (Some "json") (set_path (push (PKey (KStr "test"))) (entered 0))
  = (Ok (Chain ("json[" ++ String quote ("test" ++ String quote "]"))),
     set_path (push (PKey (KStr "test"))) (entered 0)).
Proof.
  apply (proj1 (proj2 (path_and_errorPath_answer_in_turn (fun _ => "s") (Some "json")))
           (set_path (push (PKey (KStr "test"))) (entered 0)));
    reflexivity.
Defined.

(** ** The key of the member under inspection *)

(** X16: the callback of a member is called with the member's key as its
    second argument, the one [inspectKey] has pushed on [path]; for a member
    of an object [key()] returns it, and [index()] throws after a reset,
    which ends the session; for an element of an array it is the other way
    round.  Inside the callback [value()] is its first argument. *)
Theorem callbacks_are_given_the_key (st : state) (k : pkey) :
  (forall v, value_ (set_values (push v) st) = wrapIfSafe v (set_values (push v) st)) /\
  (forall id body v,
      doInspect (SFun id body) v (set_path (push k) st)
      = doInspect (SFun id (fun v' _ => body v' (Some k))) v (set_path (push k) st)) /\
  match k with
  | PKey x =>
      key_ (set_path (push k) st) = (Ok x, set_path (push k) st) /\
      index (set_path (push k) st)
      = (Exn (Err "index() can be called for arrays only"),
         reset true (set_path (push k) st))
  | PIdx i =>
      index (set_path (push k) st) = (Ok i, set_path (push k) st) /\
      key_ (set_path (push k) st)
      = (Exn (Err "key() can be called for objects only"),
         reset true (set_path (push k) st))
  end.
Proof.
  split; [|split].
  - intros v. unfold value_. unfold_monad. cbv beta.
    cbn [values set_values]. rewrite length_push. cbn [Nat.eqb]. cbv beta iota.
    unfold currentValue. cbn [values set_values]. unfold push.
    now rewrite last_last.
  - intros id body v. cbn [doInspect]. unfold run.
    assert (E : currentKey (set_values (push v) (set_path (push k) st)) = Some k).
    { apply (currentKey_push k (set_values (push v) st)). }
    now rewrite E.
  - unfold key_, index. unfold_monad. rewrite currentKey_push.
    destruct k; split; reflexivity.
Qed.

(** ** Validation from within a callback *)

(** X17: a call of the instance made while a session runs leaves the
    context as it found it.  When the nested validation returns, it returns
    [false] or an error, the session still runs, and [values], [funnel],
    [path] and the depth are what they were, so that the current value and
    the current key are the same after the call as before; when it throws,
    the session is finished and the stacks are empty. *)
Theorem nested_validation_restores_the_context
  (value : option JS.value) (s : schema) (st : state) :
  Running st ->
  match validator value (inspect_schema s) st with
  | (Ok r, st') =>
      (r = jfalse \/ truthy r = true) /\ finished st' = false /\
      values st' = values st /\ funnel st' = funnel st /\ path st' = path st /\
      validatorDepth st' = validatorDepth st /\
      currentValue st' = currentValue st /\ currentKey st' = currentKey st
  | (Exn _, st') =>
      finished st' = true /\ values st' = [] /\ funnel st' = [] /\ path st' = []
  end.
Proof.
  intros HR.
  pose proof (proj1 (validator_ok value (inspect_schema s)
                       (inspect_ok _ (proj1 engine_ok s))) st HR) as H.
  unfold post in H.
  destruct (validator value (inspect_schema s) st) as [[r|e] st']; cbn [fst snd] in H.
  - destruct H as ((Hf & _) & (Hv & Hfu & Hp & Hd) & Hr).
    unfold currentValue, currentKey. rewrite Hv, Hp. repeat split; assumption.
  - destruct H as (Hf & Hv & Hfu & Hp & _). repeat split; assumption.
Qed.

(** [nv(1)] called from a callback whose value is [1]. *)
Lemma nested_validation_witness :
  match validator None (inspect_schema (SLit (PNum 1)))
          (set_values (push (VPrim (PNum 1))) (entered 0)) with
  | (Ok r, st') =>
      (r = jfalse \/ truthy r = true) /\ finished st' = false /\
      values st' = [VPrim (PNum 1)] /\ funnel st' = [] /\ path st' = [] /\
      validatorDepth st' = 1%Z /\
      currentValue st' = VPrim (PNum 1) /\ currentKey st' = None
  | (Exn _, st') =>
      finished st' = true /\ values st' = [] /\ funnel st' = [] /\ path st' = []
  end.
Proof.
  apply (nested_validation_restores_the_context None (SLit (PNum 1))
           (set_values (push (VPrim (PNum 1))) (entered 0))).
  repeat split; cbn; try lia. constructor.
Defined.

(** ** Matchers and the current value *)

(** X18: during a validation a matcher called without an argument is the
    matcher called with the current value, whatever that value is: a
    current value that is a function is matched as a value, not called as a
    navigation. *)
Theorem matcher_without_argument_takes_the_current_value
  (matcher : value -> M value) (name : string) (call : M value) (st : state) :
  values st <> [] ->
  enhanceMatcher matcher name NoArgs st
  = enhanceMatcher matcher name (OneArg (currentValue st) call) st /\
  enhanceMatcher matcher name NoArgs st = matcher (currentValue st) st.
Proof.
  intros Hv. unfold enhanceMatcher. unfold_monad.
  destruct (values st) as [|x l] eqn:E; [now elim Hv|]. cbn [List.length Nat.eqb].
  split; [|reflexivity].
  destruct (currentValue st) as [p|i|items|props|u|native|] eqn:Ec; cbn;
    rewrite ?Nat.eqb_refl, ?String.eqb_refl; reflexivity.
Qed.

(** [nv.function()] on a current value that is a function. *)
Lemma matcher_without_argument_witness :
  enhanceMatcher (fun v => ret (VPrim (PBool (matchers.function v)))) "function" NoArgs
    (set_values (push (VFun 7)) (entered 0))
  = (Ok jtrue, set_values (push (VFun 7)) (entered 0)).
Proof.
  apply (proj2 (matcher_without_argument_takes_the_current_value
                  (fun v => ret (VPrim (PBool (matchers.function v)))) "function"
                  (ret undefined) (set_values (push (VFun 7)) (entered 0))
                  ltac:(discriminate))).
Defined.

(** ** Custom matchers: [addMatcher]

    The instance is a function object; its own properties are [length] and
    [name], which every function has, and what [createInstance] assigns:
    the navigation methods, the built-in matchers, [addMatcher], and the
    three reserved symbols.  Its prototype is [Function.prototype].
    [addMatcher] throws without a reset, and touches nothing of the
    session. *)

Inductive property : Type :=
| OfFunction
| Method
| BuiltinMatcher
| ReservedSymbol (id : nat)
| CustomMatcher (matcher : value) (name : key).

(** The own properties of the instance that [createInstance] returns, in
    the order of their creation. *)
Definition validator_properties : list (key * property) :=
  [(KStr "length", OfFunction); (KStr "name", OfFunction);
   (KStr "root", Method); (KStr "up", Method); (KStr "value", Method);
   (KStr "key", Method); (KStr "index", Method); (KStr "path", Method);
   (KStr "errorPath", Method);
   (KStr "number", BuiltinMatcher); (KStr "string", BuiltinMatcher);
   (KStr "boolean", BuiltinMatcher); (KStr "null", BuiltinMatcher);
   (KStr "undefined", BuiltinMatcher); (KStr "defined", BuiltinMatcher);
   (KStr "bigint", BuiltinMatcher); (KStr "symbol", BuiltinMatcher);
   (KStr "function", BuiltinMatcher); (KStr "array", BuiltinMatcher);
   (KStr "object", BuiltinMatcher); (KStr "get", BuiltinMatcher);
   (KStr "addMatcher", Method);
   (KStr "other", ReservedSymbol symbols.other);
   (KStr "error", ReservedSymbol symbols.error);
   (KStr "end", ReservedSymbol symbols.end_)].

(** The prototype of the instance: [Function.prototype], or the matcher
    that an assignment to [__proto__] has put in its place, whose own
    prototype is [Function.prototype]. *)
Inductive prototype : Type :=
| FunctionPrototype
| Enhanced (matcher : value) (name : key).

Record instance : Type := mkInstance {
  own : list (key * property);
  proto : prototype
}.

Definition new_instance : instance := mkInstance validator_properties FunctionPrototype.

Section AddMatcher.
(** [f.name] and [f.length] of a function [f], the description of a
    symbol, and the identity of the symbol [Symbol.hasInstance]. *)
Variables (function_name : value -> string) (function_length : value -> nat).
Variable description : nat -> string.
Variable hasInstance : nat.

(** [name.toString()] for a string or a symbol *)
Definition name_toString (name : key) : string :=
  match name with
  | KStr s => s
  | KSym id => toString description id
  end.

Definition ALREADY (name : key) : string :=
  "Validator already has property "
  ++ String (ascii_of_nat 34) (name_toString name ++ String (ascii_of_nat 34) "").

(** The names under which an assignment to the instance makes an own
    property: all but those under which the instance inherits an accessor
    or a property that cannot be written. *)
Definition ordinary (name : key) : bool :=
  match name with
  | KStr s =>
      negb (String.eqb s "__proto__" || String.eqb s "caller"
            || String.eqb s "arguments")
  | KSym id => negb (Nat.eqb id hasInstance)
  end.

(** [validator[name] = enhanceMatcher(matcher, name)], for a [name] that is
    not an own property of the instance.  The assignment goes by what the
    instance inherits under [name].  The setter of the accessor [__proto__]
    of [Object.prototype] makes the function the prototype of the instance;
    the setters of the accessors [caller] and [arguments] of
    [Function.prototype] throw a [TypeError], with a message of the runtime;
    [Function.prototype[Symbol.hasInstance]] cannot be written, and the
    assignment, which the source makes in sloppy mode, does nothing.  Under
    any other name the instance gets an own property. *)
Definition assign (name : key) (matcher : value) (validator : instance)
  : result unit * instance :=
  if ordinary name
  then (Ok tt, mkInstance (own validator ++ [(name, CustomMatcher matcher name)])
                          (proto validator))
  else
    match name with
    | KStr s =>
        if String.eqb s "__proto__"
        then (Ok tt, mkInstance (own validator) (Enhanced matcher name))
        else (Exn (Err "TypeError"), validator)
    | KSym _ => (Ok tt, validator)
    end.

(** The end of [addMatcher], once [name] and [matcher] are known. *)
Definition register (name : key) (matcher : value) (validator : instance)
  : result unit * instance :=
  if negb (Nat.eqb (function_length matcher) 1)
  then (Exn (Err "Matcher must accept exactly one parameter"), validator)
  else if has_key name (own validator)
  then (Exn (Err (ALREADY name)), validator)
  else assign name matcher validator.

(** [validator.addMatcher(...args)] *)
Definition addMatcher (args : list value) (validator : instance)
  : result unit * instance :=
  match args with
  | [name; matcher] =>
      if negb (matchers.string name) && negb (matchers.symbol name)
      then (Exn (Err "Name of a matcher should be either string or symbol"), validator)
      else if negb (matchers.function matcher)
      then (Exn (Err "Second addMatcher argument must be a function"), validator)
      else
        match to_key name with
        | Some k => register k matcher validator
        | None => (Exn (Err "Name of a matcher should be either string or symbol"),
                   validator)
        end
  | [matcher] =>
      if negb (matchers.function matcher) || String.eqb (function_name matcher) ""
      then (Exn (Err "Single addMatcher argument must be a named function"), validator)
      else register (KStr (function_name matcher)) matcher validator
  | _ => (Exn (Err "addMatcher expects exactly one or two arguments"), validator)
  end.

(** Calls of [addMatcher] one after the other. *)
Fixpoint addMatchers (calls : list (list value)) (validator : instance) : instance :=
  match calls with
  | [] => validator
  | args :: rest => addMatchers rest (snd (addMatcher args validator))
  end.

Lemma lookup_app_has {A} k (l l' : list (key * A)) :
  has_key k l = true -> lookup k (l ++ l') = lookup k l.
Proof.
  unfold has_key. induction l as [|[k' a] l IH]; simpl; [discriminate|].
  destruct (key_eqb k' k); [reflexivity | exact IH].
Qed.

Lemma lookup_app_new {A} k a (l : list (key * A)) :
  has_key k l = false -> lookup k (l ++ [(k, a)]) = Some a.
Proof.
  unfold has_key. induction l as [|[k' b] l IH]; simpl.
  - intros _. now destruct (key_eqb_spec k k).
  - destruct (key_eqb k' k); [discriminate | exact IH].
Qed.

Lemma assign_keeps name matcher validator k :
  has_key k (own validator) = true ->
  lookup k (own (snd (assign name matcher validator))) = lookup k (own validator).
Proof.
  intros H. unfold assign. destruct (ordinary name).
  - cbn [snd own]. now apply lookup_app_has.
  - destruct name as [s|id]; [|reflexivity]. now destruct (String.eqb s "__proto__").
Qed.

Lemma register_keeps name matcher validator k :
  has_key k (own validator) = true ->
  lookup k (own (snd (register name matcher validator))) = lookup k (own validator).
Proof.
  intros H. unfold register.
  destruct (negb _); [reflexivity|].
  destruct (has_key name (own validator)); [reflexivity|].
  now apply assign_keeps.
Qed.

Lemma addMatcher_keeps args validator k :
  has_key k (own validator) = true ->
  lookup k (own (snd (addMatcher args validator))) = lookup k (own validator).
Proof.
  intros H. unfold addMatcher.
  destruct args as [|a [|b [|c r]]]; try reflexivity.
  - destruct (negb (matchers.function a) || _); [reflexivity|].
    now apply register_keeps.
  - destruct (negb (matchers.string a) && negb (matchers.symbol a)); [reflexivity|].
    destruct (negb (matchers.function b)); [reflexivity|].
    destruct (to_key a); [now apply register_keeps | reflexivity].
Qed.

Lemma addMatchers_keeps calls : forall validator k,
  has_key k (own validator) = true ->
  lookup k (own (addMatchers calls validator)) = lookup k (own validator).
Proof.
  induction calls as [|args rest IH]; intros validator k H; cbn [addMatchers];
    [reflexivity|].
  rewrite IH.
  - now apply addMatcher_keeps.
  - unfold has_key in *. now rewrite addMatcher_keeps.
Qed.

Lemma addMatcher_named name f validator :
  matchers.function f = true ->
  addMatcher [key_value name; f] validator = register name f validator.
Proof. intros Hf. unfold addMatcher. destruct name; cbn; now rewrite Hf. Qed.

(** X19: [addMatcher] never replaces an own property of the instance.
    Whatever calls are made, with whatever arguments, every own property of
    the instance is afterwards what it was: the navigation methods, the
    built-in matchers, the reserved symbols, [length] and [name], and the
    matchers added before.  Under a name that is free and ordinary, that is
    other than [__proto__], [caller], [arguments] and [Symbol.hasInstance],
    a function of one parameter is registered, and a second registration
    under that name throws 'Validator already has property'.  Under
    [__proto__] nothing is registered: the function becomes the prototype of
    the instance, and a second call replaces it; under [caller] and
    [arguments] the assignment throws a [TypeError]; under
    [Symbol.hasInstance] it does nothing.  A call that throws changes
    nothing. *)
Theorem addMatcher_never_replaces_a_property :
  (forall calls validator k,
      has_key k (own validator) = true ->
      lookup k (own (addMatchers calls validator)) = lookup k (own validator)) /\
  (forall name f validator,
      matchers.function f = true -> function_length f = 1 ->
      has_key name (own validator) = false -> ordinary name = true ->
      let validator' :=
        mkInstance (own validator ++ [(name, CustomMatcher f name)]) (proto validator) in
      addMatcher [key_value name; f] validator = (Ok tt, validator') /\
      lookup name (own validator') = Some (CustomMatcher f name) /\
      forall g, matchers.function g = true ->
                addMatcher [key_value name; g] validator'
                = (Exn (Err (if Nat.eqb (function_length g) 1 then ALREADY name
                             else "Matcher must accept exactly one parameter")),
                   validator')) /\
  (forall name f validator,
      matchers.function f = true -> function_length f = 1 ->
      has_key name (own validator) = false -> ordinary name = false ->
      addMatcher [key_value name; f] validator
      = match name with
        | KStr s =>
            if String.eqb s "__proto__"
            then (Ok tt, mkInstance (own validator) (Enhanced f name))
            else (Exn (Err "TypeError"), validator)
        | KSym _ => (Ok tt, validator)
        end) /\
  (forall args validator e validator',
      addMatcher args validator = (Exn e, validator') -> validator' = validator).
Proof.
  split; [exact addMatchers_keeps|]. split; [|split].
  - intros name f validator Hf Hl Hk Ho validator'.
    split; [|split].
    + rewrite (addMatcher_named _ _ _ Hf). unfold register, assign.
      now rewrite Hl, Hk, Ho.
    + now apply lookup_app_new.
    + intros g Hg. rewrite (addMatcher_named _ _ _ Hg). unfold register.
      destruct (Nat.eqb (function_length g) 1); [|reflexivity].
      cbn [negb]. unfold has_key. cbn [own validator'].
      rewrite lookup_app_new by exact Hk. reflexivity.
  - intros name f validator Hf Hl Hk Ho.
    rewrite (addMatcher_named _ _ _ Hf). unfold register, assign.
    now rewrite Hl, Hk, Ho.
  - intros args validator e validator'. unfold addMatcher, register, assign.
    destruct args as [|a [|b [|c r]]]; try (now intros [= _ <-]).
    + destruct (negb (matchers.function a) || _); [now intros [= _ <-]|].
      destruct (negb _); [now intros [= _ <-]|].
      destruct (has_key _ _); [now intros [= _ <-]|].
      destruct (ordinary _); [discriminate|].
      destruct (String.eqb _ "__proto__"); [discriminate | now intros [= _ <-]].
    + destruct (negb (matchers.string a) && negb (matchers.symbol a));
        [now intros [= _ <-]|].
      destruct (negb (matchers.function b)); [now intros [= _ <-]|].
      destruct (to_key a) as [k|]; [|now intros [= _ <-]].
      destruct (negb _); [now intros [= _ <-]|].
      destruct (has_key _ _); [now intros [= _ <-]|].
      destruct (ordinary k); [discriminate|].
      destruct k as [s|id]; [|discriminate].
      destruct (String.eqb s "__proto__"); [discriminate | now intros [= _ <-]].
Qed.

End AddMatcher.

(** [addMatcher('value', n => n)] on a new instance. *)
Lemma addMatcher_witness :
  lookup (KStr "value")
    (own (addMatchers (fun _ => "") (fun _ => 1) (fun _ => "s") 3
            [[VPrim (PStr "value"); VFun 0]] new_instance))
  = Some Method.
Proof.
  apply (proj1 (addMatcher_never_replaces_a_property (fun _ => "") (fun _ => 1)
                  (fun _ => "s") 3)).
  reflexivity.
Defined.

(** ** Safe navigation: what the Proxy lets through *)

(** A property that no wrapped value was turned into. *)
Definition plain_property (property : key) (st : state) : Prop :=
  match property with
  | KStr _ => True
  | KSym id => safe_lookup id (safeMap st) = None
  end.

Lemma resolve_plain property st :
  plain_property property st -> resolve_property property st = key_value property.
Proof.
  destruct property as [s|id]; cbn; [reflexivity|]. now intros ->.
Qed.

Lemma getter_object props property st :
  plain_property property st ->
  getter (VObj props) property st = (Ok (VWrap (own_member props property)), st).
Proof.
  intros Hp. unfold getter. rewrite (resolve_plain _ _ Hp).
  unfold valid, hasProperty, get_own, own_member.
  destruct property as [s|id]; cbn; now destruct (lookup _ props).
Qed.

(** X20: through the Proxy of safe navigation a program sees the own
    properties of an object and the elements of an array, and nothing
    else.  A property of an object reads as the plain access does; an index
    of an array reads the element, [undefined] for a hole or beyond the
    end; the [length] of an array reads [undefined]; any property of a
    value that is neither an object nor an array, a string or a function
    for instance, reads [undefined].  The read never throws and changes
    nothing. *)
Theorem safe_navigation_reads_own_members_only (property : key) (st : state) :
  plain_property property st ->
  (forall props,
      getter (VObj props) property st = (Ok (VWrap (own_member props property)), st)) /\
  (forall items i,
      property = KStr (index_string i) ->
      getter (VArr items) property st = (Ok (VWrap (element (VArr items) i)), st)) /\
  (forall items,
      property = KStr "length" ->
      getter (VArr items) property st = (Ok (VWrap undefined), st)) /\
  (forall u,
      matchers.object u = false -> matchers.array u = false ->
      getter u property st = (Ok (VWrap undefined), st)).
Proof.
  intros Hp. split; [intros props; now apply getter_object|].
  unfold getter. rewrite (resolve_plain _ _ Hp).
  split; [|split].
  - intros items i ->. unfold valid, hasProperty, get_own. cbn.
    pose proof (all_digits_index_string i) as Hd.
    pose proof (index_string_nonempty i) as Hn.
    rewrite Hd.
    destruct (String.eqb_spec (index_string i) ""); [contradiction|].
    destruct (String.eqb_spec (index_string i) "length") as [E|_].
    { rewrite E in Hd. discriminate Hd. }
    rewrite canonical_index_index_string, Nat2N.id. cbn.
    now destruct (nth_error items i) as [[x|]|].
  - intros items ->. reflexivity.
  - intros u Ho Ha. unfold valid. rewrite Ho, Ha. reflexivity.
Qed.

(** [root().list[1]] on [{ list: ['a', 'b'] }], read in two steps. *)
Lemma safe_navigation_witness :
  getter (VArr [Some (VPrim (PStr "a")); Some (VPrim (PStr "b"))])
         (KStr (index_string 1)) (createInstance 0)
  = (Ok (VWrap (VPrim (PStr "b"))), createInstance 0).
Proof.
  exact (proj1 (proj2 (safe_navigation_reads_own_members_only
                         (KStr (index_string 1)) (createInstance 0) I))
           [Some (VPrim (PStr "a")); Some (VPrim (PStr "b"))] 1 eq_refl).
Defined.

(** ** Safe navigation: a wrapped value as a key *)

(** Every symbol in [safeMap] was drawn from the supply. *)
Definition supply_fresh (st : state) : Prop :=
  Forall (fun e => fst e < symbolSupply st) (safeMap st).

Lemma safe_lookup_fresh id m :
  Forall (fun e : nat * value => fst e < id) m -> safe_lookup id m = None.
Proof.
  induction 1 as [|[i v] m Hi _ IH]; cbn [safe_lookup]; [reflexivity|].
  cbn in Hi. destruct (Nat.eqb_spec i id); [lia | exact IH].
Qed.

Lemma safe_lookup_last id u m :
  safe_lookup id m = None -> safe_lookup id (m ++ [(id, u)]) = Some u.
Proof.
  induction m as [|[i v] m IH]; simpl.
  - now rewrite Nat.eqb_refl.
  - destruct (Nat.eqb i id); [discriminate | exact IH].
Qed.

(** Numbers as keys: an integer up to [2^53] is its numeral; beyond, the
    digits are those of the shortest decimal that reads back, and from
    [1e+21] on the key is in exponent notation. *)
Lemma Number_toString_examples :
  Number_toString 0 = "0" /\ Number_toString (-5) = "-5" /\
  Number_toString (2 ^ 53) = "9007199254740992" /\
  Number_toString (2 ^ 64) = "18446744073709552000" /\
  Number_toString (10 ^ 21) = "1e+21" /\
  Number_toString (2 ^ 70) = "1.1805916207174113e+21" /\
  Number_toString (- 123 * 10 ^ 20) = "-1.23e+22".
Proof. vm_compute. repeat split. Qed.

(** X21: a wrapped value used as a computed key stands for the value it
    wraps.  Turning the Proxy around [u] into a key and reading, through the
    Proxy around [v], the property of that key reads the property [u] of
    [v]: an own member when [u] is a string, a number or a symbol that names
    one, and [undefined] otherwise; so a wrapped [undefined] reads nothing,
    even from an object that has a key 'undefined', and a wrapped number
    reads, from an object, the own member under the string of the number.
    The supply of fresh symbols stays fresh. *)
Theorem wrapped_value_as_key (u v : value) (st : state) :
  supply_fresh st ->
  (k <- toPrimitive u ;; getter v (KSym k)) st
  = (Ok (VWrap (if valid v u then get_own v u else undefined)), register_safe u st) /\
  supply_fresh (register_safe u st) /\
  (u = undefined ->
   (k <- toPrimitive u ;; getter v (KSym k)) st
   = (Ok (VWrap undefined), register_safe u st)) /\
  (forall z props,
   u = VPrim (PNum z) -> v = VObj props ->
   (k <- toPrimitive u ;; getter v (KSym k)) st
   = (Ok (VWrap (own_member props (KStr (Number_toString z)))), register_safe u st)).
Proof.
  intros Hf.
  assert (E : (k <- toPrimitive u ;; getter v (KSym k)) st
              = (Ok (VWrap (if valid v u then get_own v u else undefined)),
                 register_safe u st)).
  { unfold bind, toPrimitive, getter, resolve_property. cbn [safeMap register_safe].
    rewrite safe_lookup_last by now apply safe_lookup_fresh. reflexivity. }
  split; [exact E|]. split; [|split].
  - unfold supply_fresh in *. cbn [safeMap symbolSupply register_safe].
    apply Forall_app. split.
    + eapply Forall_impl; [|exact Hf]. cbn. intros; lia.
    + constructor; [cbn; lia | constructor].
  - intros ->. rewrite E. unfold valid, hasProperty. cbn.
    now rewrite !andb_false_r.
  - intros z props -> ->. rewrite E.
    unfold valid, hasProperty, get_own, own_member.
    cbn [matchers.object matchers.symbol matchers.string matchers.number
         matchers.array to_key own_get andb orb].
    now destruct (lookup _ props).
Qed.

(** [root()[value()]] on [{ '1e+21': 'exp', '1000000000000000000000': 'plain' }]
    when the value is [1e21]. *)
Lemma wrapped_value_as_key_witness :
  (k <- toPrimitive (VPrim (PNum (10 ^ 21))) ;;
   getter (VObj [(KStr "1e+21", VPrim (PStr "exp"));
                 (KStr "1000000000000000000000", VPrim (PStr "plain"))]) (KSym k))
    (createInstance 0)
  = (Ok (VWrap (VPrim (PStr "exp"))),
     register_safe (VPrim (PNum (10 ^ 21))) (createInstance 0)).
Proof.
  exact (proj2 (proj2 (proj2 (wrapped_value_as_key (VPrim (PNum (10 ^ 21)))
                                (VObj [(KStr "1e+21", VPrim (PStr "exp"));
                                       (KStr "1000000000000000000000",
                                        VPrim (PStr "plain"))])
                                (createInstance 0) (Forall_nil _))))
           (10 ^ 21)%Z _ eq_refl eq_refl).
Defined.

(** ** Safe navigation: from the matcher to the value and back *)

(** [target[property]] in a callback, on what a navigation method
    returned: the [get] trap of the Proxy in safe mode; outside it, a
    [TypeError] on [undefined] and [null], the property of an object, own or
    inherited, and an element or the [length] of an array. *)
Definition get_property (target : value) (property : key) : M value :=
  match target with
  | VWrap u => getter u property
  | VPrim PUndef | VPrim PNull =>
      throw (Err "TypeError: Cannot read properties of undefined or null")
  | VObj _ | VObjectPrototype => ret (object_get target property)
  | _ => ret (match own_get target property with Some x => x | None => undefined end)
  end.

Lemma safeDepth_restored st : set_safeDepth Z.pred (set_safeDepth Z.succ st) = st.
Proof. destruct st. unfold set_safeDepth. cbn. f_equal. lia. Qed.

Lemma safe_call (matcher : value -> M value) name id (call : M value) st u :
  values st <> [] -> currentValue st <> VFun id ->
  call (set_safeDepth Z.succ st) = (Ok (VWrap u), set_safeDepth Z.succ st) ->
  enhanceMatcher matcher name (OneArg (VFun id) call) st = matcher u st.
Proof.
  intros Hv Hc Hcall. unfold enhanceMatcher.
  destruct (values st) as [|x l] eqn:E; [now elim Hv|]. cbn [List.length Nat.ltb Nat.leb].
  assert (Hd : differs_from_function (currentValue st) (VFun id) = true).
  { unfold differs_from_function. destruct (currentValue st) as [p|i| | | | |]; try reflexivity.
    destruct (Nat.eqb_spec i id) as [->|_]; [now elim Hc | reflexivity]. }
  rewrite Hd, Hcall. cbn. now rewrite safeDepth_restored.
Qed.

(** X22: what a matcher is given by a navigation callback is the value
    itself.  During a validation, for a callback [f] other than the current
    value, [m(() => value())] is [m] of the current value, [m(() => root())]
    is [m] of the outermost container, and [m(() => value().p)] on an object
    is [m] of its own member [p], or of [undefined] when it has none; the
    Proxy is gone, and the session is as it was before the call. *)
Theorem navigation_callback_hands_over_the_value
  (matcher : value -> M value) (name : string) (id : nat) (st : state) :
  values st <> [] -> (0 <= safeDepth st)%Z -> currentValue st <> VFun id ->
  enhanceMatcher matcher name (OneArg (VFun id) value_) st
  = matcher (currentValue st) st /\
  (funnel st <> [] ->
   enhanceMatcher matcher name (OneArg (VFun id) root) st
   = matcher (nth 0 (funnel st) undefined) st) /\
  (forall props property,
      currentValue st = VObj props -> plain_property property st ->
      enhanceMatcher matcher name
        (OneArg (VFun id) (w <- value_ ;; get_property w property)) st
      = matcher (own_member props property) st).
Proof.
  intros Hv Hs Hc.
  assert (Hsafe : (0 <? safeDepth (set_safeDepth Z.succ st))%Z = true).
  { cbn. apply Z.ltb_lt. lia. }
  assert (Hval : value_ (set_safeDepth Z.succ st)
                 = (Ok (VWrap (currentValue st)), set_safeDepth Z.succ st)).
  { unfold value_. unfold_monad. cbv beta. cbn [values set_safeDepth].
    destruct (values st) as [|x l] eqn:E; [now elim Hv|].
    cbn [List.length Nat.eqb]. cbv beta iota. unfold wrapIfSafe. rewrite Hsafe.
    unfold currentValue. cbn [values set_safeDepth]. now rewrite E. }
  split; [|split].
  - now apply safe_call.
  - intros Hf. apply safe_call; try assumption.
    unfold root. unfold_monad. cbv beta. cbn [funnel set_safeDepth].
    destruct (funnel st) as [|x l] eqn:E; [now elim Hf|].
    cbn [List.length Nat.eqb]. cbv beta iota. unfold wrapIfSafe. now rewrite Hsafe.
  - intros props property Hcur Hp. apply safe_call; try assumption.
    unfold bind. rewrite Hval, Hcur. cbn [get_property].
    now apply getter_object.
Qed.

(** [nv.get(() => nv.value().a)] on [{ a: 1 }]. *)
Lemma navigation_callback_witness :
  enhanceMatcher (fun v => ret (matchers.get v)) "get"
    (OneArg (VFun 7) (w <- value_ ;; get_property w (KStr "a")))
    (set_values (push (VObj [(KStr "a", VPrim (PNum 1))])) (entered 0))
  = (Ok (VPrim (PNum 1)),
     set_values (push (VObj [(KStr "a", VPrim (PNum 1))])) (entered 0)).
Proof.
  apply (proj2 (proj2 (navigation_callback_hands_over_the_value
                         (fun v => ret (matchers.get v)) "get" 7
                         (set_values (push (VObj [(KStr "a", VPrim (PNum 1))]))
                            (entered 0))
                         ltac:(discriminate) ltac:(cbn; lia) ltac:(discriminate)))
           [(KStr "a", VPrim (PNum 1))] (KStr "a") eq_refl I).
Defined.

(** ** What a callback can do to the session *)

(** X23: the session is restored or finished, nothing in between.
    Inspecting any value against any schema while a session runs either
    returns [false] or an error, with the session running and [values],
    [funnel], [path] and the depth exactly as they were, or throws, with the
    session finished, the stacks empty and no error path.  The same holds of
    whatever a callback does with the instance: validate, navigate, match,
    throw, catch what it called and go on; it leaves the stacks as it found
    them, or the session finished. *)
Theorem session_is_restored_or_finished :
  (forall s v st,
      Running st ->
      match doInspect s v st with
      | (Ok r, st') =>
          (r = jfalse \/ truthy r = true) /\ finished st' = false /\
          values st' = values st /\ funnel st' = funnel st /\ path st' = path st /\
          validatorDepth st' = validatorDepth st
      | (Exn _, st') =>
          finished st' = true /\ values st' = [] /\ funnel st' = [] /\
          path st' = [] /\ validatorDepth st' = 0%Z /\ errorPath st' = None
      end) /\
  (forall p st,
      Running st ->
      (finished (snd (exec p st)) = false /\
       values (snd (exec p st)) = values st /\
       funnel (snd (exec p st)) = funnel st /\
       path (snd (exec p st)) = path st /\
       validatorDepth (snd (exec p st)) = validatorDepth st) \/
      (finished (snd (exec p st)) = true /\
       values (snd (exec p st)) = [] /\ funnel (snd (exec p st)) = [] /\
       path (snd (exec p st)) = [] /\ validatorDepth (snd (exec p st)) = 0%Z /\
       errorPath (snd (exec p st)) = None)).
Proof.
  split.
  - intros s v st HR. pose proof (proj1 engine_ok s v st HR) as H. unfold post in H.
    destruct (doInspect s v st) as [[r|e] st']; cbn [fst snd] in H.
    + destruct H as ((Hf & _) & (Hv & Hfu & Hp & Hd) & Hr). repeat split; assumption.
    + destruct H as (Hf & Hv & Hfu & Hp & Hd & He & _). repeat split; assumption.
  - intros p st HR. pose proof (proj1 (proj2 engine_ok p) st HR) as H. unfold post in H.
    destruct H as [[(Hf & _) (Hv & Hfu & Hp & Hd)]|(Hf & Hv & Hfu & Hp & Hd & He & _)].
    + left. repeat split; assumption.
    + right. repeat split; assumption.
Qed.

(** A callback that catches what its nested validation threw. *)
Lemma session_witness :
  let p := TryCatch (Nv1 (SFun 1 (fun _ _ => Throw (Err "custom"))) Ret)
             (fun _ => Ret undefined) (fun _ => Ret jfalse) in
  let st := set_values (push (VPrim (PNum 1))) (entered 0) in
  (finished (snd (exec p st)) = false /\
   values (snd (exec p st)) = values st /\
   funnel (snd (exec p st)) = funnel st /\
   path (snd (exec p st)) = path st /\
   validatorDepth (snd (exec p st)) = validatorDepth st) \/
  (finished (snd (exec p st)) = true /\
   values (snd (exec p st)) = [] /\ funnel (snd (exec p st)) = [] /\
   path (snd (exec p st)) = [] /\ validatorDepth (snd (exec p st)) = 0%Z /\
   errorPath (snd (exec p st)) = None).
Proof.
  intros p st. apply (proj2 session_is_restored_or_finished p st).
  repeat split; cbn; try lia. constructor.
Defined.
